(** * Crypto-agility engine of the E2EE chat client: shallow embedding

    The development embeds the TypeScript sources of the client's
    crypto-agility engine and proves (or refutes) the properties its
    specification states.

    - [JsMap]                  ECMAScript [Map]: insertion ordered, unique keys
    - [KeyManagementService]   security/key-mgmt/key-manager.ts
    - [SecurityMonitorService] security/monitoring/security-monitor.ts
    - [CryptoProviderFactory]  the provider factory of crypto/core
    - [RSAProvider]            crypto/classical/rsa-provider.ts
    - [MLKEMProvider]          crypto/pqc/ml-kem-provider
    - [CryptoUtils]            shared/cryptoUtils.ts (the envelope codec)

    An asynchronous function is embedded as one call that runs to completion
    in source order; calls interleaved at an [await] are outside the model.
    What the runtime supplies (clock, random numbers, the Web Crypto
    primitives, the module loader) is an explicit argument. *)

From Stdlib Require Import ZArith List String Ascii Bool Lia QArith DecimalString.
From Stdlib.Strings Require Import Byte.
Import ListNotations.
Open Scope list_scope.
Open Scope string_scope.

Set Implicit Arguments.

(* ===================================================================== *)
(** * Part I. The embedding                                               *)
(* ===================================================================== *)

(** ** ECMAScript [Map]

    A [Map] iterates in insertion order, [set] on a present key replaces the
    value in place, and keys are unique.  [checkKeyRotationNeeds] iterates over
    [this.keys.entries()], so the order is part of the behaviour. *)

Module JsMap.
Section Defs.
Variables K V : Type.
Variable eqb : K -> K -> bool.

Definition t := list (K * V).

Definition empty : t := [].

Fixpoint get (m : t) (k : K) : option V :=
  match m with
  | [] => None
  | (k', v) :: r => if eqb k' k then Some v else get r k
  end.

Fixpoint set (m : t) (k : K) (v : V) : t :=
  match m with
  | [] => [(k, v)]
  | (k', v') :: r => if eqb k' k then (k', v) :: r else (k', v') :: set r k v
  end.

Fixpoint delete (m : t) (k : K) : t :=
  match m with
  | [] => []
  | (k', v') :: r => if eqb k' k then delete r k else (k', v') :: delete r k
  end.

Definition has (m : t) (k : K) : bool :=
  match get m k with Some _ => true | None => false end.

Definition entries (m : t) : list (K * V) := m.
Definition keys (m : t) : list K := map fst m.
Definition values (m : t) : list V := map snd m.
End Defs.
End JsMap.

(** ** JavaScript values shared by the services *)

(** [CryptoAlgorithmType] of crypto/core/types: a closed union of string
    literals.  [algorithm_name] gives the runtime string, on which the key
    manager's [startsWith]/[includes] tests work. *)
Inductive CryptoAlgorithmType :=
| RSA_OAEP | ECDH
| ML_KEM_512 | ML_KEM_768 | ML_KEM_1024 | CRYSTALS_Dilithium | SPHINCS_plus
| Hybrid_RSA_ML_KEM | Hybrid_ECDH_ML_KEM
| Hybrid_RSAOAEP_MLKEM512 | Hybrid_RSAOAEP_MLKEM1024.

Definition algorithm_name (a : CryptoAlgorithmType) : string :=
  match a with
  | RSA_OAEP => "RSA-OAEP"
  | ECDH => "ECDH"
  | ML_KEM_512 => "ML-KEM-512"
  | ML_KEM_768 => "ML-KEM-768"
  | ML_KEM_1024 => "ML-KEM-1024"
  | CRYSTALS_Dilithium => "CRYSTALS-Dilithium"
  | SPHINCS_plus => "SPHINCS+"
  | Hybrid_RSA_ML_KEM => "Hybrid-RSA-ML-KEM"
  | Hybrid_ECDH_ML_KEM => "Hybrid-ECDH-ML-KEM"
  | Hybrid_RSAOAEP_MLKEM512 => "Hybrid-RSAOAEP-MLKEM512"
  | Hybrid_RSAOAEP_MLKEM1024 => "Hybrid-RSAOAEP-MLKEM1024"
  end.

Definition algorithm_eqb (a b : CryptoAlgorithmType) : bool :=
  String.eqb (algorithm_name a) (algorithm_name b).

Inductive SecurityLevel :=
| quantum_vulnerable | quantum_resistant | quantum_safe | hybrid
| low | medium | high | maximum.

Inductive CryptoErrorCode :=
| ALGORITHM_NOT_SUPPORTED | KEY_GENERATION_FAILED | ENCRYPTION_FAILED
| DECRYPTION_FAILED | QUANTUM_THREAT_DETECTED | NIST_COMPLIANCE_VIOLATION
| HYBRID_MODE_FAILURE | NOT_IMPLEMENTED | INVALID_OPERATION | SIGNATURE_FAILED.

(** Thrown values.  [Error] is [new Error(message)], [CryptoError] the class
    of crypto/core/types, [DOMException] what a rejected Web Crypto promise
    carries.  All three are [instanceof Error]. *)
Inductive JsError :=
| Error (message : string)
| CryptoError (message : string) (code : CryptoErrorCode)
              (algorithm : option CryptoAlgorithmType)
| DOMException (name message : string).

Definition error_message (e : JsError) : string :=
  match e with
  | Error m => m
  | CryptoError m _ _ => m
  | DOMException _ m => m
  end.

Definition instanceof_Error (e : JsError) : bool := true.

Definition instanceof_CryptoError (e : JsError) : bool :=
  match e with CryptoError _ _ _ => true | _ => false end.

(** [`${error}`]: [Error.prototype.toString] gives ["name: message"]. *)
Definition error_toString (e : JsError) : string :=
  match e with
  | Error m => "Error: " ++ m
  | CryptoError m _ _ => "CryptoError: " ++ m
  | DOMException n m => n ++ ": " ++ m
  end.

(** [String.prototype.startsWith], [includes] and [substr]. *)
Definition startsWith (s p : string) : bool := prefix p s.

Definition includes (s p : string) : bool :=
  match index 0 p s with Some _ => true | None => false end.

Definition substr (s : string) (start len : nat) : string :=
  substring start len s.

(** Decimal rendering of an integer, as string concatenation with a number
    does for the integral values [Date.now()] returns. *)
Definition string_of_Z (z : Z) : string := NilZero.string_of_int (Z.to_int z).

(** A byte array ([Uint8Array], [ArrayBuffer]). *)
Definition bytes := list byte.

(** ** Web Crypto key objects *)

Inductive KeyType := public | private | secret.

Inductive KeyUsage := encrypt_usage | decrypt_usage | deriveKey_usage | deriveBits_usage.

Inductive HashAlgorithm := SHA_256.

Inductive KeyAlgorithm :=
| RsaHashedKeyAlgorithm (modulusLength : Z) (hash : HashAlgorithm)
| EcKeyAlgorithm_P256
| AesKeyAlgorithm (length : Z).

(** A [CryptoKey]: its visible slots and the key material behind the handle. *)
Record CryptoKey := {
  key_type : KeyType;
  key_extractable : bool;
  key_algorithm : KeyAlgorithm;
  key_usages : list KeyUsage;
  key_material : bytes
}.

Record CryptoKeyPair := {
  publicKey : CryptoKey;
  privateKey : CryptoKey
}.

(** ** The key management service (security/key-mgmt/key-manager.ts) *)

Module KeyManagementService.

Inductive KeyUsageRole := encryption | signing | kex.

Inductive KeyStatus := active | rotating | revoked | expired.

Definition status_eqb (a b : KeyStatus) : bool :=
  match a, b with
  | active, active | rotating, rotating | revoked, revoked | expired, expired => true
  | _, _ => false
  end.

(** [interface KeyMetadata]; a [Date] is its time value in milliseconds. *)
Record KeyMetadata := {
  metadata_id : string;
  algorithm : CryptoAlgorithmType;
  created : Z;
  lastUsed : option Z;
  rotatedAt : option Z;
  expiresAt : option Z;
  isQuantumSafe : bool;
  securityLevel : SecurityLevel;
  usage : KeyUsageRole;
  status : KeyStatus
}.

Definition with_status (m : KeyMetadata) (s : KeyStatus) : KeyMetadata :=
  {| metadata_id := metadata_id m; algorithm := algorithm m; created := created m;
     lastUsed := lastUsed m; rotatedAt := rotatedAt m; expiresAt := expiresAt m;
     isQuantumSafe := isQuantumSafe m; securityLevel := securityLevel m;
     usage := usage m; status := s |}.

Definition with_rotatedAt (m : KeyMetadata) (d : Z) : KeyMetadata :=
  {| metadata_id := metadata_id m; algorithm := algorithm m; created := created m;
     lastUsed := lastUsed m; rotatedAt := Some d; expiresAt := expiresAt m;
     isQuantumSafe := isQuantumSafe m; securityLevel := securityLevel m;
     usage := usage m; status := status m |}.

Definition with_lastUsed (m : KeyMetadata) (d : Z) : KeyMetadata :=
  {| metadata_id := metadata_id m; algorithm := algorithm m; created := created m;
     lastUsed := Some d; rotatedAt := rotatedAt m; expiresAt := expiresAt m;
     isQuantumSafe := isQuantumSafe m; securityLevel := securityLevel m;
     usage := usage m; status := status m |}.

Definition with_expiresAt (m : KeyMetadata) (d : Z) : KeyMetadata :=
  {| metadata_id := metadata_id m; algorithm := algorithm m; created := created m;
     lastUsed := lastUsed m; rotatedAt := rotatedAt m; expiresAt := Some d;
     isQuantumSafe := isQuantumSafe m; securityLevel := securityLevel m;
     usage := usage m; status := status m |}.

(** [interface KeyRotationPolicy]. *)
Record KeyRotationPolicy := {
  policy_algorithm : CryptoAlgorithmType;
  maxAge : Z;
  maxUsage : Z;
  autoRotate : bool;
  quantumThreatThreshold : Z
}.

Inductive EventType := ev_created | ev_used | ev_rotated | ev_expired | ev_revoked.

(** [interface KeyLifecycleEvent], the fields the key manager fills in. *)
Record KeyLifecycleEvent := {
  keyId : string;
  type : EventType;
  timestamp : Z;
  event_algorithm : CryptoAlgorithmType;
  details : string;
  previousKeyId : option string
}.

(** What the runtime supplies to the service.  The n-th call of a primitive
    gets the n-th answer; the service state counts the calls made so far. *)
Record Environment := {
  Date_now : nat -> Z;
  Math_random : nat -> Q;
  Number_toString36 : Q -> string;
  subtle_generateKey : nat -> JsError + CryptoKeyPair
}.

(** The fields of the class, the events handed to [emitEvent] so far (oldest
    first; every registered listener receives each of them, and a listener only
    observes), and the positions in the environment's answers. *)
Record State := {
  keys : JsMap.t string KeyMetadata;
  keyStore : JsMap.t string CryptoKey;
  rotationPolicies : JsMap.t CryptoAlgorithmType KeyRotationPolicy;
  emitted : list KeyLifecycleEvent;
  clock_reads : nat;
  random_draws : nat;
  keygen_calls : nat
}.

Definition set_keys (s : State) (k : JsMap.t string KeyMetadata) : State :=
  {| keys := k; keyStore := keyStore s; rotationPolicies := rotationPolicies s;
     emitted := emitted s; clock_reads := clock_reads s;
     random_draws := random_draws s; keygen_calls := keygen_calls s |}.

Definition set_keyStore (s : State) (k : JsMap.t string CryptoKey) : State :=
  {| keys := keys s; keyStore := k; rotationPolicies := rotationPolicies s;
     emitted := emitted s; clock_reads := clock_reads s;
     random_draws := random_draws s; keygen_calls := keygen_calls s |}.

Definition set_rotationPolicies (s : State)
  (p : JsMap.t CryptoAlgorithmType KeyRotationPolicy) : State :=
  {| keys := keys s; keyStore := keyStore s; rotationPolicies := p;
     emitted := emitted s; clock_reads := clock_reads s;
     random_draws := random_draws s; keygen_calls := keygen_calls s |}.

Definition set_emitted (s : State) (e : list KeyLifecycleEvent) : State :=
  {| keys := keys s; keyStore := keyStore s; rotationPolicies := rotationPolicies s;
     emitted := e; clock_reads := clock_reads s;
     random_draws := random_draws s; keygen_calls := keygen_calls s |}.

(** *** Computations of the service: state passing with exceptions.  A throw
    keeps the mutations made before it, as in JavaScript. *)

Definition M (A : Type) : Type := State -> (JsError + A) * State.

Definition ret (A : Type) (a : A) : M A := fun s => (inr a, s).

Definition throw (A : Type) (e : JsError) : M A := fun s => (inl e, s).

Definition bind (A B : Type) (m : M A) (f : A -> M B) : M B :=
  fun s => match m s with
           | (inr a, s') => f a s'
           | (inl e, s') => (inl e, s')
           end.

Definition try_catch (A : Type) (m : M A) (handler : JsError -> M A) : M A :=
  fun s => match m s with
           | (inr a, s') => (inr a, s')
           | (inl e, s') => handler e s'
           end.

Definition gets (A : Type) (f : State -> A) : M A := fun s => (inr (f s), s).

Definition modify (f : State -> State) : M unit := fun s => (inr tt, f s).

Arguments ret {A} a.
Arguments throw {A} e.
Arguments bind {A B} m f.
Arguments try_catch {A} m handler.
Arguments gets {A} f.

Notation "x <- m ;; k" := (bind m (fun x => k))
  (at level 61, m at next level, right associativity).
Notation "m ;;; k" := (bind m (fun _ => k))
  (at level 61, right associativity).

Section Service.
Variable env : Environment.

(** [Date.now()] and [new Date()]: one clock read each. *)
Definition DateNow : M Z :=
  fun s => (inr (Date_now env (clock_reads s)),
            {| keys := keys s; keyStore := keyStore s;
               rotationPolicies := rotationPolicies s; emitted := emitted s;
               clock_reads := S (clock_reads s);
               random_draws := random_draws s; keygen_calls := keygen_calls s |}).

Definition MathRandom : M Q :=
  fun s => (inr (Math_random env (random_draws s)),
            {| keys := keys s; keyStore := keyStore s;
               rotationPolicies := rotationPolicies s; emitted := emitted s;
               clock_reads := clock_reads s;
               random_draws := S (random_draws s); keygen_calls := keygen_calls s |}).

(** [await window.crypto.subtle.generateKey(...)]: a rejection is thrown. *)
Definition subtleGenerateKey : M CryptoKeyPair :=
  fun s => (subtle_generateKey env (keygen_calls s),
            {| keys := keys s; keyStore := keyStore s;
               rotationPolicies := rotationPolicies s; emitted := emitted s;
               clock_reads := clock_reads s;
               random_draws := random_draws s; keygen_calls := S (keygen_calls s) |}).

(** [private emitEvent]: the listeners' own failures are caught and logged, so
    the call never throws. *)
Definition emitEvent (event : KeyLifecycleEvent) : M unit :=
  modify (fun s => set_emitted s (emitted s ++ [event])%list).

Definition generateKeyId : M string :=
  now <- DateNow ;;
  r <- MathRandom ;;
  ret ("key_" ++ string_of_Z now ++ "_" ++ substr (Number_toString36 env r) 2 9).

Definition createKeyPair (algorithm : CryptoAlgorithmType) : M CryptoKeyPair :=
  if algorithm_eqb algorithm RSA_OAEP then subtleGenerateKey
  else throw (Error ("Key generation for " ++ algorithm_name algorithm
                     ++ " not implemented yet")).

Definition isQuantumSafeAlgorithm (algorithm : CryptoAlgorithmType) : bool :=
  startsWith (algorithm_name algorithm) "ML-KEM"
  || startsWith (algorithm_name algorithm) "Dilithium"
  || startsWith (algorithm_name algorithm) "Hybrid".

Definition getAlgorithmSecurityLevel (algorithm : CryptoAlgorithmType) : SecurityLevel :=
  if includes (algorithm_name algorithm) "1024" then maximum
  else if includes (algorithm_name algorithm) "768" then high
  else if includes (algorithm_name algorithm) "512" then medium
  else if includes (algorithm_name algorithm) "RSA" then low
  else medium.

Definition getKeyUsage (algorithm : CryptoAlgorithmType) : KeyUsageRole :=
  if includes (algorithm_name algorithm) "KEM" then kex
  else if includes (algorithm_name algorithm) "Dilithium" then signing
  else encryption.

Definition getCurrentQuantumThreatLevel : M Q :=
  r <- MathRandom ;;
  ret (Qplus (inject_Z 45) (Qmult r (inject_Z 20))).

Definition generateKey (algorithm : CryptoAlgorithmType) : M string :=
  keyId <- generateKeyId ;;
  keyPair <- createKeyPair algorithm ;;
  created <- DateNow ;;
  let metadata :=
    {| metadata_id := keyId; algorithm := algorithm; created := created;
       lastUsed := None; rotatedAt := None; expiresAt := None;
       isQuantumSafe := isQuantumSafeAlgorithm algorithm;
       securityLevel := getAlgorithmSecurityLevel algorithm;
       usage := getKeyUsage algorithm; status := active |} in
  policy <- gets (fun s => JsMap.get algorithm_eqb (rotationPolicies s) algorithm) ;;
  metadata <- match policy with
              | Some policy => now <- DateNow ;;
                               ret (with_expiresAt metadata (now + maxAge policy))
              | None => ret metadata
              end ;;
  modify (fun s => set_keys s (JsMap.set String.eqb (keys s) keyId metadata)) ;;;
  modify (fun s => set_keyStore s
                     (JsMap.set String.eqb (keyStore s) keyId (privateKey keyPair))) ;;;
  modify (fun s => set_keyStore s
                     (JsMap.set String.eqb (keyStore s) (keyId ++ "_pub")
                        (publicKey keyPair))) ;;;
  timestamp <- DateNow ;;
  emitEvent {| keyId := keyId; type := ev_created; timestamp := timestamp;
               event_algorithm := algorithm;
               details := "Key generated with " ++ algorithm_name algorithm;
               previousKeyId := None |} ;;;
  ret keyId.

(** [metadata.field = value] on the object that [this.keys] holds under
    [keyId]: the map sees the change, at the same position. *)
Definition mutate_metadata (keyId : string) (f : KeyMetadata -> KeyMetadata) : M unit :=
  modify (fun s => match JsMap.get String.eqb (keys s) keyId with
                   | Some m => set_keys s (JsMap.set String.eqb (keys s) keyId (f m))
                   | None => s
                   end).

Definition rotateKey (keyId : string) : M string :=
  oldMetadata <- gets (fun s => JsMap.get String.eqb (keys s) keyId) ;;
  match oldMetadata with
  | None => throw (Error ("Key " ++ keyId ++ " not found"))
  | Some oldMetadata =>
      mutate_metadata keyId (fun m => with_status m rotating) ;;;
      rotated <- DateNow ;;
      mutate_metadata keyId (fun m => with_rotatedAt m rotated) ;;;
      newKeyId <- generateKey (algorithm oldMetadata) ;;
      timestamp <- DateNow ;;
      emitEvent {| keyId := newKeyId; type := ev_rotated; timestamp := timestamp;
                   event_algorithm := algorithm oldMetadata;
                   details := "Key rotated from " ++ keyId;
                   previousKeyId := Some keyId |} ;;;
      ret newKeyId
  end.

Definition revokeKey (keyId : string) : M unit :=
  metadata <- gets (fun s => JsMap.get String.eqb (keys s) keyId) ;;
  match metadata with
  | None => throw (Error ("Key " ++ keyId ++ " not found"))
  | Some metadata =>
      mutate_metadata keyId (fun m => with_status m revoked) ;;;
      modify (fun s => set_keyStore s (JsMap.delete String.eqb (keyStore s) keyId)) ;;;
      modify (fun s => set_keyStore s
                         (JsMap.delete String.eqb (keyStore s) (keyId ++ "_pub"))) ;;;
      timestamp <- DateNow ;;
      emitEvent {| keyId := keyId; type := ev_revoked; timestamp := timestamp;
                   event_algorithm := algorithm metadata;
                   details := "Key manually revoked";
                   previousKeyId := None |}
  end.

(** [key || null]: a [CryptoKey] object is truthy. *)
Definition getKey (keyId : string) : M (option CryptoKey) :=
  gets (fun s => JsMap.get String.eqb (keyStore s) keyId).

Definition getPublicKey (keyId : string) : M (option CryptoKey) :=
  gets (fun s => JsMap.get String.eqb (keyStore s) (keyId ++ "_pub")).

Definition getKeyMetadata (keyId : string) : M (option KeyMetadata) :=
  gets (fun s => JsMap.get String.eqb (keys s) keyId).

(** The body of the [for ... of this.keys.entries()] loop, entry by entry. *)
Fixpoint checkKeyRotationNeeds_loop (now : Z) (entries : list (string * KeyMetadata))
  (keysNeedingRotation : list string) : M (list string) :=
  match entries with
  | [] => ret keysNeedingRotation
  | (keyId, metadata) :: rest =>
      if negb (status_eqb (status metadata) active)
      then checkKeyRotationNeeds_loop now rest keysNeedingRotation
      else
        policy <- gets (fun s => JsMap.get algorithm_eqb (rotationPolicies s)
                                   (algorithm metadata)) ;;
        match policy with
        | None => checkKeyRotationNeeds_loop now rest keysNeedingRotation
        | Some policy =>
            let needsRotation :=
              match expiresAt metadata with
              | Some e => Z.gtb now e
              | None => false
              end in
            currentThreatLevel <- getCurrentQuantumThreatLevel ;;
            let needsRotation :=
              if Qle_bool (inject_Z (quantumThreatThreshold policy)) currentThreatLevel
                 && negb (isQuantumSafe metadata)
              then true else needsRotation in
            checkKeyRotationNeeds_loop now rest
              (if needsRotation then (keysNeedingRotation ++ [keyId])%list
               else keysNeedingRotation)
        end
  end.

Definition checkKeyRotationNeeds : M (list string) :=
  now <- DateNow ;;
  entries <- gets (fun s => JsMap.entries (keys s)) ;;
  checkKeyRotationNeeds_loop now entries [].

Record RotationFailure := {
  failed_keyId : string;
  failed_error : string
}.

Record ScheduledRotations := {
  rotated : list string;
  failed : list RotationFailure
}.

(** The [for (const keyId of keysToRotate)] loop with its two accumulators. *)
Fixpoint performScheduledRotations_loop (keysToRotate : list string)
  (rotated : list string) (failed : list RotationFailure) : M ScheduledRotations :=
  match keysToRotate with
  | [] => ret {| rotated := rotated; failed := failed |}
  | keyId :: rest =>
      step <- try_catch
                (newKeyId <- rotateKey keyId ;;
                 ret ((rotated ++ [newKeyId])%list, failed))
                (fun error =>
                   ret (rotated,
                        (failed ++ [{| failed_keyId := keyId;
                                       failed_error :=
                                         if instanceof_Error error
                                         then error_message error
                                         else "Unknown error" |}])%list)) ;;
      performScheduledRotations_loop rest (fst step) (snd step)
  end.

Definition performScheduledRotations : M ScheduledRotations :=
  keysToRotate <- checkKeyRotationNeeds ;;
  performScheduledRotations_loop keysToRotate [] [].

Definition recordKeyUsage (keyId : string) : M unit :=
  metadata <- gets (fun s => JsMap.get String.eqb (keys s) keyId) ;;
  match metadata with
  | Some metadata =>
      used <- DateNow ;;
      mutate_metadata keyId (fun m => with_lastUsed m used) ;;;
      timestamp <- DateNow ;;
      emitEvent {| keyId := keyId; type := ev_used; timestamp := timestamp;
                   event_algorithm := algorithm metadata;
                   details := "Key used for operation";
                   previousKeyId := None |}
  | None => ret tt
  end.

Definition setRotationPolicy (algorithm : CryptoAlgorithmType)
  (policy : KeyRotationPolicy) : M unit :=
  modify (fun s => set_rotationPolicies s
                     (JsMap.set algorithm_eqb (rotationPolicies s) algorithm policy)).

Definition getRotationPolicy (algorithm : CryptoAlgorithmType)
  : M (option KeyRotationPolicy) :=
  gets (fun s => JsMap.get algorithm_eqb (rotationPolicies s) algorithm).

End Service.

Definition day : Z := 24 * 60 * 60 * 1000.

(** [private initializeDefaultPolicies], in the order of its [set] calls. *)
Definition initializeDefaultPolicies : JsMap.t CryptoAlgorithmType KeyRotationPolicy :=
  [ (RSA_OAEP, {| policy_algorithm := RSA_OAEP; maxAge := 90 * day;
                  maxUsage := 10000; autoRotate := true;
                  quantumThreatThreshold := 50 |});
    (ML_KEM_512, {| policy_algorithm := ML_KEM_512; maxAge := 365 * day;
                    maxUsage := 100000; autoRotate := true;
                    quantumThreatThreshold := 95 |});
    (ML_KEM_768, {| policy_algorithm := ML_KEM_768; maxAge := 365 * day;
                    maxUsage := 100000; autoRotate := true;
                    quantumThreatThreshold := 95 |});
    (ML_KEM_1024, {| policy_algorithm := ML_KEM_1024; maxAge := 2 * 365 * day;
                     maxUsage := 500000; autoRotate := true;
                     quantumThreatThreshold := 98 |});
    (Hybrid_RSA_ML_KEM, {| policy_algorithm := Hybrid_RSA_ML_KEM; maxAge := 180 * day;
                           maxUsage := 50000; autoRotate := true;
                           quantumThreatThreshold := 70 |}) ].

(** [new KeyManagementService()]. *)
Definition initial : State :=
  {| keys := JsMap.empty string KeyMetadata;
     keyStore := JsMap.empty string CryptoKey;
     rotationPolicies := initializeDefaultPolicies;
     emitted := [];
     clock_reads := 0; random_draws := 0; keygen_calls := 0 |}.

(** The calls a client can make that act on the service. *)
Inductive Operation :=
| GenerateKey (algorithm : CryptoAlgorithmType)
| RotateKey (keyId : string)
| RevokeKey (keyId : string)
| CheckKeyRotationNeeds
| PerformScheduledRotations
| RecordKeyUsage (keyId : string)
| SetRotationPolicy (algorithm : CryptoAlgorithmType) (policy : KeyRotationPolicy).

(** The state an operation leaves, whether it returned or threw. *)
Definition run (env : Environment) (op : Operation) (s : State) : State :=
  match op with
  | GenerateKey a => snd (generateKey env a s)
  | RotateKey k => snd (rotateKey env k s)
  | RevokeKey k => snd (revokeKey env k s)
  | CheckKeyRotationNeeds => snd (checkKeyRotationNeeds env s)
  | PerformScheduledRotations => snd (performScheduledRotations env s)
  | RecordKeyUsage k => snd (recordKeyUsage env k s)
  | SetRotationPolicy a p => snd (setRotationPolicy a p s)
  end.

Definition run_all (env : Environment) (ops : list Operation) (s : State) : State :=
  fold_left (fun s op => run env op s) ops s.

(** The states a service can be in: those a sequence of calls leads to. *)
Inductive reachable (env : Environment) : State -> Prop :=
| reachable_initial : reachable env initial
| reachable_run : forall s op, reachable env s -> reachable env (run env op s).

End KeyManagementService.

(** ** The platform under the providers

    The providers and the envelope codec are stateless: each call reads its
    arguments and what the Web platform returns.  [Platform] collects the
    primitives they call.  Values that the runtime draws during a call (fresh
    keys, initialisation vectors) are arguments of the embedded function; the
    padding randomness of RSAES-OAEP stays inside the platform's function, so
    a statement about it holds for each outcome the platform can give. *)

Definition Result (A : Type) : Type := (JsError + A)%type.

Definition rbind (A B : Type) (m : Result A) (f : A -> Result B) : Result B :=
  match m with
  | inl e => inl e
  | inr a => f a
  end.

Arguments rbind {A B} m f.

Notation "'let?' x ':=' m 'in' k" := (rbind m (fun x => k))
  (at level 10, x name, k at level 200).

(** A key argument of static type [CryptoKey | Uint8Array]. *)
Inductive KeyInput :=
| KeyObject (key : CryptoKey)
| RawBytes (raw : bytes).

Record Platform := {
  (** [new TextEncoder().encode] and [new TextDecoder().decode] *)
  TextEncoder_encode : string -> bytes;
  TextDecoder_decode : bytes -> string;
  (** [btoa] and [atob] on binary strings; [atob] rejects malformed input *)
  btoa : string -> string;
  atob : string -> Result string;
  (** [crypto.subtle.digest('SHA-256', _)] *)
  digest_SHA_256 : bytes -> bytes;
  (** RSAES-OAEP on a message the modulus can hold, and its inverse *)
  RSAES_OAEP_encrypt : CryptoKey -> bytes -> bytes;
  RSAES_OAEP_decrypt : CryptoKey -> bytes -> Result bytes;
  (** [crypto.subtle.importKey] for the formats the providers use *)
  importKey_spki_RSA_OAEP : bytes -> Result CryptoKey;
  importKey_pkcs8_RSA_OAEP : bytes -> Result CryptoKey;
  importKey_spki_ECDH : bytes -> Result CryptoKey;
  exportKey_spki : CryptoKey -> Result bytes;
  (** [crypto.subtle.deriveKey] from ECDH to an AES-GCM key of 256 bits *)
  deriveKey_ECDH_AES_GCM : CryptoKey -> CryptoKey -> list KeyUsage -> Result CryptoKey;
  (** [crypto.subtle.encrypt] and [decrypt] with [{ name: 'AES-GCM', iv }] *)
  encrypt_AES_GCM : CryptoKey -> bytes -> bytes -> Result bytes;
  decrypt_AES_GCM : CryptoKey -> bytes -> bytes -> Result bytes
}.

(** [String.fromCharCode] over the bytes of a buffer, and back with
    [charCodeAt]: the binary string of a byte array. *)
Definition binary_string (b : bytes) : string := string_of_list_byte b.
Definition char_codes (s : string) : bytes := list_byte_of_string s.

(** [TypedArray.prototype.slice(begin, end)] and [slice(begin)]. *)
Definition slice (b : bytes) (start stop : nat) : bytes :=
  firstn (stop - start) (skipn start b).
Definition slice_from (b : bytes) (start : nat) : bytes := skipn start b.

(** [target.set(source, offset)] where the source fits in the target. *)
Definition typed_array_set (target source : bytes) (offset : nat) : bytes :=
  (firstn offset target ++ source ++ skipn (offset + List.length source) target)%list.

(** [new Uint8Array(n)]: n zero bytes. *)
Definition zero_bytes (n : nat) : bytes := repeat x00 n.

(** *** [crypto.subtle.encrypt({ name: 'RSA-OAEP' }, key, data)]

    Web Cryptography API, RSA-OAEP encrypt: the key must be a public RSA-OAEP
    key usable for encryption ([InvalidAccessError] otherwise); RSAES-OAEP
    (RFC 3447, 7.1.1) rejects a message longer than k - 2 hLen - 2 bytes, k the
    modulus length in bytes ([OperationError]). *)
Definition hash_length (h : HashAlgorithm) : Z :=
  match h with SHA_256 => 32 end.

Definition usage_eqb (a b : KeyUsage) : bool :=
  match a, b with
  | encrypt_usage, encrypt_usage | decrypt_usage, decrypt_usage
  | deriveKey_usage, deriveKey_usage | deriveBits_usage, deriveBits_usage => true
  | _, _ => false
  end.

Definition RSA_OAEP_capacity (key : CryptoKey) : option Z :=
  match key_algorithm key with
  | RsaHashedKeyAlgorithm modulusLength hash =>
      Some (modulusLength / 8 - 2 * hash_length hash - 2)%Z
  | _ => None
  end.

Definition subtle_encrypt_RSA_OAEP (P : Platform) (key : CryptoKey) (data : bytes)
  : Result bytes :=
  match key_type key, RSA_OAEP_capacity key with
  | public, Some capacity =>
      if existsb (usage_eqb encrypt_usage) (key_usages key)
      then if (Z.of_nat (List.length data) <=? capacity)%Z
           then inr (RSAES_OAEP_encrypt P key data)
           else inl (DOMException "OperationError" "The operation failed")
      else inl (DOMException "InvalidAccessError" "key.usages does not permit this operation")
  | _, _ => inl (DOMException "InvalidAccessError" "key is not of the expected type")
  end.

Definition subtle_decrypt_RSA_OAEP (P : Platform) (key : CryptoKey) (data : bytes)
  : Result bytes :=
  match key_type key, RSA_OAEP_capacity key with
  | private, Some _ =>
      if existsb (usage_eqb decrypt_usage) (key_usages key)
      then RSAES_OAEP_decrypt P key data
      else inl (DOMException "InvalidAccessError" "key.usages does not permit this operation")
  | _, _ => inl (DOMException "InvalidAccessError" "key is not of the expected type")
  end.

(** ** The classical provider (crypto/classical/rsa-provider.ts) *)

Module RSAProvider.

Definition algorithm : CryptoAlgorithmType := RSA_OAEP.
Definition securityLevel : SecurityLevel := quantum_vulnerable.
Definition isQuantumSafe : bool := false.

Section Provider.
Variable P : Platform.

Definition arrayBufferToBase64 (buffer : bytes) : string :=
  btoa P (binary_string buffer).

Definition base64ToArrayBuffer (base64 : string) : Result bytes :=
  let? binary := atob P base64 in
  inr (char_codes binary).

Definition importKey (keyData : string) : Result CryptoKey :=
  match
    (let? keyBuffer := base64ToArrayBuffer keyData in
     match importKey_spki_RSA_OAEP P keyBuffer with
     | inr key => inr key
     | inl _ => importKey_pkcs8_RSA_OAEP P keyBuffer
     end)
  with
  | inr key => inr key
  | inl error =>
      inl (CryptoError ("RSA key import failed: " ++ error_toString error)
             KEY_GENERATION_FAILED (Some algorithm))
  end.

Definition ensureCryptoKey (key : KeyInput) : Result CryptoKey :=
  match key with
  | KeyObject key => inr key
  | RawBytes raw => importKey (arrayBufferToBase64 raw)
  end.

Definition encrypt (data : string) (publicKey : KeyInput) : Result string :=
  match
    (let? cryptoKey := ensureCryptoKey publicKey in
     let dataBuffer := TextEncoder_encode P data in
     if (190 <? List.length dataBuffer)%nat
     then inl (CryptoError
                 "Message too large for RSA encryption. Consider using hybrid encryption."
                 ENCRYPTION_FAILED (Some algorithm))
     else
       let? encryptedBuffer := subtle_encrypt_RSA_OAEP P cryptoKey dataBuffer in
       inr (arrayBufferToBase64 encryptedBuffer))
  with
  | inr ciphertext => inr ciphertext
  | inl error =>
      if instanceof_CryptoError error then inl error
      else inl (CryptoError ("RSA encryption failed: " ++ error_toString error)
                  ENCRYPTION_FAILED (Some algorithm))
  end.

Definition decrypt (encryptedData : string) (privateKey : KeyInput) : Result string :=
  match
    (let? cryptoKey := ensureCryptoKey privateKey in
     let? encryptedBuffer := base64ToArrayBuffer encryptedData in
     let? decryptedBuffer := subtle_decrypt_RSA_OAEP P cryptoKey encryptedBuffer in
     inr (TextDecoder_decode P decryptedBuffer))
  with
  | inr plaintext => inr plaintext
  | inl error =>
      inl (CryptoError ("RSA decryption failed: " ++ error_toString error)
             DECRYPTION_FAILED (Some algorithm))
  end.

End Provider.
End RSAProvider.

(** ** The post-quantum provider (crypto/pqc/ml-kem-provider.ts) *)

Module MLKEMProvider.

Inductive Variant := ML_KEM_512_variant | ML_KEM_768_variant | ML_KEM_1024_variant.

Definition algorithm (variant : Variant) : CryptoAlgorithmType :=
  match variant with
  | ML_KEM_512_variant => ML_KEM_512
  | ML_KEM_768_variant => ML_KEM_768
  | ML_KEM_1024_variant => ML_KEM_1024
  end.

Definition securityLevel (variant : Variant) : SecurityLevel :=
  match variant with
  | ML_KEM_512_variant => medium
  | ML_KEM_768_variant => high
  | ML_KEM_1024_variant => high
  end.

Definition keySize (variant : Variant) : nat :=
  match variant with
  | ML_KEM_512_variant => 800
  | ML_KEM_768_variant => 1184
  | ML_KEM_1024_variant => 1568
  end.

Definition ciphertextSize (variant : Variant) : nat :=
  match variant with
  | ML_KEM_512_variant => 768
  | ML_KEM_768_variant => 1088
  | ML_KEM_1024_variant => 1568
  end.

Definition sharedSecretSize (variant : Variant) : nat :=
  match variant with
  | ML_KEM_512_variant => 32
  | ML_KEM_768_variant => 32
  | ML_KEM_1024_variant => 32
  end.

Record MLKEMEncapsulation := {
  ciphertext : bytes;
  sharedSecret : bytes
}.

Section Provider.
Variable P : Platform.
Variable variant : Variant.

(** [hashView[i % 32]] for i from 0: the hash repeated up to the size.  A read
    past the end of the hash gives [undefined], stored as 0. *)
Definition expand_hash (hashView : bytes) (size : nat) : bytes :=
  map (fun i => nth (i mod 32) hashView x00) (seq 0 size).

(** [encapsulate]; [sharedSecret] is the array [crypto.getRandomValues]
    filled. *)
Definition encapsulate (sharedSecret : bytes) (publicKey : bytes) : MLKEMEncapsulation :=
  let combined := (sharedSecret ++ publicKey)%list in
  let hashView := digest_SHA_256 P combined in
  {| ciphertext := expand_hash hashView (ciphertextSize variant);
     sharedSecret := sharedSecret |}.

Definition decapsulate (_privateKey : bytes) (ciphertext : bytes) : bytes :=
  let copy := ciphertext in
  let hashView := digest_SHA_256 P copy in
  let sharedSecret := zero_bytes (sharedSecretSize variant) in
  typed_array_set sharedSecret (slice hashView 0 (sharedSecretSize variant)) 0.

(** [encrypt] on a string.  [generatedKey] is the key [generateKeys()] would
    return in this call: it is used only when the key argument is not a
    [CryptoKey].  [iv] is the drawn initialisation vector. *)
Definition encrypt (generatedKey : CryptoKey) (iv : bytes)
  (data : string) (publicKey : KeyInput) : Result string :=
  let key := match publicKey with
             | KeyObject k => k
             | RawBytes _ => generatedKey
             end in
  let encoded := TextEncoder_encode P data in
  let? encrypted := encrypt_AES_GCM P key iv encoded in
  let result := (iv ++ encrypted)%list in
  inr (btoa P (binary_string result)).

Definition decrypt (generatedKey : CryptoKey)
  (encryptedData : string) (privateKey : KeyInput) : Result string :=
  let key := match privateKey with
             | KeyObject k => k
             | RawBytes _ => generatedKey
             end in
  let? binary := atob P encryptedData in
  let data := char_codes binary in
  let iv := slice data 0 12 in
  let encrypted := slice_from data 12 in
  let? decrypted := decrypt_AES_GCM P key iv encrypted in
  inr (TextDecoder_decode P decrypted).

End Provider.
End MLKEMProvider.

(** ** The envelope codec (shared/cryptoUtils.ts) *)

Module CryptoUtils.
Section Codec.
Variable P : Platform.

Definition bufferToBase64 (buffer : bytes) : string :=
  btoa P (binary_string buffer).

Definition base64ToBuffer (base64 : string) : Result bytes :=
  let? binary := atob P base64 in
  inr (char_codes binary).

(** [encryptMessage]; [ephemeralKeyPair] is what [generateKeyPair()] returned
    for this message and [iv] the drawn initialisation vector. *)
Definition encryptMessage (ephemeralKeyPair : CryptoKeyPair) (iv : bytes)
  (message : string) (recipientPublicKey : CryptoKey) : Result string :=
  let? sharedSecret :=
    deriveKey_ECDH_AES_GCM P recipientPublicKey (privateKey ephemeralKeyPair)
      [encrypt_usage] in
  let messageBuffer := TextEncoder_encode P message in
  let? encryptedBuffer := encrypt_AES_GCM P sharedSecret iv messageBuffer in
  let? ephemeralPublicKeyBuffer := exportKey_spki P (publicKey ephemeralKeyPair) in
  let combined := (ephemeralPublicKeyBuffer ++ iv ++ encryptedBuffer)%list in
  inr (bufferToBase64 combined).

Definition decryptMessage (encryptedMessage : string) (privateKey : CryptoKey)
  : Result string :=
  let? combined := base64ToBuffer encryptedMessage in
  let ephemeralPublicKeyBuffer := slice combined 0 91 in
  let iv := slice combined 91 103 in
  let encryptedBuffer := slice_from combined 103 in
  let? ephemeralPublicKey := importKey_spki_ECDH P ephemeralPublicKeyBuffer in
  let? sharedSecret :=
    deriveKey_ECDH_AES_GCM P ephemeralPublicKey privateKey [decrypt_usage] in
  let? decryptedBuffer := decrypt_AES_GCM P sharedSecret iv encryptedBuffer in
  inr (TextDecoder_decode P decryptedBuffer).

End Codec.
End CryptoUtils.

(** ** The security monitor (security/monitoring/security-monitor.ts) *)

Module SecurityMonitorService.

(** [recommendAlgorithm].  [threatLevel] is the value
    [await this.assessQuantumThreat()] gives: [calculateThreatScore] returns
    [Math.round] of a clamped score, an integer.  The method reads nothing
    else: no configuration reaches it. *)
Definition recommendAlgorithm (threatLevel : Z) : CryptoAlgorithmType :=
  if (threatLevel >=? 90)%Z then ML_KEM_1024
  else if (threatLevel >=? 70)%Z then ML_KEM_768
  else if (threatLevel >=? 50)%Z then Hybrid_RSA_ML_KEM
  else if (threatLevel >=? 25)%Z then ML_KEM_512
  else RSA_OAEP.

(** The recommendation in the words of the specification's threshold table,
    for comparison: at scores from 50 up to 69 it is the hybrid algorithm when
    hybrid mode is enabled and the standard post-quantum algorithm otherwise. *)
Definition specified_recommendation (hybridEnabled : bool) (score : Z)
  : CryptoAlgorithmType :=
  if (score >=? 90)%Z then ML_KEM_1024
  else if (score >=? 70)%Z then ML_KEM_768
  else if (score >=? 50)%Z then (if hybridEnabled then Hybrid_RSA_ML_KEM else ML_KEM_768)
  else if (score >=? 25)%Z then ML_KEM_512
  else RSA_OAEP.

End SecurityMonitorService.

(** ** The provider factory (crypto/core/factory) *)

Module CryptoProviderFactory.

(** The objects [instantiateProvider] constructs. *)
Inductive CryptoProvider :=
| RSAProvider_instance
| MLKEMProvider_instance (variant : MLKEMProvider.Variant)
| DilithiumProvider_instance
| HybridCryptoProvider_instance.

(** The factory's fields of [interface CryptoConfig]; all are optional. *)
Record CryptoConfig := {
  preferredAlgorithm : option CryptoAlgorithmType;
  fallbackAlgorithms : option (list CryptoAlgorithmType);
  keyRotationInterval : option Z;
  enableHybridMode : option bool;
  quantumThresholdScore : option Z;
  nistComplianceRequired : option bool
}.

Definition getDefaultConfig : CryptoConfig :=
  {| preferredAlgorithm := Some Hybrid_RSA_ML_KEM;
     fallbackAlgorithms := Some [RSA_OAEP; ML_KEM_768];
     keyRotationInterval := Some 24%Z;
     enableHybridMode := Some true;
     quantumThresholdScore := Some 75%Z;
     nistComplianceRequired := Some true |}.

(** The modules [instantiateProvider] imports dynamically. *)
Inductive ModulePath :=
| classical_rsa_provider | pqc_ml_kem_provider
| pqc_dilithium_provider | hybrid_hybrid_provider.

(** [await import(path)]: [None] when the module loads, the rejection
    otherwise. *)
Definition Loader := ModulePath -> option JsError.

(** The factory's [config] and [cache], and the history of the calls of
    [instantiateProvider] (oldest first). *)
Record State := {
  config : CryptoConfig;
  cache : JsMap.t CryptoAlgorithmType CryptoProvider;
  instantiations : list CryptoAlgorithmType
}.

Definition initial : State :=
  {| config := getDefaultConfig;
     cache := JsMap.empty CryptoAlgorithmType CryptoProvider;
     instantiations := [] |}.

Section Factory.
Variable import : Loader.

Definition import_then (path : ModulePath) (provider : CryptoProvider)
  : Result CryptoProvider :=
  match import path with
  | None => inr provider
  | Some rejection => inl rejection
  end.

(** [private instantiateProvider]: the provider, or what it throws. *)
Definition instantiateProvider (algorithm : CryptoAlgorithmType)
  : Result CryptoProvider :=
  match algorithm with
  | RSA_OAEP => import_then classical_rsa_provider RSAProvider_instance
  | ML_KEM_512 =>
      import_then pqc_ml_kem_provider
        (MLKEMProvider_instance MLKEMProvider.ML_KEM_512_variant)
  | ML_KEM_768 =>
      import_then pqc_ml_kem_provider
        (MLKEMProvider_instance MLKEMProvider.ML_KEM_768_variant)
  | ML_KEM_1024 =>
      import_then pqc_ml_kem_provider
        (MLKEMProvider_instance MLKEMProvider.ML_KEM_1024_variant)
  | CRYSTALS_Dilithium =>
      import_then pqc_dilithium_provider DilithiumProvider_instance
  | Hybrid_RSA_ML_KEM | Hybrid_ECDH_ML_KEM =>
      import_then hybrid_hybrid_provider HybridCryptoProvider_instance
  | _ => inl (CryptoError ("Unsupported algorithm: " ++ algorithm_name algorithm)
                ALGORITHM_NOT_SUPPORTED (Some algorithm))
  end.

(** A call of [this.instantiateProvider(algorithm)], entered in the history. *)
Definition call_instantiateProvider (algorithm : CryptoAlgorithmType) (s : State)
  : Result CryptoProvider * State :=
  (instantiateProvider algorithm,
   {| config := config s; cache := cache s;
      instantiations := (instantiations s ++ [algorithm])%list |}).

Definition cache_set (s : State) (algorithm : CryptoAlgorithmType)
  (provider : CryptoProvider) : State :=
  {| config := config s;
     cache := JsMap.set algorithm_eqb (cache s) algorithm provider;
     instantiations := instantiations s |}.

(** The [for (const fallback of fallbacks)] loop and the [throw] after it. *)
Fixpoint createProvider_fallbacks (fallbacks : list CryptoAlgorithmType) (s : State)
  : Result CryptoProvider * State :=
  match fallbacks with
  | [] => (inl (CryptoError "Unable to create crypto provider. All algorithms failed."
                  ALGORITHM_NOT_SUPPORTED None), s)
  | fallback :: rest =>
      match call_instantiateProvider fallback s with
      | (inr provider, s1) => (inr provider, cache_set s1 fallback provider)
      | (inl _, s1) => createProvider_fallbacks rest s1
      end
  end.

Definition selectedAlgorithm (algorithm : option CryptoAlgorithmType) (s : State)
  : CryptoAlgorithmType :=
  match algorithm with
  | Some a => a
  | None => match preferredAlgorithm (config s) with
            | Some a => a
            | None => RSA_OAEP
            end
  end.

Definition fallbacks_of (s : State) : list CryptoAlgorithmType :=
  match fallbackAlgorithms (config s) with
  | Some l => l
  | None => [RSA_OAEP]
  end.

Definition createProvider (algorithm : option CryptoAlgorithmType) (s : State)
  : Result CryptoProvider * State :=
  let selectedAlgorithm := selectedAlgorithm algorithm s in
  match JsMap.get algorithm_eqb (cache s) selectedAlgorithm with
  | Some cached => (inr cached, s)
  | None =>
      match call_instantiateProvider selectedAlgorithm s with
      | (inr provider, s1) => (inr provider, cache_set s1 selectedAlgorithm provider)
      | (inl _, s1) => createProvider_fallbacks (fallbacks_of s1) s1
      end
  end.

End Factory.

(** [updateConfig(newConfig)]: the spread keeps a field of the old
    configuration where the patch has none, and the cache is cleared. *)
Definition merge (A : Type) (old new : option A) : option A :=
  match new with Some _ => new | None => old end.

Definition updateConfig (newConfig : CryptoConfig) (s : State) : State :=
  {| config :=
       {| preferredAlgorithm :=
            merge (preferredAlgorithm (config s)) (preferredAlgorithm newConfig);
          fallbackAlgorithms :=
            merge (fallbackAlgorithms (config s)) (fallbackAlgorithms newConfig);
          keyRotationInterval :=
            merge (keyRotationInterval (config s)) (keyRotationInterval newConfig);
          enableHybridMode :=
            merge (enableHybridMode (config s)) (enableHybridMode newConfig);
          quantumThresholdScore :=
            merge (quantumThresholdScore (config s)) (quantumThresholdScore newConfig);
          nistComplianceRequired :=
            merge (nistComplianceRequired (config s)) (nistComplianceRequired newConfig) |};
     cache := JsMap.empty CryptoAlgorithmType CryptoProvider;
     instantiations := instantiations s |}.

End CryptoProviderFactory.

(** ** Sample runtimes, for concrete runs *)

Module Sample.
Import KeyManagementService.

Definition rsa_key (t : KeyType) (n : nat) : CryptoKey :=
  {| key_type := t; key_extractable := true;
     key_algorithm := RsaHashedKeyAlgorithm 2048 SHA_256;
     key_usages := match t with public => [encrypt_usage] | _ => [decrypt_usage] end;
     key_material := repeat x2a (S n) |}.

(** A clock that advances by a millisecond per read, a random source that
    always gives 1/2 (["0.i"] in base 36), and a key generator whose fifth call
    is rejected. *)
Definition env : Environment :=
  {| Date_now := fun n => (1700000000000 + Z.of_nat n)%Z;
     Math_random := fun _ => 1 # 2;
     Number_toString36 := fun _ => "0.i";
     subtle_generateKey := fun n =>
       if Nat.eqb n 4
       then inl (DOMException "OperationError" "The operation failed")
       else inr {| publicKey := rsa_key public n; privateKey := rsa_key private n |} |}.

(** One key generated. *)
Definition one_key : State := run env (GenerateKey RSA_OAEP) initial.
Definition first_id : string := "key_1700000000000_i".

(** One key generated and then revoked. *)
Definition one_revoked : State := run env (RevokeKey first_id) one_key.

(** Three keys generated. *)
Definition three_keys : State :=
  run_all env [GenerateKey RSA_OAEP; GenerateKey RSA_OAEP; GenerateKey RSA_OAEP] initial.

End Sample.



(** ** Notions used in the statements about the key manager *)

Module KeyManagementProperties.
Import KeyManagementService.

(** The service's own fields are untouched (the positions in the
    environment's answers may have moved). *)
Definition same_service (s s' : State) : Prop :=
  keys s' = keys s /\ keyStore s' = keyStore s /\
  rotationPolicies s' = rotationPolicies s /\ emitted s' = emitted s.

(** The fields of a key record that no assignment in the class targets. *)
Definition same_identity (m m' : KeyMetadata) : Prop :=
  metadata_id m' = metadata_id m /\ algorithm m' = algorithm m /\
  created m' = created m /\ expiresAt m' = expiresAt m /\
  isQuantumSafe m' = isQuantumSafe m /\ securityLevel m' = securityLevel m /\
  usage m' = usage m.

(** The lifecycle of the specification: the statuses reachable from a status
    along active -> rotating -> revoked and active -> expired (staying put
    included). *)
Definition lifecycle_allows (before after : KeyStatus) : bool :=
  match before, after with
  | active, _ => true
  | rotating, rotating | rotating, revoked => true
  | revoked, revoked => true
  | expired, expired => true
  | _, _ => false
  end.

(** What the assignments of the class can do to a status: leave it, or write
    ['rotating'] or ['revoked']. *)
Definition status_moved (before after : KeyStatus) : Prop :=
  after = before \/ after = rotating \/ after = revoked.

(** The record that key [k] had as [before] is still in the table [t], with
    its identity and a status the class can have written. *)
Definition record_kept (k : string) (before : KeyMetadata)
  (t : JsMap.t string KeyMetadata) : Prop :=
  exists now, JsMap.get String.eqb t k = Some now /\
              same_identity before now /\
              status_moved (status before) (status now).

(** Every record of the table is for RSA-OAEP. *)
Definition all_RSA_OAEP (t : JsMap.t string KeyMetadata) : Prop :=
  forall k md, JsMap.get String.eqb t k = Some md -> algorithm md = RSA_OAEP.

(** The identifier has no entry in the key table nor in the key store. *)
Definition unused_id (s : State) (id : string) : Prop :=
  JsMap.get String.eqb (keys s) id = None /\
  JsMap.get String.eqb (keyStore s) id = None /\
  JsMap.get String.eqb (keyStore s) (id ++ "_pub") = None.

(** The identifiers an operation hands out as new. *)
Definition new_ids (env : Environment) (op : Operation) (s : State) : list string :=
  match op with
  | GenerateKey a =>
      match fst (generateKey env a s) with inr id => [id] | inl _ => [] end
  | RotateKey k =>
      match fst (rotateKey env k s) with inr id => [id] | inl _ => [] end
  | PerformScheduledRotations =>
      match fst (performScheduledRotations env s) with
      | inr r => rotated r
      | inl _ => []
      end
  | _ => []
  end.

(** The identifiers handed out as new were not in the key table. *)
Definition fresh_for (env : Environment) (op : Operation) (s : State) : Prop :=
  forall id, In id (new_ids env op s) -> JsMap.get String.eqb (keys s) id = None.

Fixpoint fresh_run (env : Environment) (ops : list Operation) (s : State) : Prop :=
  match ops with
  | [] => True
  | op :: rest => fresh_for env op s /\ fresh_run env rest (run env op s)
  end.

(** [rotateKey] on each key of a list in turn, with the outcome per key. *)
Fixpoint rotate_each (env : Environment) (keyIds : list string) (s : State)
  : list (string * (JsError + string)) * State :=
  match keyIds with
  | [] => ([], s)
  | keyId :: rest =>
      let (outcome, s1) := rotateKey env keyId s in
      let (outcomes, s2) := rotate_each env rest s1 in
      ((keyId, outcome) :: outcomes, s2)
  end.

Definition rotated_of (outcomes : list (string * (JsError + string))) : list string :=
  flat_map (fun o => match snd o with inr id => [id] | inl _ => [] end) outcomes.

Definition failed_of (outcomes : list (string * (JsError + string)))
  : list RotationFailure :=
  flat_map (fun o => match snd o with
                     | inl e => [{| failed_keyId := fst o;
                                    failed_error := error_message e |}]
                     | inr _ => []
                     end) outcomes.

End KeyManagementProperties.

(** ** Notions used in the statements about the factory *)

(** [instantiateProvider] throws for the algorithm. *)
Definition instantiation_fails (import : CryptoProviderFactory.Loader)
  (a : CryptoAlgorithmType) : Prop :=
  exists e, CryptoProviderFactory.instantiateProvider import a = inl e.

(** ** A toy platform, for concrete runs

    The primitives are stand-ins with the shape of the real ones: the "AES-GCM"
    ciphertext is the plaintext followed by a 16-byte tag made of key and
    nonce, checked on decryption; "ECDH" keys carry 91 bytes, a pair shares
    them, and the derived key is the bytewise exclusive or of the two sides;
    "RSAES-OAEP" prefixes the message with the key's bytes; an encoded RSA key
    is a byte 1 (public) or 2 (private) followed by the key's bytes; base64 is
    the identity. *)

Module Toy.

Definition bytes_eqb (a b : bytes) : bool :=
  String.eqb (string_of_list_byte a) (string_of_list_byte b).

Definition byte_xor (a b : byte) : byte :=
  match Byte.of_N (N.lxor (Byte.to_N a) (Byte.to_N b)) with
  | Some c => c
  | None => x00
  end.

Fixpoint xor_bytes (a b : bytes) : bytes :=
  match a, b with
  | x :: a', y :: b' => byte_xor x y :: xor_bytes a' b'
  | _, _ => []
  end.

Definition operation_error : JsError :=
  DOMException "OperationError" "The operation failed".

Definition tag (key : CryptoKey) (iv : bytes) : bytes :=
  firstn 16 (key_material key ++ iv ++ repeat x00 16)%list.

Definition toy_encrypt_AES_GCM (key : CryptoKey) (iv data : bytes) : Result bytes :=
  if existsb (usage_eqb encrypt_usage) (key_usages key)
  then inr (data ++ tag key iv)%list
  else inl (DOMException "InvalidAccessError" "key.usages does not permit this operation").

Definition toy_decrypt_AES_GCM (key : CryptoKey) (iv data : bytes) : Result bytes :=
  if existsb (usage_eqb decrypt_usage) (key_usages key)
  then
    let n := (List.length data - 16)%nat in
    if (16 <=? List.length data)%nat && bytes_eqb (skipn n data) (tag key iv)
    then inr (firstn n data)
    else inl operation_error
  else inl (DOMException "InvalidAccessError" "key.usages does not permit this operation").

Definition aes_key (material : bytes) (usages : list KeyUsage) : CryptoKey :=
  {| key_type := secret; key_extractable := false;
     key_algorithm := AesKeyAlgorithm 256; key_usages := usages;
     key_material := material |}.

Definition ec_key (t : KeyType) (material : bytes) : CryptoKey :=
  {| key_type := t; key_extractable := true; key_algorithm := EcKeyAlgorithm_P256;
     key_usages := match t with
                   | private => [deriveKey_usage; deriveBits_usage]
                   | _ => []
                   end;
     key_material := material |}.

Definition rsa_key (t : KeyType) (material : bytes) : CryptoKey :=
  {| key_type := t; key_extractable := true;
     key_algorithm := RsaHashedKeyAlgorithm 2048 SHA_256;
     key_usages := match t with public => [encrypt_usage] | _ => [decrypt_usage] end;
     key_material := material |}.

Definition toy_RSAES_OAEP_decrypt (key : CryptoKey) (data : bytes) : Result bytes :=
  let n := List.length (key_material key) in
  if bytes_eqb (firstn n data) (key_material key)
  then inr (skipn n data)
  else inl operation_error.

Definition platform : Platform :=
  {| TextEncoder_encode := list_byte_of_string;
     TextDecoder_decode := string_of_list_byte;
     btoa := fun s => s;
     atob := fun s => inr s;
     digest_SHA_256 := fun b => firstn 32 (b ++ repeat x00 32)%list;
     RSAES_OAEP_encrypt := fun key data => (key_material key ++ data)%list;
     RSAES_OAEP_decrypt := toy_RSAES_OAEP_decrypt;
     importKey_spki_RSA_OAEP := fun b =>
       match b with
       | x01 :: material => inr (rsa_key public material)
       | _ => inl (DOMException "DataError" "not a public key")
       end;
     importKey_pkcs8_RSA_OAEP := fun b =>
       match b with
       | x02 :: material => inr (rsa_key private material)
       | _ => inl (DOMException "DataError" "not a private key")
       end;
     importKey_spki_ECDH := fun b => inr (ec_key public b);
     exportKey_spki := fun key => inr (key_material key);
     deriveKey_ECDH_AES_GCM := fun pub priv usages =>
       inr (aes_key (xor_bytes (key_material pub) (key_material priv)) usages);
     encrypt_AES_GCM := toy_encrypt_AES_GCM;
     decrypt_AES_GCM := toy_decrypt_AES_GCM |}.

Definition ec_pair (b : byte) : CryptoKeyPair :=
  {| publicKey := ec_key public (repeat b 91);
     privateKey := ec_key private (repeat b 91) |}.

Definition rsa_pair (b : byte) : CryptoKeyPair :=
  {| publicKey := rsa_key public (repeat b 8);
     privateKey := rsa_key private (repeat b 8) |}.

(** Two keys as two calls of [generateKeys()] would give them. *)
Definition generated_1 : CryptoKey :=
  aes_key (repeat x11 32) [encrypt_usage; decrypt_usage].
Definition generated_2 : CryptoKey :=
  aes_key (repeat x22 32) [encrypt_usage; decrypt_usage].

Definition nonce : bytes := repeat x07 12.

(** A message of 191 bytes. *)
Definition long_message : string := string_of_list_byte (repeat x61 191).

(** A loader for which every module loads, and one without the hybrid
    provider. *)
Definition loads_all : CryptoProviderFactory.Loader := fun _ => None.

Definition hybrid_missing : CryptoProviderFactory.Loader :=
  fun path =>
    match path with
    | CryptoProviderFactory.hybrid_hybrid_provider =>
        Some (Error "Failed to fetch dynamically imported module")
    | _ => None
    end.

(** A factory configured with preferred ECDH and the fallbacks SPHINCS+ and
    RSA-OAEP: the first two have no provider. *)
Definition factory : CryptoProviderFactory.State :=
  CryptoProviderFactory.updateConfig
    {| CryptoProviderFactory.preferredAlgorithm := Some ECDH;
       CryptoProviderFactory.fallbackAlgorithms := Some [SPHINCS_plus; RSA_OAEP];
       CryptoProviderFactory.keyRotationInterval := None;
       CryptoProviderFactory.enableHybridMode := None;
       CryptoProviderFactory.quantumThresholdScore := None;
       CryptoProviderFactory.nistComplianceRequired := None |}
    CryptoProviderFactory.initial.

End Toy.

From Stdlib Require Import Sorted Permutation.

(** ** The key manager's queries (security/key-mgmt/key-manager.ts) *)

Module KeyManagementQueries.
Import KeyManagementService.

(** The optional [filter] argument of [listKeys]. *)
Record KeyFilter := {
  filter_algorithm : option CryptoAlgorithmType;
  filter_status : option KeyStatus;
  filter_isQuantumSafe : option bool
}.

(** [Array.prototype.sort(compare)] for a consistent comparator: the sort is
    stable, so the result is the one insertion in arrival order gives, an
    element going before the first one it compares strictly below. *)
Fixpoint sort_insert (A : Type) (compare : A -> A -> Z) (x : A) (l : list A) : list A :=
  match l with
  | [] => [x]
  | y :: r => if (compare x y <? 0)%Z then x :: y :: r
              else y :: sort_insert compare x r
  end.

Definition Array_sort (A : Type) (compare : A -> A -> Z) (l : list A) : list A :=
  fold_left (fun sorted x => sort_insert compare x sorted) l [].

(** [(a, b) => b.created.getTime() - a.created.getTime()] *)
Definition newest_first (a b : KeyMetadata) : Z := (created b - created a)%Z.

Definition listKeys (filter : option KeyFilter) (s : State) : list KeyMetadata :=
  let keys := JsMap.values (keys s) in
  let keys :=
    match filter with
    | Some filter =>
        let keys := match filter_algorithm filter with
                    | Some a => List.filter (fun k => algorithm_eqb (algorithm k) a) keys
                    | None => keys
                    end in
        let keys := match filter_status filter with
                    | Some st => List.filter (fun k => status_eqb (status k) st) keys
                    | None => keys
                    end in
        match filter_isQuantumSafe filter with
        | Some q => List.filter (fun k => Bool.eqb (isQuantumSafe k) q) keys
        | None => keys
        end
    | None => keys
    end in
  Array_sort newest_first keys.

(** A record passes the filter: the conjunction of the tests [listKeys]
    applies one after the other. *)
Definition matches (filter : option KeyFilter) (k : KeyMetadata) : bool :=
  match filter with
  | None => true
  | Some f =>
      match filter_algorithm f with
      | Some a => algorithm_eqb (algorithm k) a
      | None => true
      end
      && match filter_status f with
         | Some st => status_eqb (status k) st
         | None => true
         end
      && match filter_isQuantumSafe f with
         | Some q => Bool.eqb (isQuantumSafe k) q
         | None => true
         end
  end.

(** The order of [listKeys]: [a] may come before [b]. *)
Definition not_older (a b : KeyMetadata) : Prop := (created b <= created a)%Z.

(** The object [getKeyHealthReport] returns. *)
Record KeyHealthReport := {
  report_total : nat;
  report_active : nat;
  report_quantumSafe : nat;
  report_quantumVulnerable : nat;
  report_expiringSoon : nat;
  report_needRotation : nat
}.

Definition count (A : Type) (p : A -> bool) (l : list A) : nat :=
  List.length (List.filter p l).

Definition is_active (k : KeyMetadata) : bool := status_eqb (status k) active.

Definition getKeyHealthReport (env : Environment) : M KeyHealthReport :=
  keys <- gets (fun s => JsMap.values (keys s)) ;;
  now <- DateNow env ;;
  let soonThreshold := (7 * 24 * 60 * 60 * 1000)%Z in
  ret {| report_total := List.length keys;
         report_active := count is_active keys;
         report_quantumSafe := count isQuantumSafe keys;
         report_quantumVulnerable :=
           count (fun k => negb (isQuantumSafe k) && is_active k) keys;
         report_expiringSoon :=
           count (fun k => match expiresAt k with
                           | Some e => is_active k && (e - now <? soonThreshold)%Z
                           | None => false
                           end) keys;
         report_needRotation :=
           count (fun k => is_active k &&
                           match expiresAt k with
                           | Some e => (now >? e)%Z
                           | None => false
                           end) keys |}.

End KeyManagementQueries.

(** ** The key manager's listeners

    [addEventListener], [removeEventListener] and [private emitEvent] with
    the listener array itself.  A listener is a function object with an
    identity.  While it runs it may call [addEventListener] and
    [removeEventListener] on the service, and it returns or throws; the loop
    of [emitEvent] walks the array the listeners are changing.  The state
    records which listener was called with which event, and what
    [console.error] got. *)

Module KeyEventListeners.
Import KeyManagementService.

(** A function object, named by a number: equal numbers, the same object. *)
Definition Listener := nat.

(** A call a listener makes on the service's listener array. *)
Inductive Registration :=
| Add (listener : Listener)
| Remove (listener : Listener).

(** One call of a listener: the registrations it made, in order, and the
    value it threw, if it threw. *)
Record Outcome := {
  registrations : list Registration;
  thrown : option JsError
}.

(** The listeners' code: what the call of a listener with an event does when
    n calls of listeners were made before it. *)
Definition Code := Listener -> nat -> KeyLifecycleEvent -> Outcome.

Record State := {
  eventListeners : list Listener;
  calls : list (Listener * KeyLifecycleEvent);
  console_error : list JsError
}.

Definition addEventListener (listener : Listener) (s : State) : State :=
  {| eventListeners := (eventListeners s ++ [listener])%list;
     calls := calls s; console_error := console_error s |}.

(** [Array.prototype.indexOf]: the first index holding the same object. *)
Fixpoint indexOf (l : list Listener) (listener : Listener) : option nat :=
  match l with
  | [] => None
  | x :: r => if Nat.eqb x listener then Some 0%nat
              else option_map S (indexOf r listener)
  end.

(** [splice(index, 1)] *)
Definition splice_one (A : Type) (l : list A) (index : nat) : list A :=
  (firstn index l ++ skipn (S index) l)%list.

Definition removeEventListener (listener : Listener) (s : State) : State :=
  match indexOf (eventListeners s) listener with
  | Some index =>
      {| eventListeners := splice_one (eventListeners s) index;
         calls := calls s; console_error := console_error s |}
  | None => s
  end.

Definition register (r : Registration) (s : State) : State :=
  match r with
  | Add listener => addEventListener listener s
  | Remove listener => removeEventListener listener s
  end.

(** [listener(event)] inside the [try]: the call is made, the listener's
    registrations take effect, and what it throws goes to [console.error]. *)
Definition call_listener (code : Code) (listener : Listener)
  (event : KeyLifecycleEvent) (s : State) : State :=
  let outcome := code listener (List.length (calls s)) event in
  let called :=
    {| eventListeners := eventListeners s;
       calls := (calls s ++ [(listener, event)])%list;
       console_error := console_error s |} in
  let registered := fold_left (fun st r => register r st) (registrations outcome) called in
  match thrown outcome with
  | None => registered
  | Some error =>
      {| eventListeners := eventListeners registered;
         calls := calls registered;
         console_error := (console_error registered ++ [error])%list |}
  end.

(** The [for (const listener of this.eventListeners)] loop.  The array
    iterator keeps an index into the array itself: each round reads the
    length and the element at the index as they are then, so what the
    listeners registered or removed meanwhile counts.  Listeners that keep
    registering listeners keep the loop going: [None] when the rounds given
    do not reach the end of the array. *)
Fixpoint emitEvent_loop (code : Code) (rounds index : nat)
  (event : KeyLifecycleEvent) (s : State) : option State :=
  match rounds with
  | O => None
  | S rounds =>
      match nth_error (eventListeners s) index with
      | None => Some s
      | Some listener =>
          emitEvent_loop code rounds (S index) event
            (call_listener code listener event s)
      end
  end.

Definition emitEvent (code : Code) (rounds : nat) (event : KeyLifecycleEvent)
  (s : State) : option State :=
  emitEvent_loop code rounds 0 event s.

End KeyEventListeners.

(** Listeners for concrete runs. *)
Module SampleListeners.
Import KeyManagementService KeyEventListeners.

Definition event : KeyLifecycleEvent :=
  {| keyId := Sample.first_id; type := ev_created; timestamp := 1700000000003%Z;
     event_algorithm := RSA_OAEP; details := "Key generated with RSA-OAEP";
     previousKeyId := None |}.

(** Listener 2 throws on every call; no listener registers anything. *)
Definition throwing : Code :=
  fun listener _ _ =>
    {| registrations := [];
       thrown := if Nat.eqb listener 2 then Some (Error "listener failed")
                 else None |}.

(** Listener 2 unregisters itself when it is called. *)
Definition once : Code :=
  fun listener _ _ =>
    {| registrations := if Nat.eqb listener 2 then [Remove 2%nat] else [];
       thrown := None |}.

Definition registered (listeners : list Listener) : State :=
  {| eventListeners := listeners; calls := []; console_error := [] |}.

End SampleListeners.

(** ** Further notions about the key table *)

Module KeyTable.
Import KeyManagementService.

(** The assignments the class makes to a record of the table. *)
Inductive RecordWrite :=
| WriteStatus (st : KeyStatus)
| WriteRotatedAt (d : Z)
| WriteLastUsed (d : Z).

Definition write (w : RecordWrite) (m : KeyMetadata) : KeyMetadata :=
  match w with
  | WriteStatus st => with_status m st
  | WriteRotatedAt d => with_rotatedAt m d
  | WriteLastUsed d => with_lastUsed m d
  end.

(** A record as [generateKey] builds it, for the only algorithm it accepts. *)
Definition new_record (id : string) (md : KeyMetadata) : Prop :=
  metadata_id md = id /\ algorithm md = RSA_OAEP /\ status md = active /\
  lastUsed md = None /\ rotatedAt md = None /\
  isQuantumSafe md = false /\ securityLevel md = low /\ usage md = encryption.

(** One change of the key table: an assignment to a record it holds, to
    ['rotating'] or ['revoked'] when it is to the status, or a [set] of a new
    record. *)
Inductive table_step : JsMap.t string KeyMetadata -> JsMap.t string KeyMetadata -> Prop :=
| step_write : forall t k m w,
    JsMap.get String.eqb t k = Some m ->
    (forall st, w = WriteStatus st -> st = rotating \/ st = revoked) ->
    table_step t (JsMap.set String.eqb t k (write w m))
| step_new : forall t id md,
    new_record id md ->
    table_step t (JsMap.set String.eqb t id md).

Inductive table_steps : JsMap.t string KeyMetadata -> JsMap.t string KeyMetadata -> Prop :=
| steps_none : forall t, table_steps t t
| steps_more : forall t1 t2 t3,
    table_step t1 t2 -> table_steps t2 t3 -> table_steps t1 t3.

(** A key table as the service builds it: unique ids, each record under its
    own id and with the derived fields of an RSA-OAEP key. *)
Definition well_formed (t : JsMap.t string KeyMetadata) : Prop :=
  NoDup (JsMap.keys t) /\
  forall k md, In (k, md) (JsMap.entries t) ->
    metadata_id md = k /\ algorithm md = RSA_OAEP /\ isQuantumSafe md = false /\
    securityLevel md = low /\ usage md = encryption /\ status md <> expired.

End KeyTable.

Module Sample2.
Import KeyManagementService.

(** Four keys generated: the next key generation is the one the sample
    platform rejects. *)
Definition four_keys : State :=
  run_all Sample.env
    [GenerateKey RSA_OAEP; GenerateKey RSA_OAEP; GenerateKey RSA_OAEP;
     GenerateKey RSA_OAEP] initial.

End Sample2.

(** ** The factory's lookups and migration (crypto/core) *)

Module CryptoProviderFactoryLookups.
Import CryptoProviderFactory.

(** [list.includes(algorithm)] *)
Definition includes_algorithm (l : list CryptoAlgorithmType)
  (algorithm : CryptoAlgorithmType) : bool :=
  existsb (fun a => algorithm_eqb a algorithm) l.

Definition isQuantumSafe (algorithm : CryptoAlgorithmType) : bool :=
  includes_algorithm
    [ML_KEM_512; ML_KEM_768; ML_KEM_1024; CRYSTALS_Dilithium; SPHINCS_plus;
     Hybrid_RSA_ML_KEM; Hybrid_ECDH_ML_KEM] algorithm.

Definition getSecurityLevel (algorithm : CryptoAlgorithmType) : SecurityLevel :=
  match algorithm with
  | RSA_OAEP => quantum_vulnerable
  | ECDH => quantum_vulnerable
  | ML_KEM_512 => quantum_safe
  | ML_KEM_768 => quantum_safe
  | ML_KEM_1024 => quantum_safe
  | CRYSTALS_Dilithium => quantum_safe
  | SPHINCS_plus => quantum_safe
  | Hybrid_RSA_ML_KEM => hybrid
  | Hybrid_ECDH_ML_KEM => hybrid
  | Hybrid_RSAOAEP_MLKEM512 => hybrid
  | Hybrid_RSAOAEP_MLKEM1024 => hybrid
  end.

Definition isNISTApproved (algorithm : CryptoAlgorithmType) : bool :=
  includes_algorithm
    [ML_KEM_512; ML_KEM_768; ML_KEM_1024; CRYSTALS_Dilithium; SPHINCS_plus] algorithm.

Definition level_eqb (a b : SecurityLevel) : bool :=
  match a, b with
  | quantum_vulnerable, quantum_vulnerable | quantum_resistant, quantum_resistant
  | quantum_safe, quantum_safe | hybrid, hybrid | low, low | medium, medium
  | high, high | maximum, maximum => true
  | _, _ => false
  end.

(** [getRecommendedAlgorithm]; [random] is what [Math.random()] returned.  A
    threshold of 0 is falsy, like a missing one, and gives 50; a missing
    [enableHybridMode] is falsy.  Numbers are taken as rationals. *)
Definition getRecommendedAlgorithm (random : Q) (s : State) : CryptoAlgorithmType :=
  let threatLevel := Qplus (inject_Z 60) (Qmult random (inject_Z 30)) in
  let threshold := match quantumThresholdScore (config s) with
                   | Some t => if (t =? 0)%Z then 50%Z else t
                   | None => 50%Z
                   end in
  let enableHybridMode := match enableHybridMode (config s) with
                          | Some b => b
                          | None => false
                          end in
  if Qle_bool (inject_Z threshold) threatLevel then ML_KEM_768
  else if Qle_bool (inject_Z 50) threatLevel
       then (if enableHybridMode then Hybrid_RSA_ML_KEM else ML_KEM_768)
       else (if enableHybridMode then Hybrid_RSA_ML_KEM else RSA_OAEP).

Record Migration := {
  oldProvider : CryptoProvider;
  newProvider : CryptoProvider;
  migrationPlan : list string
}.

Definition migrateFromAlgorithm (import : Loader)
  (from to : CryptoAlgorithmType) (s : State) : Result Migration * State :=
  match createProvider import (Some from) s with
  | (inl e, s1) => (inl e, s1)
  | (inr oldProvider, s1) =>
      match createProvider import (Some to) s1 with
      | (inl e, s2) => (inl e, s2)
      | (inr newProvider, s2) =>
          let migrationPlan :=
            [ "1. Generate new " ++ algorithm_name to ++ " key pair";
              "2. Re-encrypt existing messages with " ++ algorithm_name to;
              "3. Share new public key with contacts";
              "4. Deprecate " ++ algorithm_name from ++ " keys after grace period" ] in
          let migrationPlan :=
            if level_eqb (getSecurityLevel from) quantum_vulnerable
               && level_eqb (getSecurityLevel to) quantum_safe
            then (migrationPlan ++
                  ["⚠️  Critical: Old messages remain quantum-vulnerable until re-encrypted"])%list
            else migrationPlan in
          (inr {| oldProvider := oldProvider; newProvider := newProvider;
                  migrationPlan := migrationPlan |}, s2)
      end
  end.

Definition clearCache (s : State) : State :=
  {| config := config s;
     cache := JsMap.empty CryptoAlgorithmType CryptoProvider;
     instantiations := instantiations s |}.

End CryptoProviderFactoryLookups.

(** ** The hybrid provider (crypto/hybrid/hybrid-provider) *)

Module HybridCryptoProvider.

Definition algorithm : CryptoAlgorithmType := Hybrid_RSA_ML_KEM.
Definition securityLevel : SecurityLevel := high.
Definition isQuantumSafe : bool := true.

Section Provider.
Variable P : Platform.

(** [error instanceof Error ? error.message : 'Unknown error'] *)
Definition message_of (error : JsError) : string :=
  if instanceof_Error error then error_message error else "Unknown error".

(** [encrypt]; the data is a string or an [ArrayBuffer]. *)
Definition encrypt (data : string + bytes) (publicKey : CryptoKey) : Result string :=
  let plaintext := match data with
                   | inl text => text
                   | inr buffer => TextDecoder_decode P buffer
                   end in
  match RSAProvider.encrypt P plaintext (KeyObject publicKey) with
  | inr ciphertext => inr ciphertext
  | inl error => inl (Error ("Hybrid encryption failed: " ++ message_of error))
  end.

Definition decrypt (encryptedData : string) (privateKey : CryptoKey) : Result string :=
  match RSAProvider.decrypt P encryptedData (KeyObject privateKey) with
  | inr plaintext => inr plaintext
  | inl error => inl (Error ("Hybrid decryption failed: " ++ message_of error))
  end.

End Provider.
End HybridCryptoProvider.

(** ** The post-quantum provider's keys and signatures
    (crypto/pqc/ml-kem-provider) *)

Module MLKEMProviderKeys.
Import MLKEMProvider.

(** [a ^ b] on array elements. *)
Definition xor_byte (a b : byte) : byte :=
  match Byte.of_N (N.lxor (Byte.to_N a) (Byte.to_N b)) with
  | Some c => c
  | None => x00
  end.

(** [array[i] = v]; a write past the end of a typed array is ignored. *)
Definition array_store (a : bytes) (i : nat) (v : byte) : bytes :=
  if (i <? List.length a)%nat
  then (firstn i a ++ v :: skipn (S i) a)%list
  else a.

Record MLKEMKeyPair := {
  pair_publicKey : bytes;
  pair_privateKey : bytes
}.

Section Provider.
Variable P : Platform.
Variable variant : Variant.

(** [generateKeyPair]; [privateKey] is the 32-byte array after
    [crypto.getRandomValues].  [set] throws a [RangeError] (an [Error]) when
    the digest does not fit the public key; a read past the end of an array
    gives [undefined], which [^] takes as 0. *)
Definition generateKeyPair (privateKey : bytes) : Result MLKEMKeyPair :=
  let publicKeyData := zero_bytes (keySize variant) in
  let hashView := digest_SHA_256 P privateKey in
  let privateKeyView := privateKey in
  if (List.length hashView <=? List.length publicKeyData)%nat
  then
    let publicKeyData := typed_array_set publicKeyData hashView 0 in
    let publicKeyData :=
      fold_left
        (fun data i =>
           array_store data i
             (xor_byte (nth (i mod 32) privateKeyView x00)
                       (nth (i mod 32) hashView x00)))
        (seq 32 (keySize variant - 32)) publicKeyData in
    inr {| pair_publicKey := publicKeyData; pair_privateKey := privateKey |}
  else inl (Error "offset is out of bounds").

(** [sign]: the key is not read. *)
Definition sign (data : bytes) (_privateKey : CryptoKey) : bytes :=
  digest_SHA_256 P data.

(** [verify]: the length test, then the comparison loop with its early
    [return false]. *)
Definition verify (data signature : bytes) (_publicKey : CryptoKey) : bool :=
  let hashArray := digest_SHA_256 P data in
  let sigArray := signature in
  if negb (Nat.eqb (List.length hashArray) (List.length sigArray)) then false
  else forallb (fun i => Byte.eqb (nth i hashArray x00) (nth i sigArray x00))
               (seq 0 (List.length hashArray)).

End Provider.
End MLKEMProviderKeys.

(** ** The post-quantum provider's [encrypt] and the engine's limit on
    arguments (crypto/pqc/ml-kem-provider)

    [encrypt] ends with [btoa(String.fromCharCode(...result))]: the spread
    passes one argument per byte of the result.  An engine takes only so many
    arguments in one call and throws a [RangeError] beyond; the limit and the
    error are the engine's.  [MLKEMProvider.encrypt] above is this function
    on an engine that sets no limit. *)

Module MLKEMProviderSpread.
Section Provider.
Variable P : Platform.
Variable maxArguments : nat.
Variable rangeError : JsError.

(** [String.fromCharCode(...array)] *)
Definition String_fromCharCode_spread (array : bytes) : Result string :=
  if (List.length array <=? maxArguments)%nat then inr (binary_string array)
  else inl rangeError.

Definition encrypt (generatedKey : CryptoKey) (iv : bytes)
  (data : string) (publicKey : KeyInput) : Result string :=
  let key := match publicKey with
             | KeyObject k => k
             | RawBytes _ => generatedKey
             end in
  let encoded := TextEncoder_encode P data in
  let? encrypted := encrypt_AES_GCM P key iv encoded in
  let result := (iv ++ encrypted)%list in
  let? binary := String_fromCharCode_spread result in
  inr (btoa P binary).

End Provider.
End MLKEMProviderSpread.

(** ** The security monitor's key event log
    (security/monitoring/security-monitor.ts) *)

Module SecurityMonitorEvents.
Import KeyManagementService.

(** [private keyEvents: Map<string, KeyLifecycleEvent[]>] *)
Definition State := JsMap.t string (list KeyLifecycleEvent).

Definition trackKeyLifecycle (id : string) (s : State) : list KeyLifecycleEvent :=
  match JsMap.get String.eqb s id with
  | Some events => events
  | None => []
  end.

(** [recordKeyEvent]: [push] on the array of the key, or on a new one, then
    [set]. *)
Definition recordKeyEvent (event : KeyLifecycleEvent) (s : State) : State :=
  let events := match JsMap.get String.eqb s (keyId event) with
                | Some events => events
                | None => []
                end in
  JsMap.set String.eqb s (keyId event) (events ++ [event])%list.

End SecurityMonitorEvents.
(* ===================================================================== *)
(** * Part II. Properties                                                 *)
(* ===================================================================== *)

(** ** Facts about [JsMap] *)

Section JsMapFacts.
Variables K V : Type.
Variable eqb : K -> K -> bool.
Hypothesis eqb_spec : forall a b, eqb a b = true <-> a = b.

Lemma eqb_refl_of_spec : forall a, eqb a a = true.
Proof. intros a. apply eqb_spec. reflexivity. Qed.

Lemma eqb_false_of_spec : forall a b, a <> b -> eqb a b = false.
Proof.
  intros a b Hne. destruct (eqb a b) eqn:E; [|reflexivity].
  apply eqb_spec in E. contradiction.
Qed.

Lemma JsMap_get_set_eq : forall (m : JsMap.t K V) k v,
  JsMap.get eqb (JsMap.set eqb m k v) k = Some v.
Proof.
  induction m as [|[k' v'] r IH]; intros k v; simpl.
  - rewrite eqb_refl_of_spec. reflexivity.
  - destruct (eqb k' k) eqn:E; simpl; rewrite E; [reflexivity | apply IH].
Qed.

Lemma JsMap_get_set_neq : forall (m : JsMap.t K V) k k' v,
  k <> k' -> JsMap.get eqb (JsMap.set eqb m k v) k' = JsMap.get eqb m k'.
Proof.
  induction m as [|[k0 v0] r IH]; intros k k' v Hne; simpl.
  - rewrite (eqb_false_of_spec Hne). reflexivity.
  - destruct (eqb k0 k) eqn:E; simpl.
    + apply eqb_spec in E. subst k0.
      rewrite (eqb_false_of_spec Hne). reflexivity.
    + destruct (eqb k0 k'); [reflexivity | apply IH; assumption].
Qed.

Lemma JsMap_get_delete_eq : forall (m : JsMap.t K V) k,
  JsMap.get eqb (JsMap.delete eqb m k) k = None.
Proof.
  induction m as [|[k0 v0] r IH]; intros k; simpl; [reflexivity|].
  destruct (eqb k0 k) eqn:E; simpl; [apply IH | rewrite E; apply IH].
Qed.

Lemma JsMap_get_delete_neq : forall (m : JsMap.t K V) k k',
  k <> k' -> JsMap.get eqb (JsMap.delete eqb m k) k' = JsMap.get eqb m k'.
Proof.
  induction m as [|[k0 v0] r IH]; intros k k' Hne; simpl; [reflexivity|].
  destruct (eqb k0 k) eqn:E; simpl.
  - apply eqb_spec in E. subst k0.
    rewrite (eqb_false_of_spec Hne). apply IH; assumption.
  - destruct (eqb k0 k'); [reflexivity | apply IH; assumption].
Qed.

(** [set] never removes an entry: what was present stays present. *)
Lemma JsMap_get_set_present : forall (m : JsMap.t K V) k v k',
  JsMap.get eqb m k' <> None -> JsMap.get eqb (JsMap.set eqb m k v) k' <> None.
Proof.
  induction m as [|[k0 v0] r IH]; intros k v k' H; simpl in *.
  - contradiction.
  - destruct (eqb k0 k) eqn:E; simpl.
    + destruct (eqb k0 k'); [discriminate | assumption].
    + destruct (eqb k0 k'); [discriminate | apply IH; assumption].
Qed.

(** The entries of a map keep their order under [set] of a present key. *)
Lemma JsMap_keys_set_present : forall (m : JsMap.t K V) k v,
  JsMap.get eqb m k <> None -> JsMap.keys (JsMap.set eqb m k v) = JsMap.keys m.
Proof.
  induction m as [|[k0 v0] r IH]; intros k v H; simpl in *.
  - contradiction.
  - unfold JsMap.keys in *. destruct (eqb k0 k) eqn:E; simpl; [reflexivity|].
    f_equal. apply IH. assumption.
Qed.

End JsMapFacts.

Lemma algorithm_eqb_spec : forall a b, algorithm_eqb a b = true <-> a = b.
Proof.
  intros a b. split.
  - destruct a, b; simpl; intros H; try reflexivity; discriminate H.
  - intros ->. destruct b; reflexivity.
Qed.

Lemma string_eqb_spec : forall a b : string, String.eqb a b = true <-> a = b.
Proof. exact String.eqb_eq. Qed.

(** ** The key management service *)

Section KeyManagementFacts.
Import KeyManagementService KeyManagementProperties.
Variable env : Environment.

Ltac run_monad :=
  unfold bind, try_catch, generateKeyId, createKeyPair, mutate_metadata, DateNow,
    MathRandom, getCurrentQuantumThreatLevel, ret, gets, modify, emitEvent,
    subtleGenerateKey, throw, set_keys, set_keyStore, set_emitted,
    set_rotationPolicies; simpl.

(** What [generateKey] does to the service: nothing when it throws; one new
    table entry, two store entries and one event when it returns. *)
Lemma generateKey_spec : forall a s,
  rotationPolicies (snd (generateKey env a s)) = rotationPolicies s /\
  match fst (generateKey env a s) with
  | inl e =>
      keys (snd (generateKey env a s)) = keys s /\
      keyStore (snd (generateKey env a s)) = keyStore s /\
      emitted (snd (generateKey env a s)) = emitted s
  | inr id =>
      a = RSA_OAEP /\
      exists md kp ev,
        keys (snd (generateKey env a s)) = JsMap.set String.eqb (keys s) id md /\
        metadata_id md = id /\ algorithm md = a /\ status md = active /\
        keyStore (snd (generateKey env a s)) =
          JsMap.set String.eqb
            (JsMap.set String.eqb (keyStore s) id (privateKey kp))
            (id ++ "_pub") (publicKey kp) /\
        emitted (snd (generateKey env a s)) = (emitted s ++ [ev])%list /\
        type ev = ev_created /\ keyId ev = id
  end.
Proof.
  intros a s. unfold generateKey. run_monad.
  destruct (algorithm_eqb a RSA_OAEP) eqn:Ea; simpl.
  - apply algorithm_eqb_spec in Ea.
    destruct (subtle_generateKey env (keygen_calls s)) as [e|kp]; simpl.
    + repeat split.
    + destruct (JsMap.get algorithm_eqb (rotationPolicies s) a); simpl;
        (split; [reflexivity|]; split; [assumption|]);
        eexists; exists kp; eexists; repeat split.
  - repeat split.
Qed.

Lemma generateKey_unsupported : forall a s,
  a <> RSA_OAEP ->
  fst (generateKey env a s) =
    inl (Error ("Key generation for " ++ algorithm_name a ++ " not implemented yet")).
Proof.
  intros a s Hne. unfold generateKey. run_monad.
  rewrite (eqb_false_of_spec algorithm_eqb algorithm_eqb_spec Hne). reflexivity.
Qed.


Lemma rotateKey_unknown : forall k s,
  JsMap.get String.eqb (keys s) k = None ->
  rotateKey env k s = (inl (Error ("Key " ++ k ++ " not found")), s).
Proof.
  intros k s H. unfold rotateKey. run_monad. rewrite H. reflexivity.
Qed.

(** [rotateKey] on a known key: the two assignments to the old record, then
    [generateKey] from the state they leave, then the [rotated] event. *)
Lemma rotateKey_known : forall k s md,
  JsMap.get String.eqb (keys s) k = Some md ->
  exists s1,
    keys s1 = JsMap.set String.eqb
                (JsMap.set String.eqb (keys s) k (with_status md rotating)) k
                (with_rotatedAt (with_status md rotating)
                   (Date_now env (clock_reads s))) /\
    keyStore s1 = keyStore s /\ rotationPolicies s1 = rotationPolicies s /\
    emitted s1 = emitted s /\ keygen_calls s1 = keygen_calls s /\
    clock_reads s1 = S (clock_reads s) /\ random_draws s1 = random_draws s /\
    match generateKey env (algorithm md) s1 with
    | (inl e, s2) => rotateKey env k s = (inl e, s2)
    | (inr id, s2) =>
        exists s3 ev,
          rotateKey env k s = (inr id, s3) /\
          keys s3 = keys s2 /\ keyStore s3 = keyStore s2 /\
          rotationPolicies s3 = rotationPolicies s2 /\
          emitted s3 = (emitted s2 ++ [ev])%list /\
          type ev = ev_rotated /\ keyId ev = id /\ previousKeyId ev = Some k /\
          event_algorithm ev = algorithm md
    end.
Proof.
  intros k s md H.
  exists {| keys := JsMap.set String.eqb
                      (JsMap.set String.eqb (keys s) k (with_status md rotating)) k
                      (with_rotatedAt (with_status md rotating)
                         (Date_now env (clock_reads s)));
            keyStore := keyStore s; rotationPolicies := rotationPolicies s;
            emitted := emitted s; clock_reads := S (clock_reads s);
            random_draws := random_draws s; keygen_calls := keygen_calls s |}.
  repeat (split; [reflexivity|]).
  unfold rotateKey. run_monad. rewrite H. simpl. rewrite ?H. simpl.
  rewrite (JsMap_get_set_eq String.eqb string_eqb_spec). simpl.
  match goal with |- context [generateKey env ?a ?st] =>
    destruct (generateKey env a st) as [[e|id] s2] end.
  - reflexivity.
  - eexists. eexists. split; [reflexivity|]. simpl. repeat split.
Qed.

Lemma revokeKey_unknown : forall k s,
  JsMap.get String.eqb (keys s) k = None ->
  revokeKey env k s = (inl (Error ("Key " ++ k ++ " not found")), s).
Proof.
  intros k s H. unfold revokeKey. run_monad. rewrite H. reflexivity.
Qed.

Lemma revokeKey_known : forall k s md,
  JsMap.get String.eqb (keys s) k = Some md ->
  revokeKey env k s =
    (inr tt,
     {| keys := JsMap.set String.eqb (keys s) k (with_status md revoked);
        keyStore := JsMap.delete String.eqb
                      (JsMap.delete String.eqb (keyStore s) k) (k ++ "_pub");
        rotationPolicies := rotationPolicies s;
        emitted := (emitted s ++
                    [{| keyId := k; type := ev_revoked;
                        timestamp := Date_now env (clock_reads s);
                        event_algorithm := algorithm md;
                        details := "Key manually revoked";
                        previousKeyId := None |}])%list;
        clock_reads := S (clock_reads s);
        random_draws := random_draws s;
        keygen_calls := keygen_calls s |}).
Proof.
  intros k s md H. unfold revokeKey. run_monad. rewrite H. simpl.
  rewrite ?H. reflexivity.
Qed.

Lemma recordKeyUsage_unknown : forall k s,
  JsMap.get String.eqb (keys s) k = None -> recordKeyUsage env k s = (inr tt, s).
Proof.
  intros k s H. unfold recordKeyUsage. run_monad. rewrite H. reflexivity.
Qed.

Lemma recordKeyUsage_known : forall k s md,
  JsMap.get String.eqb (keys s) k = Some md ->
  keys (snd (recordKeyUsage env k s)) =
    JsMap.set String.eqb (keys s) k
      (with_lastUsed md (Date_now env (clock_reads s))) /\
  keyStore (snd (recordKeyUsage env k s)) = keyStore s /\
  rotationPolicies (snd (recordKeyUsage env k s)) = rotationPolicies s.
Proof.
  intros k s md H. unfold recordKeyUsage. run_monad. rewrite H. simpl.
  rewrite ?H. simpl. repeat split.
Qed.

(** The scan for keys to rotate only reads the service, and never throws. *)
Lemma checkKeyRotationNeeds_loop_same : forall entries now acc s,
  exists flagged,
    fst (checkKeyRotationNeeds_loop env now entries acc s) = inr flagged /\
    same_service s (snd (checkKeyRotationNeeds_loop env now entries acc s)).
Proof.
  induction entries as [|[k md] rest IH]; intros now acc s; simpl.
  - exists acc. unfold same_service. repeat split.
  - destruct (negb (status_eqb (status md) active)); [apply IH|].
    run_monad.
    destruct (JsMap.get algorithm_eqb (rotationPolicies s) (algorithm md));
      [|apply IH].
    match goal with |- context [checkKeyRotationNeeds_loop env now rest ?a ?st] =>
      destruct (IH now a st) as [fl [Hf Hs]] end.
    exists fl. split; [exact Hf|]. exact Hs.
Qed.

Lemma checkKeyRotationNeeds_same : forall s,
  exists flagged,
    fst (checkKeyRotationNeeds env s) = inr flagged /\
    same_service s (snd (checkKeyRotationNeeds env s)).
Proof.
  intros s. unfold checkKeyRotationNeeds. run_monad.
  match goal with |- context [checkKeyRotationNeeds_loop env ?n ?e ?a ?st] =>
    destruct (checkKeyRotationNeeds_loop_same e n a st) as [fl [Hf Hs]] end.
  exists fl. split; [exact Hf|]. exact Hs.
Qed.

(** The batch loop is [rotate_each] with the outcomes sorted into the two
    result lists: a failure of one key neither ends the loop nor throws. *)
Lemma performScheduledRotations_loop_outcomes : forall ks racc facc s,
  performScheduledRotations_loop env ks racc facc s =
    (inr {| rotated := (racc ++ rotated_of (fst (rotate_each env ks s)))%list;
            failed := (facc ++ failed_of (fst (rotate_each env ks s)))%list |},
     snd (rotate_each env ks s)).
Proof.
  induction ks as [|k rest IH]; intros racc facc s; simpl.
  - unfold ret. rewrite !app_nil_r. reflexivity.
  - unfold bind at 1. unfold try_catch. unfold bind at 1.
    destruct (rotateKey env k s) as [[e|id] s1]; simpl;
      rewrite IH; destruct (rotate_each env rest s1) as [outs s2];
      simpl; rewrite <- ?app_assoc; reflexivity.
Qed.

(** *** Key records under the operations *)

Lemma same_identity_refl : forall m, same_identity m m.
Proof. intros m. unfold same_identity. repeat split. Qed.

Lemma same_identity_trans : forall a b c,
  same_identity a b -> same_identity b c -> same_identity a c.
Proof.
  unfold same_identity. intros a b c H1 H2.
  decompose [and] H1. decompose [and] H2. repeat split; congruence.
Qed.

Lemma status_moved_trans : forall a b c,
  status_moved a b -> status_moved b c -> status_moved a c.
Proof.
  unfold status_moved. intros a b c [H1|[H1|H1]] [H2|[H2|H2]]; subst; auto.
Qed.

Lemma record_kept_start : forall k md t,
  JsMap.get String.eqb t k = Some md -> record_kept k md t.
Proof.
  intros k md t H. exists md. split; [exact H|].
  split; [apply same_identity_refl | left; reflexivity].
Qed.

(** Writing a record under another identifier does not touch the one of k. *)
Lemma record_kept_set_other : forall k md0 t id v,
  record_kept k md0 t -> id <> k -> record_kept k md0 (JsMap.set String.eqb t id v).
Proof.
  intros k md0 t id v [m [Hg H]] Hne. exists m. split; [|exact H].
  rewrite (JsMap_get_set_neq String.eqb string_eqb_spec); auto.
Qed.

(** An assignment to a record of the table, keeping its identity. *)
Lemma record_kept_update : forall k md0 t k' m v,
  record_kept k md0 t ->
  JsMap.get String.eqb t k' = Some m ->
  same_identity m v -> status_moved (status m) (status v) ->
  record_kept k md0 (JsMap.set String.eqb t k' v).
Proof.
  intros k md0 t k' m v Hk Hg Hid Hst.
  destruct (string_dec k' k) as [->|Hne].
  - destruct Hk as [m' [Hg' [Hid' Hst']]].
    rewrite Hg in Hg'. injection Hg' as <-.
    exists v. split; [apply (JsMap_get_set_eq String.eqb string_eqb_spec)|].
    split; [eapply same_identity_trans; eauto | eapply status_moved_trans; eauto].
  - apply record_kept_set_other; assumption.
Qed.

Lemma generateKey_keeps : forall k md0 a s,
  record_kept k md0 (keys s) ->
  (forall id, fst (generateKey env a s) = inr id -> id <> k) ->
  record_kept k md0 (keys (snd (generateKey env a s))).
Proof.
  intros k md0 a s Hk Hfresh.
  destruct (generateKey_spec a s) as [_ H].
  destruct (fst (generateKey env a s)) as [e|id] eqn:E.
  - destruct H as [-> _]. exact Hk.
  - destruct H as [_ [md [kp [ev [-> _]]]]].
    apply record_kept_set_other; [exact Hk | apply Hfresh; reflexivity].
Qed.

Lemma rotateKey_keeps : forall k md0 k' s,
  record_kept k md0 (keys s) ->
  (forall id, fst (rotateKey env k' s) = inr id -> id <> k) ->
  record_kept k md0 (keys (snd (rotateKey env k' s))).
Proof.
  intros k md0 k' s Hk Hfresh.
  destruct (JsMap.get String.eqb (keys s) k') as [md|] eqn:Hg.
  - destruct (rotateKey_known k' s Hg)
      as [s1 [Hk1 [_ [_ [_ [_ [_ [_ H]]]]]]]].
    assert (Hk' : record_kept k md0 (keys s1)).
    { rewrite Hk1.
      eapply record_kept_update with (m := with_status md rotating).
      - eapply record_kept_update; eauto.
        + unfold same_identity; simpl; repeat split.
        + right; left; reflexivity.
      - apply (JsMap_get_set_eq String.eqb string_eqb_spec).
      - unfold same_identity; simpl; repeat split.
      - left; reflexivity. }
    pose proof (generateKey_keeps (algorithm md) s1 Hk') as Hgen.
    destruct (generateKey env (algorithm md) s1) as [[e|id] s2] eqn:E.
    + rewrite H. simpl. apply Hgen. simpl. discriminate.
    + destruct H as [s3 [ev [Hr [Hk3 _]]]].
      rewrite Hr in Hfresh |- *. simpl. rewrite Hk3.
      apply Hgen. simpl. intros id' Hid. injection Hid as <-.
      apply Hfresh. reflexivity.
  - rewrite (rotateKey_unknown k' s Hg). exact Hk.
Qed.

Lemma revokeKey_keeps : forall k md0 k' s,
  record_kept k md0 (keys s) ->
  record_kept k md0 (keys (snd (revokeKey env k' s))).
Proof.
  intros k md0 k' s Hk.
  destruct (JsMap.get String.eqb (keys s) k') as [md|] eqn:Hg.
  - rewrite (revokeKey_known k' s Hg). simpl.
    eapply record_kept_update; eauto.
    + unfold same_identity; simpl; repeat split.
    + right; right; reflexivity.
  - rewrite (revokeKey_unknown k' s Hg). exact Hk.
Qed.

Lemma recordKeyUsage_keeps : forall k md0 k' s,
  record_kept k md0 (keys s) ->
  record_kept k md0 (keys (snd (recordKeyUsage env k' s))).
Proof.
  intros k md0 k' s Hk.
  destruct (JsMap.get String.eqb (keys s) k') as [md|] eqn:Hg.
  - destruct (recordKeyUsage_known k' s Hg) as [-> _].
    eapply record_kept_update; eauto.
    + unfold same_identity; simpl; repeat split.
    + left; reflexivity.
  - rewrite (recordKeyUsage_unknown k' s Hg). exact Hk.
Qed.

Lemma rotate_each_keeps : forall k md0 ks s,
  record_kept k md0 (keys s) ->
  (forall id, In id (rotated_of (fst (rotate_each env ks s))) -> id <> k) ->
  record_kept k md0 (keys (snd (rotate_each env ks s))).
Proof.
  intros k md0 ks. induction ks as [|k' rest IH]; intros s Hk Hfresh; simpl.
  - exact Hk.
  - simpl in Hfresh.
    pose proof (rotateKey_keeps k' s Hk) as Hrot.
    destruct (rotateKey env k' s) as [r s1] eqn:E. simpl in Hrot.
    specialize (IH s1).
    destruct (rotate_each env rest s1) as [outs s2] eqn:E2. simpl in *.
    apply IH.
    + apply Hrot. intros id Hid. apply Hfresh. subst r. simpl. left. reflexivity.
    + intros id Hid. apply Hfresh. apply in_or_app. right. exact Hid.
Qed.

Lemma performScheduledRotations_keeps : forall k md0 s,
  record_kept k md0 (keys s) ->
  (forall r, fst (performScheduledRotations env s) = inr r ->
             forall id, In id (rotated r) -> id <> k) ->
  record_kept k md0 (keys (snd (performScheduledRotations env s))).
Proof.
  intros k md0 s Hk Hfresh. revert Hfresh.
  unfold performScheduledRotations. unfold bind at 1 2.
  destruct (checkKeyRotationNeeds_same s) as [fl [Hf [Hs _]]].
  destruct (checkKeyRotationNeeds env s) as [r s1]. simpl in Hf, Hs. subst r.
  rewrite performScheduledRotations_loop_outcomes. simpl. intros Hfresh.
  apply rotate_each_keeps.
  - rewrite Hs. exact Hk.
  - intros id Hid. eapply Hfresh; [reflexivity|]. exact Hid.
Qed.

Lemma run_keeps : forall k md0 op s,
  record_kept k md0 (keys s) -> fresh_for env op s ->
  record_kept k md0 (keys (run env op s)).
Proof.
  intros k md0 op s Hk Hfresh.
  assert (Hne : forall id, In id (new_ids env op s) -> id <> k).
  { intros id Hin ->. apply Hfresh in Hin.
    destruct Hk as [m [Hg _]]. congruence. }
  clear Hfresh. destruct op; simpl in *.
  - apply generateKey_keeps; [exact Hk|].
    intros id E. apply Hne. rewrite E. left. reflexivity.
  - apply rotateKey_keeps; [exact Hk|].
    intros id E. apply Hne. rewrite E. left. reflexivity.
  - apply revokeKey_keeps. exact Hk.
  - destruct (checkKeyRotationNeeds_same s) as [fl [_ [-> _]]]. exact Hk.
  - apply performScheduledRotations_keeps; [exact Hk|].
    intros r E id Hin. apply Hne. rewrite E. exact Hin.
  - apply recordKeyUsage_keeps. exact Hk.
  - exact Hk.
Qed.

(** *** Only RSA-OAEP keys ever enter the table *)

Lemma all_RSA_OAEP_set : forall t k v,
  all_RSA_OAEP t -> algorithm v = RSA_OAEP ->
  all_RSA_OAEP (JsMap.set String.eqb t k v).
Proof.
  intros t k v Ht Hv k' md Hg.
  destruct (string_dec k k') as [->|Hne].
  - rewrite (JsMap_get_set_eq String.eqb string_eqb_spec) in Hg. congruence.
  - rewrite (JsMap_get_set_neq String.eqb string_eqb_spec) in Hg; eauto.
Qed.

Lemma generateKey_all_RSA_OAEP : forall a s,
  all_RSA_OAEP (keys s) -> all_RSA_OAEP (keys (snd (generateKey env a s))).
Proof.
  intros a s Ht. destruct (generateKey_spec a s) as [_ H].
  destruct (fst (generateKey env a s)) as [e|id].
  - destruct H as [-> _]. exact Ht.
  - destruct H as [Ha [md [kp [ev [-> [_ [Hm _]]]]]]].
    apply all_RSA_OAEP_set; [exact Ht | congruence].
Qed.

Lemma rotateKey_all_RSA_OAEP : forall k s,
  all_RSA_OAEP (keys s) -> all_RSA_OAEP (keys (snd (rotateKey env k s))).
Proof.
  intros k s Ht.
  destruct (JsMap.get String.eqb (keys s) k) as [md|] eqn:Hg.
  - destruct (rotateKey_known k s Hg) as [s1 [Hk1 [_ [_ [_ [_ [_ [_ H]]]]]]]].
    assert (Ht1 : all_RSA_OAEP (keys s1)).
    { rewrite Hk1. repeat apply all_RSA_OAEP_set; simpl; eauto. }
    pose proof (generateKey_all_RSA_OAEP (algorithm md) s1 Ht1) as Hgen.
    destruct (generateKey env (algorithm md) s1) as [[e|id] s2].
    + rewrite H. exact Hgen.
    + destruct H as [s3 [ev [Hr [Hk3 _]]]]. rewrite Hr. simpl. rewrite Hk3.
      exact Hgen.
  - rewrite (rotateKey_unknown k s Hg). exact Ht.
Qed.

Lemma rotate_each_all_RSA_OAEP : forall ks s,
  all_RSA_OAEP (keys s) -> all_RSA_OAEP (keys (snd (rotate_each env ks s))).
Proof.
  induction ks as [|k rest IH]; intros s Ht; simpl; [exact Ht|].
  pose proof (rotateKey_all_RSA_OAEP k s Ht) as H1.
  destruct (rotateKey env k s) as [r s1]. specialize (IH s1 H1).
  destruct (rotate_each env rest s1) as [outs s2]. exact IH.
Qed.

Lemma run_all_RSA_OAEP : forall op s,
  all_RSA_OAEP (keys s) -> all_RSA_OAEP (keys (run env op s)).
Proof.
  intros op s Ht.
  destruct op as [a|k|keyId|  |  |keyId|a p]; simpl.
  - apply generateKey_all_RSA_OAEP. exact Ht.
  - apply rotateKey_all_RSA_OAEP. exact Ht.
  - destruct (JsMap.get String.eqb (keys s) keyId) as [md|] eqn:Hg.
    + rewrite (revokeKey_known keyId s Hg). simpl.
      apply all_RSA_OAEP_set; simpl; eauto.
    + rewrite (revokeKey_unknown keyId s Hg). exact Ht.
  - destruct (checkKeyRotationNeeds_same s) as [fl [_ [-> _]]]. exact Ht.
  - unfold performScheduledRotations. unfold bind at 1.
    destruct (checkKeyRotationNeeds_same s) as [fl [Hf [Hs _]]].
    destruct (checkKeyRotationNeeds env s) as [r s1]. simpl in Hf, Hs. subst r.
    rewrite performScheduledRotations_loop_outcomes. simpl.
    apply rotate_each_all_RSA_OAEP. rewrite Hs. exact Ht.
  - destruct (JsMap.get String.eqb (keys s) keyId) as [md|] eqn:Hg.
    + destruct (recordKeyUsage_known keyId s Hg) as [-> _].
      apply all_RSA_OAEP_set; simpl; eauto.
    + rewrite (recordKeyUsage_unknown keyId s Hg). exact Ht.
  - exact Ht.
Qed.

Lemma reachable_all_RSA_OAEP : forall s,
  reachable env s -> all_RSA_OAEP (keys s).
Proof.
  induction 1 as [|s op _ IH].
  - intros k md H. discriminate H.
  - apply run_all_RSA_OAEP. exact IH.
Qed.

(** With a key pair from the platform, [generateKey] for RSA-OAEP returns. *)
Lemma generateKey_succeeds : forall s kp,
  subtle_generateKey env (keygen_calls s) = inr kp ->
  exists id md,
    fst (generateKey env RSA_OAEP s) = inr id /\
    keys (snd (generateKey env RSA_OAEP s)) = JsMap.set String.eqb (keys s) id md /\
    algorithm md = RSA_OAEP /\ status md = active /\
    keyStore (snd (generateKey env RSA_OAEP s)) =
      JsMap.set String.eqb
        (JsMap.set String.eqb (keyStore s) id (privateKey kp))
        (id ++ "_pub") (publicKey kp).
Proof.
  intros s kp Hkp. unfold generateKey. run_monad. rewrite Hkp. simpl.
  destruct (JsMap.get algorithm_eqb (rotationPolicies s) RSA_OAEP); simpl;
    eexists; eexists; repeat split.
Qed.

(** [createKeyPair] asks the platform for RSA-OAEP alone, and reads nothing
    of the service but the position in the platform's answers. *)
Lemma createKeyPair_delivers : forall a s kp,
  fst (createKeyPair env a s) = inr kp ->
  a = RSA_OAEP /\ subtle_generateKey env (keygen_calls s) = inr kp.
Proof.
  intros a s kp. unfold createKeyPair.
  destruct (algorithm_eqb a RSA_OAEP) eqn:Ea.
  - apply algorithm_eqb_spec in Ea. run_monad.
    destruct (subtle_generateKey env (keygen_calls s)); simpl; intros H;
      [discriminate|]. injection H as <-. split; [exact Ea | reflexivity].
  - run_monad. discriminate.
Qed.

End KeyManagementFacts.

(** *** The claims about the key manager *)

Section KeyManagementClaims.
Import KeyManagementService KeyManagementProperties.

(** C4.  For every key id k of the key table, [revokeKey(k)] returns, and
    afterwards [getKey(k)] and [getPublicKey(k)] give [null] while
    [getKeyMetadata(k)] still gives the record, now with status ['revoked']:
    the material is deleted at once and the metadata is kept. *)
Theorem revokeKey_deletes_material_keeps_metadata :
  forall env s k md,
    JsMap.get String.eqb (keys s) k = Some md ->
    exists s',
      revokeKey env k s = (inr tt, s') /\
      fst (getKey k s') = inr None /\
      fst (getPublicKey k s') = inr None /\
      exists md',
        fst (getKeyMetadata k s') = inr (Some md') /\
        status md' = revoked /\ same_identity md md'.
Proof.
  intros env s k md H. rewrite (revokeKey_known env k s H).
  eexists. split; [reflexivity|].
  unfold getKey, getPublicKey, getKeyMetadata, gets. simpl.
  split; [|split].
  - f_equal.
    destruct (string_dec (k ++ "_pub") k) as [E|E].
    + rewrite E. apply (JsMap_get_delete_eq String.eqb).
    + rewrite (JsMap_get_delete_neq String.eqb string_eqb_spec) by exact E.
      apply (JsMap_get_delete_eq String.eqb).
  - f_equal. apply (JsMap_get_delete_eq String.eqb).
  - exists (with_status md revoked).
    rewrite (JsMap_get_set_eq String.eqb string_eqb_spec).
    split; [reflexivity|]. split; [reflexivity|].
    unfold same_identity. simpl. repeat split.
Qed.

(** C10.  [generateKey] returns only for ['RSA-OAEP']: for any other
    algorithm it throws the "not implemented yet" error, and the key table,
    the key store, the policies and the emitted events are as before. *)
Theorem generateKey_only_RSA_OAEP :
  forall env a s,
    a <> RSA_OAEP ->
    fst (generateKey env a s) =
      inl (Error ("Key generation for " ++ algorithm_name a
                  ++ " not implemented yet")) /\
    (forall id, fst (generateKey env a s) <> inr id) /\
    same_service s (snd (generateKey env a s)).
Proof.
  intros env a s Hne.
  pose proof (generateKey_unsupported env s Hne) as E.
  split; [exact E|]. split.
  - intros id. rewrite E. discriminate.
  - destruct (generateKey_spec env a s) as [Hp H]. rewrite E in H.
    destruct H as [Hk [Hs He]]. unfold same_service. auto.
Qed.

(** C7.  [performScheduledRotations] never throws.  It calls [rotateKey] on
    every flagged key, in order, each from the state the previous call left;
    a key whose rotation throws gives one entry of [failed] with that key's
    id and the error's message, the others give their new id in [rotated].
    With three flagged keys of which the second fails, [rotated] has the two
    new ids and [failed] the one entry for the second key. *)
Theorem performScheduledRotations_isolates_failures :
  forall env s,
    exists flagged s1,
      checkKeyRotationNeeds env s = (inr flagged, s1) /\
      let outcomes := fst (rotate_each env flagged s1) in
      performScheduledRotations env s =
        (inr {| rotated := rotated_of outcomes; failed := failed_of outcomes |},
         snd (rotate_each env flagged s1)) /\
      map fst outcomes = flagged /\
      (List.length (rotated_of outcomes) + List.length (failed_of outcomes)
       = List.length flagged)%nat /\
      (forall k1 k2 k3 n1 e n3 sa sb sc,
          flagged = [k1; k2; k3] ->
          rotateKey env k1 s1 = (inr n1, sa) ->
          rotateKey env k2 sa = (inl e, sb) ->
          rotateKey env k3 sb = (inr n3, sc) ->
          performScheduledRotations env s =
            (inr {| rotated := [n1; n3];
                    failed := [{| failed_keyId := k2;
                                  failed_error := error_message e |}] |}, sc)).
Proof.
  intros env s.
  destruct (checkKeyRotationNeeds_same env s) as [flagged [Hf _]].
  destruct (checkKeyRotationNeeds env s) as [r s1] eqn:Ec. simpl in Hf. subst r.
  exists flagged, s1. split; [reflexivity|].
  assert (Hrun : performScheduledRotations env s =
                   (inr {| rotated := rotated_of (fst (rotate_each env flagged s1));
                           failed := failed_of (fst (rotate_each env flagged s1)) |},
                    snd (rotate_each env flagged s1))).
  { unfold performScheduledRotations. unfold bind at 1. rewrite Ec.
    rewrite performScheduledRotations_loop_outcomes. reflexivity. }
  assert (Hshape : forall ks st,
             map fst (fst (rotate_each env ks st)) = ks /\
             (List.length (rotated_of (fst (rotate_each env ks st)))
              + List.length (failed_of (fst (rotate_each env ks st)))
              = List.length ks)%nat).
  { induction ks as [|k rest IH]; intros st; simpl; [split; reflexivity|].
    destruct (rotateKey env k st) as [o st1].
    specialize (IH st1). destruct (rotate_each env rest st1) as [outs st2].
    simpl in *. destruct IH as [IH1 IH2]. split; [f_equal; exact IH1|].
    unfold rotated_of, failed_of in *. simpl.
    rewrite !length_app. destruct o; simpl; lia. }
  simpl. split; [exact Hrun|].
  split; [apply Hshape|]. split; [apply Hshape|].
  intros k1 k2 k3 n1 e n3 sa sb sc -> H1 H2 H3.
  rewrite Hrun. simpl. rewrite H1, H2, H3. reflexivity.
Qed.

(** C3, as the code has it.  For a key id k of the key table, when the
    creation of the new key pair succeeds - [createKeyPair] for the key's
    algorithm, asked at this point, delivers a pair - and the identifier drawn
    for the new key is unused, [rotateKey(k)] returns a new id; the old record
    then has status ['rotating'] and [rotatedAt] set to the time of the call,
    a record of the same algorithm with status ['active'] exists under the new
    id, and every entry the key store held is still there with its value, so
    the two halves of the old key are still in the store: rotation deletes no
    material. *)
Theorem rotateKey_marks_old_creates_new_keeps_store :
  forall env s k md kp,
    JsMap.get String.eqb (keys s) k = Some md ->
    fst (createKeyPair env (algorithm md) s) = inr kp ->
    (forall id, fst (rotateKey env k s) = inr id -> unused_id s id) ->
    exists newId s',
      rotateKey env k s = (inr newId, s') /\
      (exists old,
          JsMap.get String.eqb (keys s') k = Some old /\
          status old = rotating /\
          rotatedAt old = Some (Date_now env (clock_reads s)) /\
          same_identity md old) /\
      (exists new,
          JsMap.get String.eqb (keys s') newId = Some new /\
          algorithm new = algorithm md /\ status new = active) /\
      (forall x v, JsMap.get String.eqb (keyStore s) x = Some v ->
                   JsMap.get String.eqb (keyStore s') x = Some v) /\
      (forall v, fst (getKey k s) = inr (Some v) -> fst (getKey k s') = inr (Some v)) /\
      (forall v, fst (getPublicKey k s) = inr (Some v) ->
                 fst (getPublicKey k s') = inr (Some v)).
Proof.
  intros env s k md kp Hg Hpair Hfresh.
  destruct (createKeyPair_delivers env (algorithm md) s Hpair) as [Ha Hkp].
  destruct (rotateKey_known env k s Hg)
    as [s1 [Hk1 [Hs1 [_ [_ [Hc1 [_ [_ H]]]]]]]].
  rewrite <- Hc1 in Hkp.
  destruct (generateKey_succeeds env s1 Hkp)
    as [id [mdn [E [Hk2 [Han [Hst Hs2]]]]]].
  rewrite Ha in H.
  destruct (generateKey env RSA_OAEP s1) as [[e|id'] s2]; simpl in E;
    [discriminate E|]. injection E as ->. simpl in Hk2, Hs2.
  destruct H as [s3 [ev [Hr [Hk3 [Hs3 _]]]]].
  rewrite Hr in Hfresh. destruct (Hfresh id eq_refl) as [Hu1 [Hu2 Hu3]].
  assert (Hstore : forall x v, JsMap.get String.eqb (keyStore s) x = Some v ->
                               JsMap.get String.eqb (keyStore s3) x = Some v).
  { intros x v Hx. rewrite Hs3, Hs2, Hs1.
    rewrite !(JsMap_get_set_neq String.eqb string_eqb_spec); [exact Hx| |];
      intros E; rewrite <- E in Hx; congruence. }
  exists id, s3. split; [exact Hr|]. split; [|split; [|split; [|split]]].
  - exists (with_rotatedAt (with_status md rotating) (Date_now env (clock_reads s))).
    rewrite Hk3, Hk2, Hk1.
    rewrite (JsMap_get_set_neq String.eqb string_eqb_spec)
      by (intros E; rewrite E in Hu1; congruence).
    rewrite (JsMap_get_set_eq String.eqb string_eqb_spec).
    unfold same_identity. simpl. repeat split.
  - exists mdn. rewrite Hk3, Hk2.
    rewrite (JsMap_get_set_eq String.eqb string_eqb_spec).
    repeat split; congruence.
  - exact Hstore.
  - unfold getKey, gets. simpl. intros v Hv. injection Hv as Hv.
    f_equal. apply Hstore. exact Hv.
  - unfold getPublicKey, gets. simpl. intros v Hv. injection Hv as Hv.
    f_equal. apply Hstore. exact Hv.
Qed.

(** C8, as the code has it.  Over any sequence of operations in which the
    identifiers handed out as new were not in the key table, a key record
    stays in the table with the same id, algorithm, creation time, expiry,
    quantum-safe flag, security level and usage role, and its status is the
    one it had, or ['rotating'], or ['revoked']: only [rotateKey] and
    [revokeKey] write a status, whatever the status was, and nothing writes
    ['active'] or ['expired'] to an existing record. *)
Theorem key_record_identity_is_kept :
  forall env ops s k md,
    JsMap.get String.eqb (keys s) k = Some md ->
    fresh_run env ops s ->
    exists md',
      JsMap.get String.eqb (keys (run_all env ops s)) k = Some md' /\
      metadata_id md' = metadata_id md /\ algorithm md' = algorithm md /\
      created md' = created md /\ expiresAt md' = expiresAt md /\
      isQuantumSafe md' = isQuantumSafe md /\
      securityLevel md' = securityLevel md /\ usage md' = usage md /\
      (status md' = status md \/ status md' = rotating \/ status md' = revoked).
Proof.
  intros env ops s k md Hg Hfresh.
  assert (H : record_kept k md (keys (run_all env ops s))).
  { pose proof (record_kept_start k (keys s) Hg) as Hk.
    clear Hg. revert s Hk Hfresh. unfold run_all.
    induction ops as [|op rest IH]; intros s Hk Hfresh; simpl.
    - exact Hk.
    - destruct Hfresh as [Hop Hrest].
      apply IH; [|exact Hrest]. apply run_keeps; assumption. }
  destruct H as [md' [Hg' [Hid Hst]]]. exists md'.
  unfold same_identity in Hid. decompose [and] Hid.
  repeat (split; [assumption|]). exact Hst.
Qed.

End KeyManagementClaims.

(** *** Concrete runs *)

Section KeyManagementRuns.
Import KeyManagementService KeyManagementProperties.

(** Freshness of the identifiers of a concrete run, by evaluation. *)
Ltac fresh_by_computation :=
  let id := fresh "id" in
  let Hin := fresh "Hin" in
  intros id Hin;
  match type of Hin with
  | In _ ?l =>
      let l' := eval vm_compute in l in
      replace l with l' in Hin by (vm_compute; reflexivity)
  end;
  simpl in Hin;
  repeat (destruct Hin as [<-|Hin]; [vm_compute; reflexivity|]);
  contradiction.

Lemma sample_one_key_reachable : reachable Sample.env Sample.one_key.
Proof. unfold Sample.one_key. apply reachable_run. apply reachable_initial. Qed.

Lemma sample_one_revoked_reachable : reachable Sample.env Sample.one_revoked.
Proof.
  unfold Sample.one_revoked. apply reachable_run. apply sample_one_key_reachable.
Qed.

(** C3, counterexample.  Four keys were generated and the platform rejects
    the next key generation.  The first key is in the key table, ['active'],
    with both halves in the key store; [rotateKey] on it does not complete:
    it throws the platform's rejection, and the key table has no new key. *)
Lemma rotateKey_throws_when_key_generation_is_rejected :
  reachable Sample.env Sample2.four_keys /\
  (exists md,
      JsMap.get String.eqb (keys Sample2.four_keys) Sample.first_id = Some md /\
      status md = active) /\
  (exists priv pub,
      fst (getKey Sample.first_id Sample2.four_keys) = inr (Some priv) /\
      fst (getPublicKey Sample.first_id Sample2.four_keys) = inr (Some pub)) /\
  exists s',
    rotateKey Sample.env Sample.first_id Sample2.four_keys
      = (inl (DOMException "OperationError" "The operation failed"), s') /\
    JsMap.keys (keys s') = JsMap.keys (keys Sample2.four_keys).
Proof.
  split.
  { unfold Sample2.four_keys. cbv [run_all]. repeat apply reachable_run.
    apply reachable_initial. }
  split; [eexists; split; vm_compute; reflexivity|].
  split; [eexists; eexists; split; vm_compute; reflexivity|].
  eexists. split; vm_compute; reflexivity.
Qed.

(** C8, counterexample.  [rotateKey] on a revoked key takes its status from
    ['revoked'] back to ['rotating'], against the lifecycle
    active -> rotating -> revoked. *)
Lemma revoked_key_returns_to_rotating :
  reachable Sample.env Sample.one_revoked /\
  fresh_for Sample.env (RotateKey Sample.first_id) Sample.one_revoked /\
  exists md md',
    JsMap.get String.eqb (keys Sample.one_revoked) Sample.first_id = Some md /\
    JsMap.get String.eqb
      (keys (run Sample.env (RotateKey Sample.first_id) Sample.one_revoked))
      Sample.first_id = Some md' /\
    status md = revoked /\ status md' = rotating /\
    lifecycle_allows (status md) (status md') = false.
Proof.
  split; [apply sample_one_revoked_reachable|]. split.
  - fresh_by_computation.
  - eexists. eexists. split; [vm_compute; reflexivity|].
    split; [vm_compute; reflexivity|]. repeat split.
Qed.

(** C3 on a run: the one key of [Sample.one_key] is rotated. *)
Lemma rotateKey_marks_old_creates_new_keeps_store_witness :
  (exists md kp,
      JsMap.get String.eqb (keys Sample.one_key) Sample.first_id = Some md /\
      fst (createKeyPair Sample.env (algorithm md) Sample.one_key) = inr kp) /\
  exists newId s',
    rotateKey Sample.env Sample.first_id Sample.one_key = (inr newId, s') /\
    unused_id Sample.one_key newId /\
    (exists old,
        JsMap.get String.eqb (keys s') Sample.first_id = Some old /\
        status old = rotating) /\
    (exists new,
        JsMap.get String.eqb (keys s') newId = Some new /\ status new = active) /\
    (exists v, fst (getKey Sample.first_id s') = inr (Some v)) /\
    (exists v, fst (getPublicKey Sample.first_id s') = inr (Some v)).
Proof.
  assert (Hg : JsMap.get String.eqb (keys Sample.one_key) Sample.first_id
               = Some {| metadata_id := Sample.first_id; algorithm := RSA_OAEP;
                         created := 1700000000001; lastUsed := None;
                         rotatedAt := None; expiresAt := Some 1707776000002%Z;
                         isQuantumSafe := false; securityLevel := low;
                         usage := encryption; status := active |})
    by (vm_compute; reflexivity).
  assert (Hp : fst (createKeyPair Sample.env RSA_OAEP Sample.one_key)
               = inr {| publicKey := Sample.rsa_key public 1;
                        privateKey := Sample.rsa_key private 1 |})
    by (vm_compute; reflexivity).
  assert (E : fst (rotateKey Sample.env Sample.first_id Sample.one_key)
              = inr "key_1700000000005_i") by (vm_compute; reflexivity).
  assert (Hu : unused_id Sample.one_key "key_1700000000005_i")
    by (vm_compute; repeat split).
  split; [eexists; eexists; split; [exact Hg | exact Hp]|].
  destruct (@rotateKey_marks_old_creates_new_keeps_store
              Sample.env Sample.one_key Sample.first_id _ _ Hg Hp)
    as [newId [s' [Hr [[old [Ho [Hs _]]] [[new [Hn [_ Hna]]] [_ [Hk Hpub]]]]]]].
  - intros id H. rewrite E in H. injection H as <-. exact Hu.
  - assert (En : newId = "key_1700000000005_i").
    { rewrite Hr in E. simpl in E. injection E as ->. reflexivity. }
    exists newId, s'. split; [exact Hr|].
    split; [rewrite En; exact Hu|].
    split; [exists old; split; assumption|].
    split; [exists new; split; assumption|].
    split; eexists; [apply Hk | apply Hpub]; vm_compute; reflexivity.
Defined.

(** C4 on a run: the one key of [Sample.one_key] is revoked. *)
Lemma revokeKey_deletes_material_keeps_metadata_witness :
  (exists md, JsMap.get String.eqb (keys Sample.one_key) Sample.first_id = Some md) /\
  exists s',
    revokeKey Sample.env Sample.first_id Sample.one_key = (inr tt, s') /\
    fst (getKey Sample.first_id s') = inr None /\
    fst (getPublicKey Sample.first_id s') = inr None /\
    exists md', fst (getKeyMetadata Sample.first_id s') = inr (Some md') /\
                status md' = revoked.
Proof.
  split; [eexists; vm_compute; reflexivity|].
  destruct (@revokeKey_deletes_material_keeps_metadata
              Sample.env Sample.one_key Sample.first_id
              {| metadata_id := Sample.first_id; algorithm := RSA_OAEP;
                 created := 1700000000001; lastUsed := None; rotatedAt := None;
                 expiresAt := Some 1707776000002%Z; isQuantumSafe := false;
                 securityLevel := low; usage := encryption; status := active |})
    as [s' [Hr [Hk [Hp [md' [Hm [Hs _]]]]]]].
  - vm_compute. reflexivity.
  - exists s'. repeat (split; [assumption|]). exists md'. split; assumption.
Defined.

(** C10 on a run: ML-KEM-768 requested from a new service. *)
Lemma generateKey_only_RSA_OAEP_witness :
  ML_KEM_768 <> RSA_OAEP /\
  fst (generateKey Sample.env ML_KEM_768 initial) =
    inl (Error "Key generation for ML-KEM-768 not implemented yet") /\
  same_service initial (snd (generateKey Sample.env ML_KEM_768 initial)).
Proof.
  assert (Hne : ML_KEM_768 <> RSA_OAEP) by discriminate.
  split; [exact Hne|].
  destruct (@generateKey_only_RSA_OAEP Sample.env ML_KEM_768 initial Hne)
    as [He [_ Hs]].
  split; [exact He | exact Hs].
Defined.

(** C7 on a run: three keys are flagged and the platform rejects the key
    generation of the second rotation. *)
Lemma performScheduledRotations_isolates_failures_witness :
  fst (checkKeyRotationNeeds Sample.env Sample.three_keys) =
    inr ["key_1700000000000_i"; "key_1700000000004_i"; "key_1700000000008_i"] /\
  fst (performScheduledRotations Sample.env Sample.three_keys) =
    inr {| rotated := ["key_1700000000014_i"; "key_1700000000022_i"];
           failed := [{| failed_keyId := "key_1700000000004_i";
                         failed_error := "The operation failed" |}] |}.
Proof.
  split; [vm_compute; reflexivity|].
  destruct (performScheduledRotations_isolates_failures Sample.env Sample.three_keys)
    as [flagged [s1 [Hc [_ [_ [_ Hscen]]]]]].
  assert (Hfl : flagged =
                ["key_1700000000000_i"; "key_1700000000004_i"; "key_1700000000008_i"]).
  { assert (E : fst (checkKeyRotationNeeds Sample.env Sample.three_keys) =
                 inr ["key_1700000000000_i"; "key_1700000000004_i";
                      "key_1700000000008_i"]) by (vm_compute; reflexivity).
    rewrite Hc in E. simpl in E. injection E as E. exact E. }
  assert (Hs1 : s1 = snd (checkKeyRotationNeeds Sample.env Sample.three_keys)).
  { rewrite Hc. reflexivity. }
  subst s1.
  set (s1 := snd (checkKeyRotationNeeds Sample.env Sample.three_keys)) in *.
  set (sa := snd (rotateKey Sample.env "key_1700000000000_i" s1)).
  set (sb := snd (rotateKey Sample.env "key_1700000000004_i" sa)).
  set (sc := snd (rotateKey Sample.env "key_1700000000008_i" sb)).
  rewrite (Hscen _ _ _ "key_1700000000014_i"
             (DOMException "OperationError" "The operation failed")
             "key_1700000000022_i" sa sb sc Hfl).
  - reflexivity.
  - rewrite (surjective_pairing (rotateKey _ _ s1)).
    f_equal; vm_compute; reflexivity.
  - rewrite (surjective_pairing (rotateKey _ _ sa)).
    f_equal; vm_compute; reflexivity.
  - rewrite (surjective_pairing (rotateKey _ _ sb)).
    f_equal; vm_compute; reflexivity.
Defined.

(** C8 on a run: the first key through a rotation, a use, a scheduled batch
    and a revocation. *)
Lemma key_record_identity_is_kept_witness :
  (exists md, JsMap.get String.eqb (keys Sample.one_key) Sample.first_id = Some md) /\
  fresh_run Sample.env
    [RotateKey Sample.first_id; RecordKeyUsage Sample.first_id;
     PerformScheduledRotations; RevokeKey Sample.first_id] Sample.one_key /\
  exists md',
    JsMap.get String.eqb
      (keys (run_all Sample.env
               [RotateKey Sample.first_id; RecordKeyUsage Sample.first_id;
                PerformScheduledRotations; RevokeKey Sample.first_id]
               Sample.one_key)) Sample.first_id = Some md' /\
    algorithm md' = RSA_OAEP /\ usage md' = encryption.
Proof.
  assert (Hfresh : fresh_run Sample.env
            [RotateKey Sample.first_id; RecordKeyUsage Sample.first_id;
             PerformScheduledRotations; RevokeKey Sample.first_id] Sample.one_key).
  { cbv [fresh_run]. repeat split; fresh_by_computation. }
  split; [eexists; vm_compute; reflexivity|]. split; [exact Hfresh|].
  destruct (@key_record_identity_is_kept Sample.env
              [RotateKey Sample.first_id; RecordKeyUsage Sample.first_id;
               PerformScheduledRotations; RevokeKey Sample.first_id]
              Sample.one_key Sample.first_id
              {| metadata_id := Sample.first_id; algorithm := RSA_OAEP;
                 created := 1700000000001; lastUsed := None; rotatedAt := None;
                 expiresAt := Some 1707776000002%Z; isQuantumSafe := false;
                 securityLevel := low; usage := encryption; status := active |})
    as [md' [Hg [_ [Ha [_ [_ [_ [_ [Hu _]]]]]]]]].
  - vm_compute. reflexivity.
  - exact Hfresh.
  - exists md'. split; [exact Hg|]. split; assumption.
Defined.

End KeyManagementRuns.

(** ** The security monitor *)

Section SecurityMonitorClaims.
Import SecurityMonitorService.

(** C6, as the code has it.  [recommendAlgorithm] maps the threat score by
    fixed thresholds: from 90 ML-KEM-1024, from 70 ML-KEM-768, from 50 the
    hybrid algorithm, from 25 ML-KEM-512, below that RSA-OAEP; so 95, 80, 60,
    30 and 10 give strongest PQC, standard PQC, hybrid, lightest PQC and
    classical.  No hybrid-mode setting enters: it is the specified table with
    hybrid mode taken as enabled. *)
Theorem recommendAlgorithm_thresholds :
  forall threatLevel : Z,
    ((90 <= threatLevel)%Z -> recommendAlgorithm threatLevel = ML_KEM_1024) /\
    ((70 <= threatLevel < 90)%Z -> recommendAlgorithm threatLevel = ML_KEM_768) /\
    ((50 <= threatLevel < 70)%Z ->
       recommendAlgorithm threatLevel = Hybrid_RSA_ML_KEM) /\
    ((25 <= threatLevel < 50)%Z -> recommendAlgorithm threatLevel = ML_KEM_512) /\
    ((threatLevel < 25)%Z -> recommendAlgorithm threatLevel = RSA_OAEP) /\
    recommendAlgorithm threatLevel = specified_recommendation true threatLevel /\
    recommendAlgorithm 95 = ML_KEM_1024 /\
    recommendAlgorithm 80 = ML_KEM_768 /\
    recommendAlgorithm 60 = Hybrid_RSA_ML_KEM /\
    recommendAlgorithm 30 = ML_KEM_512 /\
    recommendAlgorithm 10 = RSA_OAEP.
Proof.
  intros t. unfold recommendAlgorithm, specified_recommendation.
  repeat split; try reflexivity; intros H;
    repeat match goal with
           | |- context [(?a >=? ?b)%Z] =>
               destruct (Z.geb_spec a b); try lia
           end; reflexivity.
Qed.

(** C6, counterexample.  With hybrid mode disabled the specification's table
    gives the standard post-quantum algorithm at score 60; the monitor gives
    the hybrid algorithm. *)
Lemma recommendAlgorithm_ignores_hybrid_mode :
  recommendAlgorithm 60 = Hybrid_RSA_ML_KEM /\
  specified_recommendation false 60 = ML_KEM_768 /\
  recommendAlgorithm 60 <> specified_recommendation false 60.
Proof.
  split; [reflexivity|]. split; [reflexivity|]. discriminate.
Qed.

(** C6 at score 60. *)
Lemma recommendAlgorithm_thresholds_witness :
  (50 <= 60 < 70)%Z /\ recommendAlgorithm 60 = Hybrid_RSA_ML_KEM.
Proof.
  assert (H : (50 <= 60 < 70)%Z) by lia.
  split; [exact H|].
  destruct (recommendAlgorithm_thresholds 60) as [_ [_ [Hh _]]].
  exact (Hh H).
Defined.

End SecurityMonitorClaims.

(** ** The provider factory *)

Section FactoryClaims.
Import CryptoProviderFactory.
Variable import : Loader.

Lemma createProvider_fallbacks_first_success : forall pre z post p s,
  (forall y, In y pre -> instantiation_fails import y) ->
  instantiateProvider import z = inr p ->
  createProvider_fallbacks import (pre ++ z :: post) s =
    (inr p,
     {| config := config s;
        cache := JsMap.set algorithm_eqb (cache s) z p;
        instantiations := (instantiations s ++ pre ++ [z])%list |}).
Proof.
  induction pre as [|y pre IH]; intros z post p s Hpre Hz; simpl.
  - unfold call_instantiateProvider. rewrite Hz. reflexivity.
  - destruct (Hpre y (or_introl eq_refl)) as [e ->].
    rewrite (IH z post p);
      [|intros y' Hy'; apply Hpre; right; exact Hy' | exact Hz].
    simpl. rewrite <- app_assoc. reflexivity.
Qed.

Lemma createProvider_fallbacks_all_fail : forall l s,
  (forall y, In y l -> instantiation_fails import y) ->
  createProvider_fallbacks import l s =
    (inl (CryptoError "Unable to create crypto provider. All algorithms failed."
            ALGORITHM_NOT_SUPPORTED None),
     {| config := config s; cache := cache s;
        instantiations := (instantiations s ++ l)%list |}).
Proof.
  induction l as [|y l IH]; intros s Hl; simpl.
  - rewrite app_nil_r. destruct s; reflexivity.
  - destruct (Hl y (or_introl eq_refl)) as [e ->].
    rewrite IH; [|intros y' Hy'; apply Hl; right; exact Hy'].
    simpl. rewrite <- app_assoc. reflexivity.
Qed.

Lemma createProvider_fallbacks_throws_only_exhausted : forall l s e,
  fst (createProvider_fallbacks import l s) = inl e ->
  forall y, In y l -> instantiation_fails import y.
Proof.
  induction l as [|a l IH]; intros s e H y Hy; simpl in *.
  - contradiction.
  - unfold call_instantiateProvider in H.
    destruct (instantiateProvider import a) as [e'|p] eqn:Ea.
    + destruct Hy as [<-|Hy]; [exists e'; exact Ea|].
      eapply IH; eauto.
    + simpl in H. discriminate H.
Qed.

End FactoryClaims.

Section FactoryClaim.
Import CryptoProviderFactory.

(** C2.  When the selected algorithm (the requested one, else the preferred
    one) is not cached and fails to instantiate, [createProvider] calls
    [instantiateProvider] on the fallbacks in list order: with the first one
    that instantiates, after only failing ones, it caches that provider under
    the fallback's name and returns it, having tried nothing after it; with
    none, it throws the [ALGORITHM_NOT_SUPPORTED] error after trying them all;
    and it throws only if every fallback failed. *)
Theorem createProvider_walks_fallbacks_in_order :
  forall import algorithm s e0,
    JsMap.get algorithm_eqb (cache s) (selectedAlgorithm algorithm s) = None ->
    instantiateProvider import (selectedAlgorithm algorithm s) = inl e0 ->
    (forall pre z post p,
        fallbacks_of s = (pre ++ z :: post)%list ->
        (forall y, In y pre -> instantiation_fails import y) ->
        instantiateProvider import z = inr p ->
        createProvider import algorithm s =
          (inr p,
           {| config := config s;
              cache := JsMap.set algorithm_eqb (cache s) z p;
              instantiations :=
                (instantiations s ++ selectedAlgorithm algorithm s :: pre ++ [z])%list |})) /\
    ((forall y, In y (fallbacks_of s) -> instantiation_fails import y) ->
     createProvider import algorithm s =
       (inl (CryptoError "Unable to create crypto provider. All algorithms failed."
               ALGORITHM_NOT_SUPPORTED None),
        {| config := config s; cache := cache s;
           instantiations :=
             (instantiations s ++ selectedAlgorithm algorithm s :: fallbacks_of s)%list |})) /\
    (forall e, fst (createProvider import algorithm s) = inl e ->
               forall y, In y (fallbacks_of s) -> instantiation_fails import y).
Proof.
  intros import algorithm s e0 Hcache Hsel.
  assert (Hstep : createProvider import algorithm s =
            createProvider_fallbacks import (fallbacks_of s)
              {| config := config s; cache := cache s;
                 instantiations :=
                   (instantiations s ++ [selectedAlgorithm algorithm s])%list |}).
  { unfold createProvider. rewrite Hcache.
    unfold call_instantiateProvider. rewrite Hsel. reflexivity. }
  split; [|split].
  - intros pre z post p Hfb Hpre Hz. rewrite Hstep, Hfb.
    rewrite (@createProvider_fallbacks_first_success import pre z post p _ Hpre Hz).
    simpl.
    rewrite <- app_assoc. reflexivity.
  - intros Hall. rewrite Hstep.
    rewrite (@createProvider_fallbacks_all_fail import _ _ Hall). simpl.
    rewrite <- app_assoc. reflexivity.
  - intros e He. rewrite Hstep in He.
    eapply createProvider_fallbacks_throws_only_exhausted. exact He.
Qed.

(** C2 on a run: preferred ECDH and first fallback SPHINCS+ have no provider,
    the second fallback RSA-OAEP is returned and cached. *)
Lemma createProvider_walks_fallbacks_in_order_witness :
  JsMap.get algorithm_eqb (cache Toy.factory) (selectedAlgorithm None Toy.factory)
    = None /\
  (exists e0, instantiateProvider Toy.loads_all (selectedAlgorithm None Toy.factory)
              = inl e0) /\
  createProvider Toy.loads_all None Toy.factory =
    (inr RSAProvider_instance,
     {| config := config Toy.factory;
        cache := [(RSA_OAEP, RSAProvider_instance)];
        instantiations := [ECDH; SPHINCS_plus; RSA_OAEP] |}).
Proof.
  split; [reflexivity|]. split; [eexists; reflexivity|].
  destruct (@createProvider_walks_fallbacks_in_order Toy.loads_all None Toy.factory
              (CryptoError "Unsupported algorithm: ECDH" ALGORITHM_NOT_SUPPORTED
                 (Some ECDH)) eq_refl eq_refl) as [Hfirst _].
  rewrite (Hfirst [SPHINCS_plus] RSA_OAEP [] RSAProvider_instance).
  - reflexivity.
  - reflexivity.
  - intros y [<-|[]]. eexists. reflexivity.
  - reflexivity.
Defined.

End FactoryClaim.

(** ** The providers and the envelope codec *)

Section ByteArrays.

Lemma firstn_app_exact : forall (A : Type) (a b : list A) n,
  List.length a = n -> firstn n (a ++ b)%list = a.
Proof.
  intros A a b n <-. rewrite firstn_app, Nat.sub_diag, firstn_all. simpl.
  apply app_nil_r.
Qed.

Lemma skipn_app_exact : forall (A : Type) (a b : list A) n,
  List.length a = n -> skipn n (a ++ b)%list = b.
Proof.
  intros A a b n <-. rewrite skipn_app, Nat.sub_diag, skipn_all. reflexivity.
Qed.

Lemma char_codes_binary_string : forall b, char_codes (binary_string b) = b.
Proof. intros b. apply list_byte_of_string_of_list_byte. Qed.

(** Splitting an envelope at 91 and 103 gives back its three parts. *)
Lemma envelope_split : forall spki iv ct : bytes,
  List.length spki = 91%nat -> List.length iv = 12%nat ->
  slice (spki ++ iv ++ ct)%list 0 91 = spki /\
  slice (spki ++ iv ++ ct)%list 91 103 = iv /\
  slice_from (spki ++ iv ++ ct)%list 103 = ct.
Proof.
  intros spki iv ct Hs Hi. unfold slice, slice_from.
  change (91 - 0)%nat with 91%nat. change (103 - 91)%nat with 12%nat.
  split; [|split].
  - change (skipn 0 (spki ++ iv ++ ct)%list) with (spki ++ iv ++ ct)%list.
    apply firstn_app_exact. exact Hs.
  - rewrite (skipn_app_exact spki (iv ++ ct)%list Hs).
    apply firstn_app_exact. exact Hi.
  - rewrite app_assoc. apply skipn_app_exact.
    rewrite length_app, Hs, Hi. reflexivity.
Qed.

End ByteArrays.

Section ProviderClaims.
Variable P : Platform.

(** C5.  For the provider's 2048-bit parameters and a key argument that is, or
    imports to, a public RSA-OAEP key usable for encryption, [encrypt]
    returns for every plaintext of at most 190 encoded bytes and throws
    [ENCRYPTION_FAILED] for every longer one, 191 bytes included. *)
Theorem RSAProvider_encrypt_capacity :
  forall data publicKey cryptoKey,
    RSAProvider.ensureCryptoKey P publicKey = inr cryptoKey ->
    key_type cryptoKey = public ->
    key_algorithm cryptoKey = RsaHashedKeyAlgorithm 2048 SHA_256 ->
    In encrypt_usage (key_usages cryptoKey) ->
    ((List.length (TextEncoder_encode P data) <= 190)%nat ->
     RSAProvider.encrypt P data publicKey =
       inr (RSAProvider.arrayBufferToBase64 P
              (RSAES_OAEP_encrypt P cryptoKey (TextEncoder_encode P data)))) /\
    ((190 < List.length (TextEncoder_encode P data))%nat ->
     RSAProvider.encrypt P data publicKey =
       inl (CryptoError
              "Message too large for RSA encryption. Consider using hybrid encryption."
              ENCRYPTION_FAILED (Some RSA_OAEP))) /\
    (List.length (TextEncoder_encode P data) = 191%nat ->
     exists message,
       RSAProvider.encrypt P data publicKey =
         inl (CryptoError message ENCRYPTION_FAILED (Some RSA_OAEP))).
Proof.
  intros data publicKey cryptoKey Hkey Htype Halg Huse.
  assert (Hlong : (190 < List.length (TextEncoder_encode P data))%nat ->
     RSAProvider.encrypt P data publicKey =
       inl (CryptoError
              "Message too large for RSA encryption. Consider using hybrid encryption."
              ENCRYPTION_FAILED (Some RSA_OAEP))).
  { intros Hlen. unfold RSAProvider.encrypt. rewrite Hkey. simpl.
    apply Nat.ltb_lt in Hlen. rewrite Hlen. reflexivity. }
  split; [|split].
  - intros Hlen. unfold RSAProvider.encrypt. rewrite Hkey. simpl.
    assert (E : (190 <? List.length (TextEncoder_encode P data))%nat = false)
      by (apply Nat.ltb_ge; exact Hlen).
    rewrite E. unfold subtle_encrypt_RSA_OAEP, RSA_OAEP_capacity.
    rewrite Htype, Halg.
    assert (U : existsb (usage_eqb encrypt_usage) (key_usages cryptoKey) = true).
    { apply existsb_exists. exists encrypt_usage. split; [exact Huse|reflexivity]. }
    rewrite U.
    change (2048 / 8 - 2 * hash_length SHA_256 - 2)%Z with 190%Z.
    assert (L : (Z.of_nat (List.length (TextEncoder_encode P data)) <=? 190)%Z = true)
      by (apply Z.leb_le; lia).
    rewrite L. reflexivity.
  - exact Hlong.
  - intros Hlen. eexists. apply Hlong. lia.
Qed.

(** C9.  [decapsulate] does not read the private key: two private keys give
    the same result on a ciphertext.  The result is the 32-byte array with the
    first 32 bytes of the ciphertext's SHA-256 digest written at its start,
    which for a 32-byte digest is the digest. *)
Theorem decapsulate_ignores_private_key :
  forall variant (p1 p2 c : bytes),
    MLKEMProvider.decapsulate P variant p1 c
      = MLKEMProvider.decapsulate P variant p2 c /\
    MLKEMProvider.decapsulate P variant p1 c
      = typed_array_set (zero_bytes 32) (firstn 32 (digest_SHA_256 P c)) 0 /\
    (List.length (digest_SHA_256 P c) = 32%nat ->
     MLKEMProvider.decapsulate P variant p1 c = digest_SHA_256 P c).
Proof.
  intros variant p1 p2 c.
  assert (E : MLKEMProvider.decapsulate P variant p1 c
              = typed_array_set (zero_bytes 32) (firstn 32 (digest_SHA_256 P c)) 0).
  { unfold MLKEMProvider.decapsulate. destruct variant; reflexivity. }
  split; [reflexivity|]. split; [exact E|].
  intros H. rewrite E. unfold typed_array_set.
  assert (F : firstn 32 (digest_SHA_256 P c) = digest_SHA_256 P c)
    by (rewrite <- H; apply firstn_all).
  rewrite F, H.
  change (firstn 0 (zero_bytes 32)) with (@nil byte).
  change (skipn (0 + 32) (zero_bytes 32)) with (@nil byte).
  simpl. apply app_nil_r.
Qed.

(** C1, where the code fails it.  [MLKEMProvider.encrypt] with a raw-byte
    public key encrypts under the key that call generated, and [decrypt] with
    a raw-byte private key decrypts under the key its own call generated:
    neither reads the key argument.  So when the platform rejects the
    ciphertext under that second, unrelated key, as AES-GCM authentication
    makes it do, decrypting what was encrypted throws instead of returning
    the plaintext. *)
Theorem MLKEMProvider_raw_keys_break_round_trip :
  forall (k1 k2 : CryptoKey) (iv : bytes) (m : string) (pub priv enc : bytes)
         (e : JsError),
    List.length iv = 12%nat ->
    encrypt_AES_GCM P k1 iv (TextEncoder_encode P m) = inr enc ->
    atob P (btoa P (binary_string (iv ++ enc)%list))
      = inr (binary_string (iv ++ enc)%list) ->
    decrypt_AES_GCM P k2 iv enc = inl e ->
    exists ct,
      MLKEMProvider.encrypt P k1 iv m (RawBytes pub) = inr ct /\
      MLKEMProvider.decrypt P k2 ct (RawBytes priv) = inl e /\
      MLKEMProvider.decrypt P k2 ct (RawBytes priv) <> inr m.
Proof.
  intros k1 k2 iv m pub priv enc e Hiv Henc Hb64 Hdec.
  exists (btoa P (binary_string (iv ++ enc)%list)).
  assert (D : MLKEMProvider.decrypt P k2 (btoa P (binary_string (iv ++ enc)%list))
                (RawBytes priv) = inl e).
  { unfold MLKEMProvider.decrypt. rewrite Hb64. cbn [rbind].
    rewrite char_codes_binary_string. unfold slice, slice_from.
    change (12 - 0)%nat with 12%nat.
    change (skipn 0 (iv ++ enc)%list) with (iv ++ enc)%list.
    rewrite (firstn_app_exact iv enc Hiv), (skipn_app_exact iv enc Hiv).
    rewrite Hdec. reflexivity. }
  split; [|split].
  - unfold MLKEMProvider.encrypt. rewrite Henc. reflexivity.
  - exact D.
  - rewrite D. discriminate.
Qed.

(** The other pairs of C1 do round-trip when the platform's primitives do. *)

Lemma MLKEMProvider_round_trip_with_key_object :
  forall (g1 g2 key : CryptoKey) (iv : bytes) (m : string) (enc : bytes),
    List.length iv = 12%nat ->
    encrypt_AES_GCM P key iv (TextEncoder_encode P m) = inr enc ->
    atob P (btoa P (binary_string (iv ++ enc)%list))
      = inr (binary_string (iv ++ enc)%list) ->
    decrypt_AES_GCM P key iv enc = inr (TextEncoder_encode P m) ->
    TextDecoder_decode P (TextEncoder_encode P m) = m ->
    exists ct,
      MLKEMProvider.encrypt P g1 iv m (KeyObject key) = inr ct /\
      MLKEMProvider.decrypt P g2 ct (KeyObject key) = inr m.
Proof.
  intros g1 g2 key iv m enc Hiv Henc Hb64 Hdec Htext.
  exists (btoa P (binary_string (iv ++ enc)%list)). split.
  - unfold MLKEMProvider.encrypt. rewrite Henc. reflexivity.
  - unfold MLKEMProvider.decrypt. rewrite Hb64. cbn [rbind].
    rewrite char_codes_binary_string. unfold slice, slice_from.
    change (12 - 0)%nat with 12%nat.
    change (skipn 0 (iv ++ enc)%list) with (iv ++ enc)%list.
    rewrite (firstn_app_exact iv enc Hiv), (skipn_app_exact iv enc Hiv).
    rewrite Hdec. simpl. rewrite Htext. reflexivity.
Qed.

(** X28.  [RSAProvider.decrypt] of [RSAProvider.encrypt] returns the message,
    for keys given as objects or as raw bytes that import, when the message
    has at most 190 bytes and the platform's RSAES-OAEP decryption inverts
    its encryption, base64 decodes what it encoded and the text decoder
    inverts the encoder. *)
Lemma RSAProvider_round_trip :
  forall (m : string) (publicKey privateKey : KeyInput) (pub priv : CryptoKey),
    RSAProvider.ensureCryptoKey P publicKey = inr pub ->
    RSAProvider.ensureCryptoKey P privateKey = inr priv ->
    (List.length (TextEncoder_encode P m) <= 190)%nat ->
    subtle_encrypt_RSA_OAEP P pub (TextEncoder_encode P m)
      = inr (RSAES_OAEP_encrypt P pub (TextEncoder_encode P m)) ->
    atob P (btoa P (binary_string (RSAES_OAEP_encrypt P pub (TextEncoder_encode P m))))
      = inr (binary_string (RSAES_OAEP_encrypt P pub (TextEncoder_encode P m))) ->
    subtle_decrypt_RSA_OAEP P priv (RSAES_OAEP_encrypt P pub (TextEncoder_encode P m))
      = inr (TextEncoder_encode P m) ->
    TextDecoder_decode P (TextEncoder_encode P m) = m ->
    exists ct,
      RSAProvider.encrypt P m publicKey = inr ct /\
      RSAProvider.decrypt P ct privateKey = inr m.
Proof.
  intros m publicKey privateKey pub priv Hpub Hpriv Hlen Henc Hb64 Hdec Htext.
  eexists. split.
  - unfold RSAProvider.encrypt. rewrite Hpub. simpl.
    assert (E : (190 <? List.length (TextEncoder_encode P m))%nat = false)
      by (apply Nat.ltb_ge; exact Hlen).
    rewrite E, Henc. reflexivity.
  - unfold RSAProvider.decrypt, RSAProvider.base64ToArrayBuffer,
      RSAProvider.arrayBufferToBase64.
    rewrite Hpriv. cbn [rbind]. rewrite Hb64. cbn [rbind].
    rewrite char_codes_binary_string, Hdec. simpl. rewrite Htext. reflexivity.
Qed.

(** X29.  [decryptMessage] of [encryptMessage] returns the message when the
    exported ephemeral public key has 91 bytes and the IV 12 - the offsets
    [decryptMessage] cuts the envelope at - and the key derived on the
    recipient's side decrypts what the sender's derived key encrypted. *)
Lemma encryptMessage_decryptMessage_round_trip :
  forall (ephemeral : CryptoKeyPair) (iv : bytes) (m : string)
         (recipientPublic recipientPrivate : CryptoKey)
         (ke kd ephemeralPublic : CryptoKey) (spki enc : bytes),
    List.length iv = 12%nat ->
    deriveKey_ECDH_AES_GCM P recipientPublic (privateKey ephemeral) [encrypt_usage]
      = inr ke ->
    encrypt_AES_GCM P ke iv (TextEncoder_encode P m) = inr enc ->
    exportKey_spki P (publicKey ephemeral) = inr spki ->
    List.length spki = 91%nat ->
    atob P (btoa P (binary_string (spki ++ iv ++ enc)%list))
      = inr (binary_string (spki ++ iv ++ enc)%list) ->
    importKey_spki_ECDH P spki = inr ephemeralPublic ->
    deriveKey_ECDH_AES_GCM P ephemeralPublic recipientPrivate [decrypt_usage]
      = inr kd ->
    decrypt_AES_GCM P kd iv enc = inr (TextEncoder_encode P m) ->
    TextDecoder_decode P (TextEncoder_encode P m) = m ->
    exists envelope,
      CryptoUtils.encryptMessage P ephemeral iv m recipientPublic = inr envelope /\
      CryptoUtils.decryptMessage P envelope recipientPrivate = inr m.
Proof.
  intros ephemeral iv m rpub rpriv ke kd epub spki enc
         Hiv Hke Henc Hspki Hlen Hb64 Himp Hkd Hdec Htext.
  eexists. split.
  - unfold CryptoUtils.encryptMessage. rewrite Hke. simpl.
    rewrite Henc. simpl. rewrite Hspki. reflexivity.
  - unfold CryptoUtils.decryptMessage, CryptoUtils.base64ToBuffer,
      CryptoUtils.bufferToBase64.
    rewrite Hb64. cbn [rbind]. rewrite char_codes_binary_string.
    destruct (envelope_split spki iv enc Hlen Hiv) as [E1 [E2 E3]].
    rewrite E1, E2, E3, Himp. simpl. rewrite Hkd. simpl.
    rewrite Hdec. simpl. rewrite Htext. reflexivity.
Qed.

End ProviderClaims.

(** *** Concrete runs on the toy platform *)

Section ProviderRuns.

(** C5 on a short message and on one of 191 bytes. *)
Lemma RSAProvider_encrypt_capacity_witness :
  (List.length (TextEncoder_encode Toy.platform "hello") <= 190)%nat /\
  (exists c, RSAProvider.encrypt Toy.platform "hello"
               (RawBytes (x01 :: repeat x03 8)) = inr c) /\
  List.length (TextEncoder_encode Toy.platform Toy.long_message) = 191%nat /\
  (exists message,
      RSAProvider.encrypt Toy.platform Toy.long_message
        (RawBytes (x01 :: repeat x03 8))
      = inl (CryptoError message ENCRYPTION_FAILED (Some RSA_OAEP))).
Proof.
  assert (Hshort : (List.length (TextEncoder_encode Toy.platform "hello") <= 190)%nat)
    by (vm_compute; lia).
  assert (Hlong : List.length (TextEncoder_encode Toy.platform Toy.long_message) = 191%nat)
    by (vm_compute; reflexivity).
  assert (Hkey : RSAProvider.ensureCryptoKey Toy.platform
                   (RawBytes (x01 :: repeat x03 8))
                 = inr (Toy.rsa_key public (repeat x03 8)))
    by (vm_compute; reflexivity).
  assert (Huse : In encrypt_usage (key_usages (Toy.rsa_key public (repeat x03 8))))
    by (left; reflexivity).
  destruct (@RSAProvider_encrypt_capacity Toy.platform "hello" _ _ Hkey
              eq_refl eq_refl Huse) as [Hok _].
  destruct (@RSAProvider_encrypt_capacity Toy.platform Toy.long_message _ _ Hkey
              eq_refl eq_refl Huse) as [_ [_ Hfail]].
  split; [exact Hshort|]. split; [eexists; exact (Hok Hshort)|].
  split; [exact Hlong|]. exact (Hfail Hlong).
Defined.

(** C9 with two private keys on one ciphertext. *)
Lemma decapsulate_ignores_private_key_witness :
  List.length (digest_SHA_256 Toy.platform [x02; x03]) = 32%nat /\
  MLKEMProvider.decapsulate Toy.platform MLKEMProvider.ML_KEM_768_variant
    [x01] [x02; x03]
  = MLKEMProvider.decapsulate Toy.platform MLKEMProvider.ML_KEM_768_variant
      [x09; x09] [x02; x03] /\
  MLKEMProvider.decapsulate Toy.platform MLKEMProvider.ML_KEM_768_variant
    [x01] [x02; x03]
  = digest_SHA_256 Toy.platform [x02; x03].
Proof.
  assert (H : List.length (digest_SHA_256 Toy.platform [x02; x03]) = 32%nat)
    by reflexivity.
  destruct (@decapsulate_ignores_private_key Toy.platform
              MLKEMProvider.ML_KEM_768_variant [x01] [x09; x09] [x02; x03])
    as [Hsame [_ Hdigest]].
  split; [exact H|]. split; [exact Hsame | exact (Hdigest H)].
Defined.

(** C1 on a run: raw-byte keys, two generated keys. *)
Lemma MLKEMProvider_raw_keys_break_round_trip_witness :
  List.length Toy.nonce = 12%nat /\
  exists ct,
    MLKEMProvider.encrypt Toy.platform Toy.generated_1 Toy.nonce "hello"
      (RawBytes (repeat x01 1184)) = inr ct /\
    MLKEMProvider.decrypt Toy.platform Toy.generated_2 ct (RawBytes (repeat x02 32))
      = inl Toy.operation_error.
Proof.
  assert (Hiv : List.length Toy.nonce = 12%nat) by reflexivity.
  split; [exact Hiv|].
  destruct (@MLKEMProvider_raw_keys_break_round_trip Toy.platform
              Toy.generated_1 Toy.generated_2 Toy.nonce "hello"
              (repeat x01 1184) (repeat x02 32)
              (TextEncoder_encode Toy.platform "hello"
               ++ Toy.tag Toy.generated_1 Toy.nonce)%list
              Toy.operation_error Hiv)
    as [ct [Henc [Hdec _]]].
  - vm_compute. reflexivity.
  - reflexivity.
  - vm_compute. reflexivity.
  - exists ct. split; assumption.
Defined.

(** The envelope codec, the classical provider and the post-quantum provider
    with one [CryptoKey] on both sides return the plaintext. *)
Example envelope_round_trip_sample :
  (let? envelope :=
     CryptoUtils.encryptMessage Toy.platform (Toy.ec_pair x05) Toy.nonce "hello"
       (publicKey (Toy.ec_pair x09)) in
   CryptoUtils.decryptMessage Toy.platform envelope (privateKey (Toy.ec_pair x09)))
  = inr "hello".
Proof. vm_compute. reflexivity. Qed.

Example RSAProvider_round_trip_sample :
  (let? ct := RSAProvider.encrypt Toy.platform "hello"
                (RawBytes (x01 :: repeat x03 8)) in
   RSAProvider.decrypt Toy.platform ct (RawBytes (x02 :: repeat x03 8)))
  = inr "hello".
Proof. vm_compute. reflexivity. Qed.

Example MLKEMProvider_round_trip_sample :
  (let? ct := MLKEMProvider.encrypt Toy.platform Toy.generated_2 Toy.nonce "hello"
                (KeyObject Toy.generated_1) in
   MLKEMProvider.decrypt Toy.platform Toy.generated_2 ct (KeyObject Toy.generated_1))
  = inr "hello".
Proof. vm_compute. reflexivity. Qed.

End ProviderRuns.

(* ===================================================================== *)
(** * Part III. Further properties of the embedded code                   *)
(* ===================================================================== *)

(** ** The key table under the operations *)

Section KeyTableFacts.
Import KeyManagementService KeyManagementProperties KeyTable.
Variable env : Environment.

Lemma table_steps_trans : forall t1 t2 t3,
  table_steps t1 t2 -> table_steps t2 t3 -> table_steps t1 t3.
Proof.
  intros t1 t2 t3 H. revert t3. induction H as [|a b c Hab Hbc IH]; intros t3 H3.
  - exact H3.
  - eapply steps_more; [exact Hab | apply IH; exact H3].
Qed.

Lemma table_steps_one : forall t1 t2, table_step t1 t2 -> table_steps t1 t2.
Proof. intros t1 t2 H. eapply steps_more; [exact H | apply steps_none]. Qed.

Lemma generateKey_table : forall a s,
  table_steps (keys s) (keys (snd (generateKey env a s))).
Proof.
  intros a s. unfold generateKey.
  unfold bind, generateKeyId, createKeyPair, DateNow, MathRandom, ret, gets,
    modify, emitEvent, subtleGenerateKey, throw, set_keys, set_keyStore,
    set_emitted; simpl.
  destruct (algorithm_eqb a RSA_OAEP) eqn:Ea; simpl; [|apply steps_none].
  apply algorithm_eqb_spec in Ea. subst a.
  destruct (subtle_generateKey env (keygen_calls s)) as [e|kp]; simpl;
    [apply steps_none|].
  destruct (JsMap.get algorithm_eqb (rotationPolicies s) RSA_OAEP); simpl;
    apply table_steps_one; apply step_new; unfold new_record; simpl;
    repeat split.
Qed.

Lemma rotateKey_table : forall k s,
  table_steps (keys s) (keys (snd (rotateKey env k s))).
Proof.
  intros k s.
  destruct (JsMap.get String.eqb (keys s) k) as [md|] eqn:Hg.
  - destruct (rotateKey_known env k s Hg)
      as [s1 [Hk1 [_ [_ [_ [_ [_ [_ H]]]]]]]].
    assert (H1 : table_steps (keys s) (keys s1)).
    { rewrite Hk1. eapply steps_more.
      - apply (@step_write (keys s) k md (WriteStatus rotating) Hg).
        intros st E. injection E as <-. left. reflexivity.
      - apply table_steps_one.
        apply (@step_write _ k (with_status md rotating)
                 (WriteRotatedAt (Date_now env (clock_reads s)))).
        + apply (JsMap_get_set_eq String.eqb string_eqb_spec).
        + intros st E. discriminate E. }
    pose proof (generateKey_table (algorithm md) s1) as H2.
    destruct (generateKey env (algorithm md) s1) as [[e|id] s2]; simpl in H2.
    + rewrite H. simpl. eapply table_steps_trans; eauto.
    + destruct H as [s3 [ev [Hr [Hk3 _]]]]. rewrite Hr. simpl. rewrite Hk3.
      eapply table_steps_trans; eauto.
  - rewrite (rotateKey_unknown env k s Hg). apply steps_none.
Qed.

Lemma rotate_each_table : forall ks s,
  table_steps (keys s) (keys (snd (rotate_each env ks s))).
Proof.
  induction ks as [|k rest IH]; intros s; simpl; [apply steps_none|].
  pose proof (rotateKey_table k s) as H1.
  destruct (rotateKey env k s) as [r s1]. specialize (IH s1).
  destruct (rotate_each env rest s1) as [outs s2]. simpl in *.
  eapply table_steps_trans; eauto.
Qed.

(** Every operation changes the key table only by assignments to records it
    holds and by [set]s of new records. *)
Lemma run_table : forall op s, table_steps (keys s) (keys (run env op s)).
Proof.
  intros op s. destruct op as [a|k|k|  |  |k|a p]; simpl.
  - apply generateKey_table.
  - apply rotateKey_table.
  - destruct (JsMap.get String.eqb (keys s) k) as [md|] eqn:Hg.
    + rewrite (revokeKey_known env k s Hg). simpl. apply table_steps_one.
      apply (@step_write (keys s) k md (WriteStatus revoked) Hg).
      intros st E. injection E as <-. right. reflexivity.
    + rewrite (revokeKey_unknown env k s Hg). apply steps_none.
  - destruct (checkKeyRotationNeeds_same env s) as [fl [_ [-> _]]].
    apply steps_none.
  - unfold performScheduledRotations. unfold bind at 1.
    destruct (checkKeyRotationNeeds_same env s) as [fl [Hf [Hs _]]].
    destruct (checkKeyRotationNeeds env s) as [r s1]. simpl in Hf, Hs. subst r.
    rewrite performScheduledRotations_loop_outcomes. simpl.
    rewrite <- Hs. apply rotate_each_table.
  - destruct (JsMap.get String.eqb (keys s) k) as [md|] eqn:Hg.
    + destruct (recordKeyUsage_known env k s Hg) as [-> _].
      apply table_steps_one.
      apply (@step_write (keys s) k md
               (WriteLastUsed (Date_now env (clock_reads s))) Hg).
      intros st E. discriminate E.
    + rewrite (recordKeyUsage_unknown env k s Hg). apply steps_none.
  - apply steps_none.
Qed.

Lemma run_all_table : forall ops s,
  table_steps (keys s) (keys (run_all env ops s)).
Proof.
  unfold run_all. induction ops as [|op rest IH]; intros s; simpl.
  - apply steps_none.
  - eapply table_steps_trans; [apply run_table | apply IH].
Qed.

(** An invariant of single table changes holds along any number of them. *)
Lemma table_steps_invariant : forall (I : JsMap.t string KeyMetadata -> Prop),
  (forall t t', table_step t t' -> I t -> I t') ->
  forall t t', table_steps t t' -> I t -> I t'.
Proof.
  intros I Hstep t t' H. induction H as [|a b c Hab Hbc IH]; intros Ha.
  - exact Ha.
  - apply IH. eapply Hstep; eauto.
Qed.

End KeyTableFacts.

Section JsMapMoreFacts.
Variables K V : Type.
Variable eqb : K -> K -> bool.
Hypothesis eqb_spec : forall a b, eqb a b = true <-> a = b.

Lemma JsMap_get_In : forall (m : JsMap.t K V) k v,
  JsMap.get eqb m k = Some v -> In (k, v) m.
Proof.
  induction m as [|[k0 v0] r IH]; intros k v H; simpl in *; [discriminate|].
  destruct (eqb k0 k) eqn:E.
  - apply eqb_spec in E. injection H as <-. subst. left. reflexivity.
  - right. apply IH. exact H.
Qed.

Lemma JsMap_In_get : forall (m : JsMap.t K V) k v,
  NoDup (JsMap.keys m) -> In (k, v) m -> JsMap.get eqb m k = Some v.
Proof.
  induction m as [|[k0 v0] r IH]; intros k v Hnd Hin; simpl in *; [contradiction|].
  unfold JsMap.keys in Hnd. simpl in Hnd. inversion Hnd as [|x l Hnot Hnd']. subst.
  destruct Hin as [E|Hin].
  - injection E as <- <-. rewrite (eqb_refl_of_spec eqb eqb_spec). reflexivity.
  - destruct (eqb k0 k) eqn:E.
    + apply eqb_spec in E. subst k0. exfalso. apply Hnot.
      change k with (fst (k, v)). apply in_map. exact Hin.
    + apply IH; assumption.
Qed.

(** The entries after a [set]: the new value under the key, or entries that
    were there before. *)
Lemma JsMap_set_In : forall (m : JsMap.t K V) k v k' v',
  In (k', v') (JsMap.set eqb m k v) -> (k' = k /\ v' = v) \/ In (k', v') m.
Proof.
  induction m as [|[k0 v0] r IH]; intros k v k' v' H; simpl in *.
  - destruct H as [E|[]]. injection E as <- <-. left. split; reflexivity.
  - destruct (eqb k0 k) eqn:E.
    + apply eqb_spec in E. subst k0. destruct H as [H|H].
      * injection H as <- <-. left. split; reflexivity.
      * right. right. exact H.
    + destruct H as [H|H].
      * right. left. exact H.
      * destruct (IH _ _ _ _ H) as [H1|H1]; [left; exact H1 | right; right; exact H1].
Qed.

Lemma JsMap_keys_set_absent : forall (m : JsMap.t K V) k v,
  JsMap.get eqb m k = None ->
  JsMap.keys (JsMap.set eqb m k v) = (JsMap.keys m ++ [k])%list.
Proof.
  unfold JsMap.keys.
  induction m as [|[k0 v0] r IH]; intros k v H; simpl in *; [reflexivity|].
  destruct (eqb k0 k) eqn:E; [discriminate|]. simpl. f_equal. apply IH. exact H.
Qed.

Lemma JsMap_get_None_not_In : forall (m : JsMap.t K V) k,
  JsMap.get eqb m k = None -> ~ In k (JsMap.keys m).
Proof.
  unfold JsMap.keys.
  induction m as [|[k0 v0] r IH]; intros k H Hin; simpl in *; [contradiction|].
  destruct (eqb k0 k) eqn:E; [discriminate|].
  destruct Hin as [->|Hin].
  - rewrite (eqb_refl_of_spec eqb eqb_spec) in E. discriminate.
  - eapply IH; eauto.
Qed.

Lemma JsMap_NoDup_set : forall (m : JsMap.t K V) k v,
  NoDup (JsMap.keys m) -> NoDup (JsMap.keys (JsMap.set eqb m k v)).
Proof.
  intros m k v Hnd.
  destruct (JsMap.get eqb m k) as [x|] eqn:Hg.
  - rewrite JsMap_keys_set_present; [exact Hnd | congruence].
  - rewrite JsMap_keys_set_absent by exact Hg.
    apply NoDup_app; [exact Hnd | repeat constructor; intros [] |].
    intros x Hx [<-|[]]. eapply JsMap_get_None_not_In; eauto.
Qed.

End JsMapMoreFacts.

(** ** The key manager: errors, edges and invariants *)

Section KeyManagementMore.
Import KeyManagementService KeyManagementProperties KeyTable.
Variable env : Environment.

Ltac run_service :=
  unfold bind, try_catch, generateKeyId, createKeyPair, mutate_metadata, DateNow,
    MathRandom, getCurrentQuantumThreatLevel, ret, gets, modify, emitEvent,
    subtleGenerateKey, throw, set_keys, set_keyStore, set_emitted,
    set_rotationPolicies; simpl.

Lemma string_length_append : forall a b : string,
  String.length (a ++ b) = (String.length a + String.length b)%nat.
Proof.
  induction a as [|c a IH]; intros b; simpl; [reflexivity|].
  rewrite IH. reflexivity.
Qed.

Lemma append_pub_differs : forall id : string, id ++ "_pub" <> id.
Proof.
  intros id E. apply (f_equal String.length) in E.
  rewrite string_length_append in E. simpl in E. lia.
Qed.

(** What a returning [generateKey] has done, in full. *)
Lemma generateKey_returns : forall a s id,
  fst (generateKey env a s) = inr id ->
  a = RSA_OAEP /\
  exists kp md ev,
    subtle_generateKey env (keygen_calls s) = inr kp /\
    keys (snd (generateKey env a s)) = JsMap.set String.eqb (keys s) id md /\
    keyStore (snd (generateKey env a s)) =
      JsMap.set String.eqb
        (JsMap.set String.eqb (keyStore s) id (privateKey kp))
        (id ++ "_pub") (publicKey kp) /\
    emitted (snd (generateKey env a s)) = (emitted s ++ [ev])%list /\
    keyId ev = id /\ type ev = ev_created /\ event_algorithm ev = RSA_OAEP /\
    previousKeyId ev = None /\
    new_record id md /\
    created md = Date_now env (S (clock_reads s)) /\
    expiresAt md =
      match JsMap.get algorithm_eqb (rotationPolicies s) RSA_OAEP with
      | Some policy => Some (Date_now env (S (S (clock_reads s))) + maxAge policy)%Z
      | None => None
      end.
Proof.
  intros a s id. unfold generateKey. run_service.
  destruct (algorithm_eqb a RSA_OAEP) eqn:Ea; simpl; [|discriminate].
  apply algorithm_eqb_spec in Ea. subst a.
  destruct (subtle_generateKey env (keygen_calls s)) as [e|kp]; simpl;
    [discriminate|].
  destruct (JsMap.get algorithm_eqb (rotationPolicies s) RSA_OAEP); simpl;
    intros E; injection E as <-; (split; [reflexivity|]);
    exists kp; eexists; eexists; unfold new_record; simpl; repeat split.
Qed.

(** A rejected key generation: [generateKey] throws the rejection and the
    service is as before. *)
Lemma generateKey_rejected : forall s e,
  subtle_generateKey env (keygen_calls s) = inl e ->
  fst (generateKey env RSA_OAEP s) = inl e /\
  same_service s (snd (generateKey env RSA_OAEP s)).
Proof.
  intros s e H. unfold generateKey. run_service. rewrite H. simpl.
  unfold same_service. repeat split.
Qed.

Lemma recordKeyUsage_known_state : forall k s md,
  JsMap.get String.eqb (keys s) k = Some md ->
  recordKeyUsage env k s =
    (inr tt,
     {| keys := JsMap.set String.eqb (keys s) k
                  (with_lastUsed md (Date_now env (clock_reads s)));
        keyStore := keyStore s;
        rotationPolicies := rotationPolicies s;
        emitted := (emitted s ++
                    [{| keyId := k; type := ev_used;
                        timestamp := Date_now env (S (clock_reads s));
                        event_algorithm := algorithm md;
                        details := "Key used for operation";
                        previousKeyId := None |}])%list;
        clock_reads := S (S (clock_reads s));
        random_draws := random_draws s;
        keygen_calls := keygen_calls s |}).
Proof.
  intros k s md H. unfold recordKeyUsage. run_service. rewrite H. simpl.
  rewrite ?H. reflexivity.
Qed.

(** X1.  An unknown key id: [rotateKey] and [revokeKey] throw
    ["Key <id> not found"] and [recordKeyUsage] returns, and in all three
    cases nothing at all has changed, not even the clock position; the
    getters give [null]. *)
Theorem unknown_key_is_rejected_without_effect :
  forall s k,
    JsMap.get String.eqb (keys s) k = None ->
    rotateKey env k s = (inl (Error ("Key " ++ k ++ " not found")), s) /\
    revokeKey env k s = (inl (Error ("Key " ++ k ++ " not found")), s) /\
    recordKeyUsage env k s = (inr tt, s) /\
    getKeyMetadata k s = (inr None, s).
Proof.
  intros s k H.
  split; [apply rotateKey_unknown; exact H|].
  split; [apply revokeKey_unknown; exact H|].
  split; [apply recordKeyUsage_unknown; exact H|].
  unfold getKeyMetadata, gets. rewrite H. reflexivity.
Qed.

(** X2.  When the platform rejects the key generation inside [rotateKey], the
    rejection is thrown after the old record was already written: the key is
    left ['rotating'] with [rotatedAt] set, no new key exists, the key store
    is untouched and no event was emitted. *)
Theorem rotateKey_failed_generation_leaves_key_rotating :
  forall s k md e,
    JsMap.get String.eqb (keys s) k = Some md ->
    algorithm md = RSA_OAEP ->
    subtle_generateKey env (keygen_calls s) = inl e ->
    exists s',
      rotateKey env k s = (inl e, s') /\
      keys s' = JsMap.set String.eqb
                  (JsMap.set String.eqb (keys s) k (with_status md rotating)) k
                  (with_rotatedAt (with_status md rotating)
                     (Date_now env (clock_reads s))) /\
      JsMap.get String.eqb (keys s') k =
        Some (with_rotatedAt (with_status md rotating)
                (Date_now env (clock_reads s))) /\
      JsMap.keys (keys s') = JsMap.keys (keys s) /\
      keyStore s' = keyStore s /\ emitted s' = emitted s.
Proof.
  intros s k md e Hg Ha He.
  destruct (rotateKey_known env k s Hg)
    as [s1 [Hk1 [Hs1 [_ [He1 [Hc1 [_ [_ H]]]]]]]].
  rewrite <- Hc1 in He. rewrite Ha in H.
  destruct (generateKey_rejected s1 He) as [Hf [Hk [Hs [_ Hev]]]].
  destruct (generateKey env RSA_OAEP s1) as [r s2]. simpl in *. subst r.
  exists s2. split; [exact H|].
  rewrite Hk, Hs, Hev, Hk1, Hs1, He1.
  split; [reflexivity|]. split.
  - apply (JsMap_get_set_eq String.eqb string_eqb_spec).
  - split; [|split; reflexivity].
    rewrite !JsMap_keys_set_present; [reflexivity | congruence |].
    rewrite (JsMap_get_set_eq String.eqb string_eqb_spec). discriminate.
Qed.

(** X3.  No operation removes an id from the key table or moves it: after
    any sequence of operations the ids of the table are the earlier ids, in
    the same order, followed by the ids that are new; so an id that had a
    record still has one (revocation included).  What is stored under an id
    may have changed: its record is written to, and replaced when a
    generated id is one already in the table. *)
Theorem key_table_never_loses_a_key :
  forall ops s,
    (exists more,
        JsMap.keys (keys (run_all env ops s)) = (JsMap.keys (keys s) ++ more)%list) /\
    (forall k, JsMap.get String.eqb (keys s) k <> None ->
               JsMap.get String.eqb (keys (run_all env ops s)) k <> None).
Proof.
  intros ops s. split.
  - apply (table_steps_invariant
             (fun t => exists more,
                  JsMap.keys t = (JsMap.keys (keys s) ++ more)%list))
      with (t := keys s); [|apply run_all_table | exists []; symmetry; apply app_nil_r].
    intros t t' Hstep [more Ht]. destruct Hstep as [t k m w Hg _|t id md _].
    + exists more. rewrite JsMap_keys_set_present; [exact Ht | congruence].
    + destruct (JsMap.get String.eqb t id) eqn:Hg.
      * exists more. rewrite JsMap_keys_set_present; [exact Ht | congruence].
      * exists (more ++ [id])%list.
        rewrite JsMap_keys_set_absent by exact Hg.
        rewrite Ht, app_assoc. reflexivity.
  - intros k H.
    apply (table_steps_invariant
             (fun t => JsMap.get String.eqb t k <> None)) with (t := keys s);
      [|apply run_all_table | exact H].
    intros t t' Hstep Ht.
    destruct Hstep; apply JsMap_get_set_present; exact Ht.
Qed.

Lemma table_step_well_formed : forall t t',
  table_step t t' -> well_formed t -> well_formed t'.
Proof.
  intros t t' Hstep [Hnd Hrec]. split.
  - destruct Hstep; apply (JsMap_NoDup_set String.eqb string_eqb_spec); exact Hnd.
  - intros k' md' Hin. destruct Hstep as [t k m w Hg Hw|t id md Hnew].
    + apply (JsMap_set_In String.eqb string_eqb_spec) in Hin.
      destruct Hin as [[-> ->]|Hin]; [|apply Hrec; exact Hin].
      apply (JsMap_get_In String.eqb string_eqb_spec) in Hg.
      destruct (Hrec _ _ Hg) as [H1 [H2 [H3 [H4 [H5 H6]]]]].
      destruct w as [st|d|d]; simpl; repeat (split; [assumption|]); try assumption.
      destruct (Hw st eq_refl) as [->| ->]; discriminate.
    + apply (JsMap_set_In String.eqb string_eqb_spec) in Hin.
      destruct Hin as [[-> ->]|Hin]; [|apply Hrec; exact Hin].
      destruct Hnew as [H1 [H2 [H3 [_ [_ [H4 [H5 H6]]]]]]].
      repeat (split; [assumption|]). rewrite H3. discriminate.
Qed.

(** X4.  In every state the service can reach, the key table has unique ids, each
    record is stored under its own id, and each is an RSA-OAEP key - not
    quantum-safe, security level ['low'], usage ['encryption'] - whose status
    is not ['expired']: no other kind of key can be created, and nothing
    ever expires a key. *)
Theorem reachable_key_table_is_well_formed :
  forall s, reachable env s -> well_formed (keys s).
Proof.
  induction 1 as [|s op _ IH].
  - split; [constructor | intros k md []].
  - eapply table_steps_invariant; [|apply run_table | exact IH].
    apply table_step_well_formed.
Qed.

(** X5.  A returning [rotateKey] has emitted exactly two events, in this
    order: ['created'] for the new key, then ['rotated'] for the new key with
    the old key as [previousKeyId] and the old key's algorithm. *)
Theorem rotateKey_emits_created_then_rotated :
  forall s k newId s',
    rotateKey env k s = (inr newId, s') ->
    exists md ev1 ev2,
      JsMap.get String.eqb (keys s) k = Some md /\
      emitted s' = (emitted s ++ [ev1; ev2])%list /\
      type ev1 = ev_created /\ keyId ev1 = newId /\ previousKeyId ev1 = None /\
      type ev2 = ev_rotated /\ keyId ev2 = newId /\ previousKeyId ev2 = Some k /\
      event_algorithm ev2 = algorithm md.
Proof.
  intros s k newId s' Hr.
  destruct (JsMap.get String.eqb (keys s) k) as [md|] eqn:Hg;
    [|rewrite (rotateKey_unknown env k s Hg) in Hr; discriminate Hr].
  destruct (rotateKey_known env k s Hg)
    as [s1 [_ [_ [_ [He1 [_ [_ [_ H]]]]]]]].
  pose proof (generateKey_returns (algorithm md) s1) as Hgen.
  destruct (generateKey env (algorithm md) s1) as [[e|id] s2];
    [rewrite H in Hr; discriminate Hr|].
  destruct H as [s3 [ev [Hr3 [_ [_ [_ [Hev [Ht [Hk [Hp Ha]]]]]]]]]].
  rewrite Hr3 in Hr. injection Hr as <- <-.
  destruct (Hgen id eq_refl)
    as [_ [kp [mdn [ev1 [_ [_ [_ [Hev1 [Hk1 [Ht1 [_ [Hp1 _]]]]]]]]]]]].
  simpl in Hev1. exists md, ev1, ev. split; [reflexivity|].
  rewrite Hev, Hev1, He1, <- app_assoc. simpl.
  repeat (split; [assumption || reflexivity|]). assumption.
Qed.

(** X6.  When [generateKey] returns an id, the platform's key pair is what the
    getters give back for that id - [getKey] the private half, [getPublicKey]
    the public half - and [getKeyMetadata] gives an ['active'] record.  Its
    creation time is the second clock reading of the call; its expiry is not
    computed from the creation time but from a further reading of the clock,
    the third, plus the [maxAge] of the policy then in force for RSA-OAEP
    (none without a policy).  The sum is taken within the range of a [Date],
    8.64e15 milliseconds either side of the epoch. *)
Theorem generateKey_result_can_be_looked_up :
  forall a s id,
    fst (generateKey env a s) = inr id ->
    (forall policy,
        fst (getRotationPolicy RSA_OAEP s) = inr (Some policy) ->
        (Z.abs (Date_now env (S (S (clock_reads s))) + maxAge policy)
         <= 8640000000000000)%Z) ->
    exists kp md,
      subtle_generateKey env (keygen_calls s) = inr kp /\
      fst (getKey id (snd (generateKey env a s))) = inr (Some (privateKey kp)) /\
      fst (getPublicKey id (snd (generateKey env a s))) = inr (Some (publicKey kp)) /\
      fst (getKeyMetadata id (snd (generateKey env a s))) = inr (Some md) /\
      status md = active /\ algorithm md = RSA_OAEP /\ metadata_id md = id /\
      created md = Date_now env (S (clock_reads s)) /\
      expiresAt md =
        match fst (getRotationPolicy RSA_OAEP s) with
        | inr (Some policy) =>
            Some (Date_now env (S (S (clock_reads s))) + maxAge policy)%Z
        | _ => None
        end.
Proof.
  intros a s id H _.
  destruct (generateKey_returns a s H)
    as [_ [kp [md [ev [Hkp [Hk [Hs [_ [_ [_ [_ [_ [Hnew [Hcr Hexp]]]]]]]]]]]]]].
  destruct Hnew as [H1 [H2 [H3 _]]].
  exists kp, md. unfold getKey, getPublicKey, getKeyMetadata, getRotationPolicy, gets.
  simpl. rewrite Hk, Hs.
  split; [exact Hkp|]. split.
  - rewrite (JsMap_get_set_neq String.eqb string_eqb_spec)
      by apply append_pub_differs.
    rewrite (JsMap_get_set_eq String.eqb string_eqb_spec). reflexivity.
  - split; [rewrite (JsMap_get_set_eq String.eqb string_eqb_spec); reflexivity|].
    split; [rewrite (JsMap_get_set_eq String.eqb string_eqb_spec); reflexivity|].
    repeat (split; [assumption|]). rewrite Hexp.
    destruct (JsMap.get algorithm_eqb (rotationPolicies s) RSA_OAEP); reflexivity.
Qed.

(** X7.  [recordKeyUsage] on a known key, whatever its status: [lastUsed]
    becomes the time of the call and nothing else in the record changes, the
    other records and the key store are untouched, and one ['used'] event for
    the key is emitted. *)
Theorem recordKeyUsage_stamps_lastUsed :
  forall s k md,
    JsMap.get String.eqb (keys s) k = Some md ->
    exists s' ev,
      recordKeyUsage env k s = (inr tt, s') /\
      JsMap.get String.eqb (keys s') k =
        Some (with_lastUsed md (Date_now env (clock_reads s))) /\
      (forall k', k' <> k ->
         JsMap.get String.eqb (keys s') k' = JsMap.get String.eqb (keys s) k') /\
      keyStore s' = keyStore s /\
      emitted s' = (emitted s ++ [ev])%list /\
      type ev = ev_used /\ keyId ev = k /\ event_algorithm ev = algorithm md.
Proof.
  intros s k md H. rewrite (recordKeyUsage_known_state k s H).
  eexists. eexists. split; [reflexivity|]. simpl.
  split; [apply (JsMap_get_set_eq String.eqb string_eqb_spec)|].
  split.
  - intros k' Hne.
    apply (JsMap_get_set_neq String.eqb string_eqb_spec). congruence.
  - repeat split.
Qed.

End KeyManagementMore.

(** ** The key manager: rotation scan, queries and policies *)

Section KeyManagementQueriesFacts.
Import KeyManagementService KeyManagementProperties KeyTable KeyManagementQueries.
Variable env : Environment.

Lemma status_eqb_spec : forall a b, status_eqb a b = true <-> a = b.
Proof.
  intros a b. split.
  - destruct a, b; simpl; intros H; try reflexivity; discriminate H.
  - intros ->. destruct b; reflexivity.
Qed.

(** The loop of [checkKeyRotationNeeds]: what it adds to the accumulator. *)
Lemma checkKeyRotationNeeds_loop_flags : forall entries now acc s r s',
  checkKeyRotationNeeds_loop env now entries acc s = (inr r, s') ->
  (forall id, In id r ->
     In id acc \/
     exists md, In (id, md) entries /\ status md = active /\
                JsMap.get algorithm_eqb (rotationPolicies s) (algorithm md) <> None /\
                ((exists e, expiresAt md = Some e /\ (e < now)%Z)
                 \/ isQuantumSafe md = false)) /\
  (forall id, In id acc -> In id r) /\
  (forall id md e, In (id, md) entries -> status md = active ->
     JsMap.get algorithm_eqb (rotationPolicies s) (algorithm md) <> None ->
     expiresAt md = Some e -> (e < now)%Z -> In id r).
Proof.
  induction entries as [|[k md] rest IH]; intros now acc s r s' H; simpl in H.
  - unfold ret in H. injection H as <- <-.
    split; [intros id Hin; left; exact Hin|].
    split; [intros id Hin; exact Hin|]. intros id md e [].
  - destruct (status_eqb (status md) active) eqn:Est; simpl in H.
    + apply status_eqb_spec in Est.
      unfold bind, gets, getCurrentQuantumThreatLevel, MathRandom, ret in H.
      simpl in H.
      destruct (JsMap.get algorithm_eqb (rotationPolicies s) (algorithm md))
        as [policy|] eqn:Ep.
      * apply IH in H. simpl in H. destruct H as [H1 [H2 H3]].
        split; [|split].
        -- intros id Hin. destruct (H1 id Hin) as [Hacc|[md' [Hm Hrest]]].
           ++ match type of Hacc with
              | In _ (if ?c then _ else _) => destruct c eqn:Ec
              end; [|left; exact Hacc].
              apply in_app_or in Hacc. destruct Hacc as [Hacc|[<-|[]]];
                [left; exact Hacc|].
              right. exists md. split; [left; reflexivity|].
              split; [exact Est|]. split; [rewrite Ep; discriminate|].
              match type of Ec with
              | (if ?c then _ else _) = true => destruct c eqn:Ec'
              end.
              ** apply andb_prop in Ec'. destruct Ec' as [_ Eq].
                 right. destruct (isQuantumSafe md); [discriminate | reflexivity].
              ** left. destruct (expiresAt md) as [e|]; [|discriminate].
                 exists e. split; [reflexivity|].
                 apply Z.gtb_lt in Ec. exact Ec.
           ++ right. exists md'. split; [right; exact Hm | exact Hrest].
        -- intros id Hin. apply H2.
           match goal with
           | |- In _ (if ?c then _ else _) => destruct c
           end; [apply in_or_app; left; exact Hin | exact Hin].
        -- intros id md' e [E|Hin] Hst Hpol Hexp Hlt.
           ++ injection E as <- <-. apply H2. rewrite Hexp.
              assert (G : (now >? e)%Z = true) by (apply Z.gtb_lt; exact Hlt).
              rewrite G.
              match goal with
              | |- In _ (if (if ?c then true else true) then _ else _) =>
                  destruct c
              end; apply in_or_app; right; left; reflexivity.
           ++ eapply H3; eauto.
      * apply IH in H. destruct H as [H1 [H2 H3]].
        split; [|split].
        -- intros id Hin. destruct (H1 id Hin) as [Hacc|[md' [Hm Hrest]]];
             [left; exact Hacc|].
           right. exists md'. split; [right; exact Hm | exact Hrest].
        -- exact H2.
        -- intros id md' e [E|Hin] Hst Hpol Hexp Hlt.
           ++ injection E as <- <-. rewrite Ep in Hpol. contradiction.
           ++ eapply H3; eauto.
    + apply IH in H. destruct H as [H1 [H2 H3]].
      split; [|split].
      * intros id Hin. destruct (H1 id Hin) as [Hacc|[md' [Hm Hrest]]];
          [left; exact Hacc|].
        right. exists md'. split; [right; exact Hm | exact Hrest].
      * exact H2.
      * intros id md' e [E|Hin] Hst Hpol Hexp Hlt.
        -- injection E as <- <-. rewrite Hst in Est. discriminate.
        -- eapply H3; eauto.
Qed.

(** X9.  [checkKeyRotationNeeds] flags only entries of the key table that are
    ['active'] and whose algorithm has a rotation policy, and a quantum-safe
    one only when its expiry has passed; it flags every such entry whose
    expiry lies before the time of the call.  Keys in any other status are
    never flagged. *)
Theorem checkKeyRotationNeeds_flags_active_keys :
  forall s flagged s',
    checkKeyRotationNeeds env s = (inr flagged, s') ->
    (forall id, In id flagged ->
       exists md, In (id, md) (JsMap.entries (keys s)) /\ status md = active /\
                  JsMap.get algorithm_eqb (rotationPolicies s) (algorithm md) <> None /\
                  ((exists e, expiresAt md = Some e /\
                              (e < Date_now env (clock_reads s))%Z)
                   \/ isQuantumSafe md = false)) /\
    (forall id md e, In (id, md) (JsMap.entries (keys s)) -> status md = active ->
       JsMap.get algorithm_eqb (rotationPolicies s) (algorithm md) <> None ->
       expiresAt md = Some e -> (e < Date_now env (clock_reads s))%Z ->
       In id flagged).
Proof.
  intros s flagged s' H. unfold checkKeyRotationNeeds in H.
  unfold bind, DateNow, gets in H. simpl in H.
  apply checkKeyRotationNeeds_loop_flags in H. simpl in H.
  destruct H as [H1 [_ H3]]. split.
  - intros id Hin. destruct (H1 id Hin) as [[]|Hmd]. exact Hmd.
  - exact H3.
Qed.

Lemma count_le_length : forall (A : Type) (p : A -> bool) l,
  (count p l <= List.length l)%nat.
Proof. intros A p l. unfold count. apply filter_length_le. Qed.

Lemma count_le_count : forall (A : Type) (p q : A -> bool) l,
  (forall x, In x l -> p x = true -> q x = true) ->
  (count p l <= count q l)%nat.
Proof.
  unfold count. induction l as [|x l IH]; intros H; simpl; [lia|].
  assert (IH' : (List.length (filter p l) <= List.length (filter q l))%nat)
    by (apply IH; intros y Hy; apply H; right; exact Hy).
  destruct (p x) eqn:Ep.
  - rewrite (H x (or_introl eq_refl) Ep). simpl. lia.
  - destruct (q x); simpl; lia.
Qed.

Lemma count_none : forall (A : Type) (p : A -> bool) l,
  (forall x, In x l -> p x = false) -> count p l = 0%nat.
Proof.
  unfold count. induction l as [|x l IH]; intros H; simpl; [reflexivity|].
  rewrite (H x (or_introl eq_refl)). apply IH. intros y Hy. apply H. right. exact Hy.
Qed.

Lemma count_ext : forall (A : Type) (p q : A -> bool) l,
  (forall x, In x l -> p x = q x) -> count p l = count q l.
Proof.
  unfold count. induction l as [|x l IH]; intros H; simpl; [reflexivity|].
  rewrite (H x (or_introl eq_refl)).
  assert (IH' : List.length (filter p l) = List.length (filter q l))
    by (apply IH; intros y Hy; apply H; right; exact Hy).
  destruct (q x); simpl; rewrite IH'; reflexivity.
Qed.

Lemma count_disjoint : forall (A : Type) (p q : A -> bool) l,
  (forall x, p x = true -> q x = false) ->
  (count p l + count q l <= List.length l)%nat.
Proof.
  unfold count. induction l as [|x l IH]; intros H; simpl; [lia|].
  specialize (IH H). destruct (p x) eqn:Ep.
  - rewrite (H x Ep). simpl. lia.
  - destruct (q x); simpl; lia.
Qed.

(** X10.  [getKeyHealthReport] only reads the service, and its counts are
    ordered: needRotation <= expiringSoon <= active <= total, and
    quantumSafe + quantumVulnerable <= total.  In a state the service can
    reach, quantumSafe is 0 and quantumVulnerable equals active, since only
    RSA-OAEP keys can be created. *)
Theorem getKeyHealthReport_counts :
  forall s,
    exists r,
      fst (getKeyHealthReport env s) = inr r /\
      same_service s (snd (getKeyHealthReport env s)) /\
      report_total r = List.length (JsMap.keys (keys s)) /\
      (report_needRotation r <= report_expiringSoon r)%nat /\
      (report_expiringSoon r <= report_active r)%nat /\
      (report_active r <= report_total r)%nat /\
      (report_quantumSafe r + report_quantumVulnerable r <= report_total r)%nat /\
      (reachable env s ->
       report_quantumSafe r = 0%nat /\
       report_quantumVulnerable r = report_active r).
Proof.
  intros s. unfold getKeyHealthReport, bind, gets, DateNow, ret. simpl.
  eexists. split; [reflexivity|]. simpl.
  split; [unfold same_service; repeat split|].
  split; [unfold JsMap.values, JsMap.keys; rewrite !length_map; reflexivity|].
  split.
  { apply count_le_count. intros x _ Hx.
    apply andb_prop in Hx. destruct Hx as [Ha He]. rewrite Ha.
    destruct (expiresAt x) as [e|]; [|discriminate]. simpl.
    apply Z.gtb_lt in He. apply Z.ltb_lt. lia. }
  split.
  { apply count_le_count. intros x _ Hx.
    destruct (expiresAt x); [|discriminate].
    apply andb_prop in Hx. apply Hx. }
  split; [apply count_le_length|].
  split.
  { apply count_disjoint. intros x Hx. rewrite Hx. reflexivity. }
  intros Hreach.
  destruct (reachable_key_table_is_well_formed Hreach) as [_ Hrec].
  assert (Hq : forall x, In x (JsMap.values (keys s)) -> isQuantumSafe x = false).
  { intros x Hx. unfold JsMap.values in Hx. apply in_map_iff in Hx.
    destruct Hx as [[k md] [<- Hin]]. simpl. apply (Hrec k md Hin). }
  split.
  - apply count_none. exact Hq.
  - apply count_ext. intros x Hx. rewrite (Hq x Hx). reflexivity.
Qed.

Lemma sort_insert_perm : forall (A : Type) (compare : A -> A -> Z) x l,
  Permutation (sort_insert compare x l) (x :: l).
Proof.
  induction l as [|y r IH]; simpl; [apply Permutation_refl|].
  destruct (compare x y <? 0)%Z; [apply Permutation_refl|].
  eapply Permutation_trans; [apply perm_skip; exact IH | apply perm_swap].
Qed.

Lemma Array_sort_perm_acc : forall (A : Type) (compare : A -> A -> Z) l acc,
  Permutation (fold_left (fun sorted x => sort_insert compare x sorted) l acc)
              (acc ++ l)%list.
Proof.
  induction l as [|x l IH]; intros acc; simpl.
  - rewrite app_nil_r. apply Permutation_refl.
  - eapply Permutation_trans; [apply IH|].
    eapply Permutation_trans;
      [apply Permutation_app_tail; apply sort_insert_perm|].
    simpl. apply Permutation_middle.
Qed.

Lemma sort_insert_sorted : forall x l,
  StronglySorted KeyManagementQueries.not_older l ->
  StronglySorted KeyManagementQueries.not_older (sort_insert newest_first x l).
Proof.
  induction l as [|y r IH]; intros Hs; simpl.
  - constructor; constructor.
  - inversion Hs as [|y' r' Hr Hall]. subst.
    unfold newest_first at 1.
    destruct (created y - created x <? 0)%Z eqn:E.
    + apply Z.ltb_lt in E. constructor; [exact Hs|].
      constructor; [unfold KeyManagementQueries.not_older; lia|].
      eapply Forall_impl; [|exact Hall].
      intros z Hz. unfold KeyManagementQueries.not_older in *. lia.
    + apply Z.ltb_ge in E. constructor; [apply IH; exact Hr|].
      apply Forall_forall. intros z Hz.
      apply (Permutation_in _ (sort_insert_perm newest_first x r)) in Hz.
      destruct Hz as [<-|Hz]; [unfold KeyManagementQueries.not_older; lia|].
      apply (proj1 (Forall_forall _ _) Hall). exact Hz.
Qed.

Lemma Array_sort_sorted_acc : forall l acc,
  StronglySorted KeyManagementQueries.not_older acc ->
  StronglySorted KeyManagementQueries.not_older
    (fold_left (fun sorted x => sort_insert newest_first x sorted) l acc).
Proof.
  induction l as [|x l IH]; intros acc H; simpl; [exact H|].
  apply IH. apply sort_insert_sorted. exact H.
Qed.

Lemma filter_filter : forall (A : Type) (p q : A -> bool) l,
  filter q (filter p l) = filter (fun x => p x && q x) l.
Proof.
  induction l as [|x l IH]; simpl; [reflexivity|].
  destruct (p x); simpl; [destruct (q x); simpl; rewrite IH; reflexivity | exact IH].
Qed.

Lemma filter_true : forall (A : Type) (l : list A), filter (fun _ => true) l = l.
Proof. induction l as [|x l IH]; simpl; [reflexivity | rewrite IH; reflexivity]. Qed.

(** X11.  [listKeys] returns exactly the records of the key table that pass
    the filter (all of them without a filter), each as often as it is in the
    table, ordered newest first by creation time. *)
Theorem listKeys_matching_newest_first :
  forall filter s,
    Permutation (listKeys filter s)
                (List.filter (matches filter) (JsMap.values (keys s))) /\
    StronglySorted (fun a b => (created b <= created a)%Z) (listKeys filter s).
Proof.
  intros f s. split.
  - unfold listKeys, Array_sort.
    eapply Permutation_trans; [apply Array_sort_perm_acc|]. simpl.
    destruct f as [f|]; simpl; [|rewrite filter_true; apply Permutation_refl].
    destruct f as [[a|] [st|] [q|]]; simpl;
      rewrite ?filter_filter;
      match goal with
      | |- Permutation (filter ?p ?l) (filter ?q ?l) =>
          replace (filter p l) with (filter q l); [apply Permutation_refl|]
      | |- Permutation ?l (filter ?q ?l) =>
          replace (filter q l) with l; [apply Permutation_refl|];
          symmetry; apply filter_true
      end;
      apply filter_ext; intros x; unfold matches; simpl;
      rewrite ?andb_true_r, ?andb_assoc; reflexivity.
  - unfold listKeys, Array_sort. apply Array_sort_sorted_acc. constructor.
Qed.

(** X12.  [setRotationPolicy] then [getRotationPolicy]: the algorithm has the
    new policy, every other algorithm the policy it had, and keys, key store
    and events are untouched. *)
Theorem setRotationPolicy_then_getRotationPolicy :
  forall s a p,
    fst (getRotationPolicy a (snd (setRotationPolicy a p s))) = inr (Some p) /\
    (forall b, b <> a ->
       fst (getRotationPolicy b (snd (setRotationPolicy a p s)))
       = fst (getRotationPolicy b s)) /\
    keys (snd (setRotationPolicy a p s)) = keys s /\
    keyStore (snd (setRotationPolicy a p s)) = keyStore s /\
    emitted (snd (setRotationPolicy a p s)) = emitted s.
Proof.
  intros s a p. unfold getRotationPolicy, setRotationPolicy, gets, modify. simpl.
  split; [rewrite (JsMap_get_set_eq algorithm_eqb algorithm_eqb_spec); reflexivity|].
  split; [|repeat split].
  intros b Hne.
  rewrite (JsMap_get_set_neq algorithm_eqb algorithm_eqb_spec); [reflexivity|].
  congruence.
Qed.

End KeyManagementQueriesFacts.

(** ** The key manager's listeners *)

Section ListenerFacts.
Import KeyManagementService KeyEventListeners.
Variable code : Code.
Variable event : KeyLifecycleEvent.

Lemma indexOf_first : forall before l after,
  ~ In l before ->
  indexOf (before ++ l :: after) l = Some (List.length before).
Proof.
  induction before as [|x r IH]; intros l after H; simpl in *.
  - rewrite Nat.eqb_refl. reflexivity.
  - destruct (Nat.eqb x l) eqn:E.
    + apply Nat.eqb_eq in E. contradiction H. left. exact E.
    + rewrite IH by (intros Hin; apply H; right; exact Hin). reflexivity.
Qed.

Lemma indexOf_absent : forall l listener,
  ~ In listener l -> indexOf l listener = None.
Proof.
  induction l as [|x r IH]; intros listener H; simpl in *; [reflexivity|].
  destruct (Nat.eqb x listener) eqn:E.
  - apply Nat.eqb_eq in E. contradiction H. left. exact E.
  - rewrite IH by (intros Hin; apply H; right; exact Hin). reflexivity.
Qed.

Lemma splice_one_middle : forall (A : Type) (before : list A) x after,
  splice_one (before ++ x :: after) (List.length before) = (before ++ after)%list.
Proof.
  intros A before x after. unfold splice_one.
  induction before as [|y r IH]; simpl.
  - reflexivity.
  - simpl in IH. rewrite IH. reflexivity.
Qed.

Lemma removeEventListener_first : forall listener s before after,
  eventListeners s = (before ++ listener :: after)%list ->
  ~ In listener before ->
  removeEventListener listener s
  = {| eventListeners := (before ++ after)%list;
       calls := calls s; console_error := console_error s |}.
Proof.
  intros listener s before after H Hb. unfold removeEventListener.
  rewrite H, (indexOf_first before listener after Hb), splice_one_middle.
  reflexivity.
Qed.

(** X14.  [removeEventListener] removes one registration of the listener,
    the earliest: the listeners before its first registration and all those
    after it, later registrations of the same listener among them, stay in
    their order; nothing else of the service changes, and removing a
    listener that is not registered changes nothing at all. *)
Theorem removeEventListener_removes_one_registration :
  forall listener s,
    (~ In listener (eventListeners s) -> removeEventListener listener s = s) /\
    (forall before after,
        eventListeners s = (before ++ listener :: after)%list ->
        ~ In listener before ->
        removeEventListener listener s
        = {| eventListeners := (before ++ after)%list;
             calls := calls s; console_error := console_error s |}).
Proof.
  intros listener s. split.
  - intros H. unfold removeEventListener.
    rewrite (indexOf_absent (eventListeners s) listener H). reflexivity.
  - intros before after H Hb. apply removeEventListener_first; assumption.
Qed.

(** A listener that makes no registration: the call is logged, and what it
    throws goes to [console.error]. *)
Lemma call_listener_quiet : forall listener s,
  registrations (code listener (List.length (calls s)) event) = [] ->
  call_listener code listener event s
  = {| eventListeners := eventListeners s;
       calls := (calls s ++ [(listener, event)])%list;
       console_error :=
         (console_error s
          ++ match thrown (code listener (List.length (calls s)) event) with
             | Some e => [e]
             | None => []
             end)%list |}.
Proof.
  intros listener s H. unfold call_listener. rewrite H. simpl.
  destruct (thrown (code listener (List.length (calls s)) event)); simpl;
    [reflexivity|]. rewrite app_nil_r. reflexivity.
Qed.

(** The loop over a stretch of listeners that make no registrations. *)
Lemma emitEvent_loop_quiet : forall seg done tail s,
  eventListeners s = (done ++ seg ++ tail)%list ->
  (forall l n, In l seg -> registrations (code l n event) = []) ->
  exists s1,
    eventListeners s1 = eventListeners s /\
    calls s1 = (calls s ++ map (fun l => (l, event)) seg)%list /\
    console_error s1
      = (console_error s
         ++ flat_map (fun p => match thrown (code (snd p) (fst p) event) with
                               | Some e => [e]
                               | None => []
                               end)
              (combine (seq (List.length (calls s)) (List.length seg)) seg))%list /\
    forall rounds,
      emitEvent_loop code (List.length seg + rounds) (List.length done) event s
      = emitEvent_loop code rounds (List.length done + List.length seg) event s1.
Proof.
  induction seg as [|l seg IH]; intros done tail s Hl Hq.
  - exists s. simpl. rewrite !app_nil_r, Nat.add_0_r. repeat split.
  - assert (Hn : nth_error (eventListeners s) (List.length done) = Some l).
    { rewrite Hl, nth_error_app2, Nat.sub_diag by lia. reflexivity. }
    assert (Hc := call_listener_quiet l s (Hq l _ (or_introl eq_refl))).
    destruct (IH (done ++ [l])%list tail (call_listener code l event s))
      as [s1 [H1 [H2 [H3 H4]]]].
    { rewrite Hc. cbn [eventListeners]. rewrite Hl, <- app_assoc. reflexivity. }
    { intros l' n Hin. apply Hq. right. exact Hin. }
    exists s1. rewrite Hc in H1, H2, H3. cbn [eventListeners calls console_error] in *.
    split; [exact H1|]. split.
    { rewrite H2, <- app_assoc. reflexivity. }
    split.
    { rewrite H3, length_app, Nat.add_1_r. cbn [List.length seq combine flat_map fst snd].
      rewrite <- !app_assoc. reflexivity. }
    intros rounds. cbn [List.length Nat.add emitEvent_loop]. rewrite Hn.
    replace (S (List.length done)) with (List.length (done ++ [l])%list)
      by (rewrite length_app, Nat.add_1_r; reflexivity).
    rewrite H4, length_app. cbn [List.length].
    replace (List.length done + 1 + List.length seg)%nat
      with (List.length done + S (List.length seg))%nat by lia.
    reflexivity.
Qed.

(** X13.  When the registered listeners make no registrations while they
    run, [emitEvent] ends and has called every listener with the event, once
    each and in registration order, whether or not an earlier listener
    threw; what the listeners threw went to [console.error] in that order,
    the listener array is as before and nothing is thrown to the emitter. *)
Theorem emitEvent_calls_every_listener :
  forall s rounds,
    (forall l n, In l (eventListeners s) -> registrations (code l n event) = []) ->
    (List.length (eventListeners s) < rounds)%nat ->
    exists s',
      emitEvent code rounds event s = Some s' /\
      eventListeners s' = eventListeners s /\
      calls s' = (calls s ++ map (fun l => (l, event)) (eventListeners s))%list /\
      console_error s'
        = (console_error s
           ++ flat_map (fun p => match thrown (code (snd p) (fst p) event) with
                                 | Some e => [e]
                                 | None => []
                                 end)
                (combine (seq (List.length (calls s))
                              (List.length (eventListeners s)))
                         (eventListeners s)))%list.
Proof.
  intros s rounds Hq Hr.
  destruct (emitEvent_loop_quiet (eventListeners s) [] [] s) as [s1 [H1 [H2 [H3 H4]]]].
  { rewrite app_nil_r. reflexivity. }
  { exact Hq. }
  exists s1. split; [|split; [exact H1|split; [exact H2 | exact H3]]].
  unfold emitEvent.
  replace rounds
    with (List.length (eventListeners s) + S (rounds - S (List.length (eventListeners s))))%nat
    by lia.
  change 0%nat with (List.length (@nil Listener)) at 1.
  rewrite H4. cbn [emitEvent_loop List.length Nat.add].
  assert (Hn : nth_error (eventListeners s1) (List.length (eventListeners s)) = None)
    by (apply nth_error_None; rewrite H1; lia).
  rewrite Hn. reflexivity.
Qed.

(** X31.  The loop of [emitEvent] walks the array that the listeners change.
    When a listener unregisters itself while it runs (and the others make no
    registrations), the listener registered right after it moves into its
    place and is passed over: [emitEvent] ends having called the listeners
    before it, the listener itself and those after the next one, but not the
    next one, which stays registered. *)
Theorem emitEvent_skips_the_listener_after_one_that_unregisters_itself :
  forall s before a b after rounds,
    eventListeners s = (before ++ a :: b :: after)%list ->
    registrations (code a (List.length (calls s) + List.length before)%nat event)
      = [Remove a] ->
    (forall l n, In l (before ++ after) -> registrations (code l n event) = []) ->
    (List.length (eventListeners s) <= rounds)%nat ->
    exists s',
      emitEvent code rounds event s = Some s' /\
      eventListeners s' = (before ++ b :: after)%list /\
      calls s' = (calls s ++ map (fun l => (l, event)) (before ++ a :: after))%list.
Proof.
  intros s before a b after rounds Hl Ha Hq Hr.
  assert (Hb : ~ In a before).
  { intros Hin. rewrite (Hq a _ (in_or_app _ _ _ (or_introl Hin))) in Ha.
    discriminate. }
  destruct (emitEvent_loop_quiet before [] (a :: b :: after) s)
    as [s1 [H1 [H2 [_ H4]]]].
  { exact Hl. }
  { intros l n Hin. apply Hq. apply in_or_app. left. exact Hin. }
  set (s2 := call_listener code a event s1).
  assert (Hs2 : eventListeners s2 = ((before ++ [b]) ++ after ++ [])%list /\
                calls s2 = (calls s1 ++ [(a, event)])%list).
  { unfold s2, call_listener.
    replace (List.length (calls s1))
      with (List.length (calls s) + List.length before)%nat
      by (rewrite H2, length_app, length_map; reflexivity).
    rewrite Ha. cbn [fold_left register].
    rewrite (@removeEventListener_first a _ before (b :: after));
      [|cbn [eventListeners]; rewrite H1; exact Hl | exact Hb].
    rewrite app_nil_r, <- app_assoc.
    destruct (thrown _); cbn [eventListeners calls]; split; reflexivity. }
  destruct Hs2 as [Hl2 Hc2].
  destruct (emitEvent_loop_quiet after (before ++ [b])%list [] s2)
    as [s3 [G1 [G2 [_ G4]]]].
  { exact Hl2. }
  { intros l n Hin. apply Hq. apply in_or_app. right. exact Hin. }
  assert (Hlen : List.length (eventListeners s)
                 = (List.length before + S (S (List.length after)))%nat)
    by (rewrite Hl, length_app; reflexivity).
  exists s3. split; [|split].
  - unfold emitEvent.
    replace rounds
      with (List.length before
            + S (List.length after
                 + S (rounds - List.length (eventListeners s))))%nat by lia.
    change 0%nat with (List.length (@nil Listener)) at 1.
    rewrite H4. cbn [List.length Nat.add emitEvent_loop].
    assert (Hn : nth_error (eventListeners s1) (List.length before) = Some a).
    { rewrite H1, Hl, nth_error_app2, Nat.sub_diag by lia. reflexivity. }
    rewrite Hn. fold s2.
    replace (S (List.length before)) with (List.length (before ++ [b])%list)
      by (rewrite length_app, Nat.add_1_r; reflexivity).
    rewrite G4. cbn [emitEvent_loop].
    assert (Hn3 : nth_error (eventListeners s3)
                    (List.length (before ++ [b]) + List.length after) = None).
    { apply nth_error_None. rewrite G1, Hl2, app_nil_r, length_app. lia. }
    rewrite Hn3. reflexivity.
  - rewrite G1, Hl2, app_nil_r, <- app_assoc. reflexivity.
  - rewrite G2, Hc2, H2, map_app, <- !app_assoc. reflexivity.
Qed.

End ListenerFacts.

(** ** The provider factory: cache, configuration, lookups *)

Section FactoryMore.
Import CryptoProviderFactory CryptoProviderFactoryLookups.
Variable import : Loader.

Lemma JsMap_set_same : forall (K V : Type) (eqb : K -> K -> bool)
  (m : JsMap.t K V) k v,
  (forall a b, eqb a b = true <-> a = b) ->
  JsMap.get eqb m k = Some v -> JsMap.set eqb m k v = m.
Proof.
  intros K V eqb m k v Hspec. induction m as [|[k0 v0] r IH]; intros H; simpl in *.
  - discriminate.
  - destruct (eqb k0 k) eqn:E.
    + injection H as ->. reflexivity.
    + rewrite IH by exact H. reflexivity.
Qed.

Lemma createProvider_fallbacks_history : forall l s,
  exists more,
    instantiations (snd (createProvider_fallbacks import l s))
      = (instantiations s ++ more)%list.
Proof.
  induction l as [|a l IH]; intros s; simpl.
  - exists []. rewrite app_nil_r. reflexivity.
  - destruct (instantiateProvider import a) as [e|p]; simpl.
    + match goal with
      | |- context [createProvider_fallbacks import l ?st] =>
          destruct (IH st) as [more H]
      end.
      rewrite H. simpl. rewrite <- app_assoc. eexists. reflexivity.
    + eexists. reflexivity.
Qed.

(** X15.  A provider that instantiated directly is served from the cache
    afterwards: the second [createProvider] for the same algorithm returns
    the same provider, makes no call of [instantiateProvider] and leaves the
    factory as it is. *)
Theorem createProvider_second_call_hits_cache :
  forall algorithm s p,
    JsMap.get algorithm_eqb (cache s) (selectedAlgorithm algorithm s) = None ->
    instantiateProvider import (selectedAlgorithm algorithm s) = inr p ->
    exists s1,
      createProvider import algorithm s = (inr p, s1) /\
      instantiations s1
        = (instantiations s ++ [selectedAlgorithm algorithm s])%list /\
      createProvider import algorithm s1 = (inr p, s1).
Proof.
  intros algorithm s p Hc Hi.
  eexists. split; [|split].
  - unfold createProvider. rewrite Hc. unfold call_instantiateProvider.
    rewrite Hi. reflexivity.
  - reflexivity.
  - unfold createProvider.
    replace (selectedAlgorithm algorithm _) with (selectedAlgorithm algorithm s)
      by (destruct algorithm; reflexivity).
    unfold cache_set. simpl.
    rewrite (JsMap_get_set_eq algorithm_eqb algorithm_eqb_spec). reflexivity.
Qed.

(** X16.  A fallback is cached under its own name only.  After
    [createProvider] fell back from a failing algorithm to another one, the
    failing algorithm is still not cached, and the next call for it goes
    through the same attempts again - the failing algorithm first, then the
    fallbacks in order - and instantiates the fallback anew. *)
Theorem createProvider_fallback_is_not_cached_for_the_request :
  forall algorithm s e0 pre z post p,
    JsMap.get algorithm_eqb (cache s) (selectedAlgorithm algorithm s) = None ->
    instantiateProvider import (selectedAlgorithm algorithm s) = inl e0 ->
    fallbacks_of s = (pre ++ z :: post)%list ->
    (forall y, In y pre -> instantiation_fails import y) ->
    instantiateProvider import z = inr p ->
    exists s1 s2,
      createProvider import algorithm s = (inr p, s1) /\
      JsMap.get algorithm_eqb (cache s1) (selectedAlgorithm algorithm s1) = None /\
      createProvider import algorithm s1 = (inr p, s2) /\
      cache s2 = cache s1 /\
      instantiations s2
        = (instantiations s1 ++ selectedAlgorithm algorithm s :: pre ++ [z])%list.
Proof.
  intros algorithm s e0 pre z post p Hc Hsel Hfb Hpre Hz.
  assert (Hne : z <> selectedAlgorithm algorithm s) by congruence.
  assert (Hstep : forall st,
            config st = config s ->
            JsMap.get algorithm_eqb (cache st) (selectedAlgorithm algorithm s) = None ->
            createProvider import algorithm st =
              (inr p,
               {| config := config st;
                  cache := JsMap.set algorithm_eqb (cache st) z p;
                  instantiations :=
                    (instantiations st ++ selectedAlgorithm algorithm s
                       :: pre ++ [z])%list |})).
  { intros st Hcfg Hcache. unfold createProvider.
    assert (Es : selectedAlgorithm algorithm st = selectedAlgorithm algorithm s)
      by (unfold selectedAlgorithm; rewrite Hcfg; reflexivity).
    rewrite Es, Hcache. unfold call_instantiateProvider. rewrite Hsel.
    assert (Ef : fallbacks_of {| config := config st; cache := cache st;
                                 instantiations :=
                                   (instantiations st
                                    ++ [selectedAlgorithm algorithm s])%list |}
                 = (pre ++ z :: post)%list)
      by (unfold fallbacks_of in *; simpl; rewrite Hcfg; exact Hfb).
    rewrite Ef.
    rewrite (@createProvider_fallbacks_first_success import pre z post p _ Hpre Hz).
    simpl. rewrite <- app_assoc. reflexivity. }
  eexists. eexists. split; [apply Hstep; [reflexivity | exact Hc]|].
  assert (Hc1 : JsMap.get algorithm_eqb
                  (JsMap.set algorithm_eqb (cache s) z p)
                  (selectedAlgorithm algorithm s) = None).
  { rewrite (JsMap_get_set_neq algorithm_eqb algorithm_eqb_spec); assumption. }
  split; [exact Hc1|].
  split; [apply Hstep; [reflexivity | exact Hc1]|].
  simpl. split; [|reflexivity].
  apply JsMap_set_same; [apply algorithm_eqb_spec|].
  apply (JsMap_get_set_eq algorithm_eqb algorithm_eqb_spec).
Qed.

(** X17.  After [updateConfig] (with any patch) or [clearCache] no cached
    provider is reused: the next [createProvider] calls
    [instantiateProvider], first on the selected algorithm. *)
Theorem createProvider_after_cache_reset_instantiates :
  forall algorithm patch s,
    (exists more,
        instantiations (snd (createProvider import algorithm (updateConfig patch s)))
        = (instantiations s
           ++ selectedAlgorithm algorithm (updateConfig patch s) :: more)%list) /\
    (exists more,
        instantiations (snd (createProvider import algorithm (clearCache s)))
        = (instantiations s ++ selectedAlgorithm algorithm s :: more)%list).
Proof.
  assert (H : forall algorithm st,
             cache st = JsMap.empty CryptoAlgorithmType CryptoProvider ->
             exists more,
               instantiations (snd (createProvider import algorithm st))
               = (instantiations st ++ selectedAlgorithm algorithm st :: more)%list).
  { intros algorithm st Hc. unfold createProvider. rewrite Hc. simpl.
    destruct (instantiateProvider import (selectedAlgorithm algorithm st)); simpl.
    - match goal with
      | |- context [createProvider_fallbacks import ?l ?x] =>
          destruct (createProvider_fallbacks_history l x) as [more Hm]
      end.
      rewrite Hm. simpl. rewrite <- app_assoc. eexists. reflexivity.
    - exists []. reflexivity. }
  intros algorithm patch s. split.
  - apply (H algorithm (updateConfig patch s)). reflexivity.
  - apply (H algorithm (clearCache s)). reflexivity.
Qed.

End FactoryMore.

Section FactoryLookups.
Import CryptoProviderFactory CryptoProviderFactoryLookups.
Variable import : Loader.

Lemma threat_level_at_least_50 : forall r : Q,
  (0 <= r)%Q ->
  Qle_bool (inject_Z 50) (Qplus (inject_Z 60) (Qmult r (inject_Z 30))) = true.
Proof.
  intros r Hr. apply Qle_bool_iff.
  apply Qle_trans with (y := (inject_Z 60 + 0)%Q).
  - unfold Qle. simpl. lia.
  - apply Qplus_le_r.
    apply Qmult_le_0_compat; [exact Hr|]. unfold Qle. simpl. lia.
Qed.

(** X18.  Whatever [Math.random] returns (a number that is not negative),
    [getRecommendedAlgorithm] answers ML-KEM-768 or Hybrid-RSA-ML-KEM, never a
    classical algorithm: the simulated threat level is at least 60, so the
    low-threat branch is never taken.  The hybrid answer needs hybrid mode
    enabled and a configured threshold above the threat level. *)
Theorem getRecommendedAlgorithm_is_never_classical :
  forall (random : Q) s,
    (0 <= random)%Q ->
    getRecommendedAlgorithm random s = ML_KEM_768 \/
    (getRecommendedAlgorithm random s = Hybrid_RSA_ML_KEM /\
     enableHybridMode (config s) = Some true /\
     exists t, quantumThresholdScore (config s) = Some t /\
               (inject_Z 60 + random * inject_Z 30 < inject_Z t)%Q).
Proof.
  intros random s Hr. unfold getRecommendedAlgorithm.
  rewrite (threat_level_at_least_50 Hr).
  destruct (quantumThresholdScore (config s)) as [t|] eqn:Et.
  - destruct (t =? 0)%Z eqn:E0.
    + rewrite (threat_level_at_least_50 Hr). left. reflexivity.
    + destruct (Qle_bool (inject_Z t) _) eqn:Ele; [left; reflexivity|].
      destruct (enableHybridMode (config s)) as [[|]|];
        [right | left; reflexivity | left; reflexivity].
      split; [reflexivity|]. split; [reflexivity|].
      exists t. split; [reflexivity|].
      apply Qnot_le_lt. intros Hle. apply Qle_bool_iff in Hle.
      rewrite Hle in Ele. discriminate.
  - rewrite (threat_level_at_least_50 Hr). left. reflexivity.
Qed.

(** X19.  The migration plan of [migrateFromAlgorithm] has the four numbered
    steps, and a fifth line, the warning about old messages, exactly when the
    source algorithm is RSA-OAEP or ECDH and the target is one of the five
    NIST algorithms; a migration to a hybrid algorithm carries no warning. *)
Theorem migrateFromAlgorithm_plan :
  forall from to s m s',
    migrateFromAlgorithm import from to s = (inr m, s') ->
    firstn 4 (migrationPlan m)
      = [ "1. Generate new " ++ algorithm_name to ++ " key pair";
          "2. Re-encrypt existing messages with " ++ algorithm_name to;
          "3. Share new public key with contacts";
          "4. Deprecate " ++ algorithm_name from ++ " keys after grace period" ] /\
    skipn 4 (migrationPlan m)
      = if (algorithm_eqb from RSA_OAEP || algorithm_eqb from ECDH)
           && isNISTApproved to
        then ["⚠️  Critical: Old messages remain quantum-vulnerable until re-encrypted"]
        else [].
Proof.
  intros from to s m s' H. unfold migrateFromAlgorithm in H.
  destruct (createProvider import (Some from) s) as [[e|po] s1]; [discriminate|].
  destruct (createProvider import (Some to) s1) as [[e|pn] s2]; [discriminate|].
  injection H as <- _. cbn [migrationPlan].
  destruct from, to; split; reflexivity.
Qed.

(** X20.  The factory's classifications agree with one another on the NIST
    algorithms - each is quantum-safe with level [quantum-safe] - but not
    with the key manager: the factory and [isQuantumSafeAlgorithm] of the key
    manager disagree on exactly four algorithms (the two signature schemes
    and the two Hybrid-RSAOAEP names). *)
Theorem isQuantumSafe_classifications :
  forall a,
    (isNISTApproved a = true ->
     isQuantumSafe a = true /\ getSecurityLevel a = quantum_safe) /\
    (isQuantumSafe a <> KeyManagementService.isQuantumSafeAlgorithm a <->
     In a [CRYSTALS_Dilithium; SPHINCS_plus;
           Hybrid_RSAOAEP_MLKEM512; Hybrid_RSAOAEP_MLKEM1024]).
Proof.
  intros a. destruct a; (split; [|split]); cbn; intros H;
    try discriminate; try (split; reflexivity); try tauto; try congruence;
    try (repeat destruct H as [H|H]; try discriminate; try contradiction).
Qed.

End FactoryLookups.

(** ** The providers *)

Section ProviderMore.
Variable P : Platform.

(** X21.  Every error of [RSAProvider.encrypt] is a [CryptoError] for
    RSA-OAEP.  Its code is ENCRYPTION_FAILED, except that a key given as raw
    bytes which does not import lets the error of [importKey] through
    unchanged, with the code KEY_GENERATION_FAILED. *)
Theorem RSAProvider_encrypt_error_codes :
  forall data key e,
    RSAProvider.encrypt P data key = inl e ->
    exists message code,
      e = CryptoError message code (Some RSA_OAEP) /\
      (code = ENCRYPTION_FAILED \/
       (code = KEY_GENERATION_FAILED /\
        exists raw, key = RawBytes raw /\
                    RSAProvider.importKey P (RSAProvider.arrayBufferToBase64 P raw)
                      = inl e)).
Proof.
  intros data key e H. unfold RSAProvider.encrypt in H.
  destruct (RSAProvider.ensureCryptoKey P key) as [e0|k] eqn:Ek; cbn [rbind] in H.
  - destruct key as [k|raw]; [discriminate|]. simpl in Ek.
    assert (Hk := Ek). unfold RSAProvider.importKey in Ek.
    match type of Ek with
    | match ?x with _ => _ end = _ => destruct x; [|discriminate]
    end.
    injection Ek as <-. simpl in H. injection H as <-.
    eexists. exists KEY_GENERATION_FAILED. split; [reflexivity|].
    right. split; [reflexivity|]. exists raw. split; [reflexivity|exact Hk].
  - destruct (190 <? List.length (TextEncoder_encode P data))%nat.
    + simpl in H. injection H as <-. eexists. exists ENCRYPTION_FAILED.
      split; [reflexivity | left; reflexivity].
    + destruct (subtle_encrypt_RSA_OAEP P k (TextEncoder_encode P data))
        as [e1|ct] eqn:Es; cbn [rbind] in H; [|discriminate].
      unfold subtle_encrypt_RSA_OAEP in Es.
      assert (He1 : instanceof_CryptoError e1 = false).
      { destruct (key_type k), (RSA_OAEP_capacity k);
          try (injection Es as <-; reflexivity).
        destruct (existsb _ _); [|injection Es as <-; reflexivity].
        destruct (_ <=? _)%Z; [discriminate|injection Es as <-; reflexivity]. }
      rewrite He1 in H. injection H as <-. eexists. exists ENCRYPTION_FAILED.
      split; [reflexivity | left; reflexivity].
Qed.

(** X22.  Every error of [RSAProvider.decrypt] is wrapped: whatever failed -
    the key import, [atob] or the decryption itself - the caller sees a
    [CryptoError] with the code DECRYPTION_FAILED and a message that starts
    with "RSA decryption failed: ". *)
Theorem RSAProvider_decrypt_error_code :
  forall encryptedData key e,
    RSAProvider.decrypt P encryptedData key = inl e ->
    exists cause,
      e = CryptoError ("RSA decryption failed: " ++ error_toString cause)
            DECRYPTION_FAILED (Some RSA_OAEP).
Proof.
  intros encryptedData key e H. unfold RSAProvider.decrypt in H.
  match type of H with
  | match ?x with _ => _ end = _ => destruct x as [cause|]; [|discriminate]
  end.
  injection H as <-. exists cause. reflexivity.
Qed.

Lemma RSAProvider_encrypt_too_large : forall data key,
  (190 < List.length (TextEncoder_encode P data))%nat ->
  RSAProvider.encrypt P data (KeyObject key)
  = inl (CryptoError
           "Message too large for RSA encryption. Consider using hybrid encryption."
           ENCRYPTION_FAILED (Some RSA_OAEP)).
Proof.
  intros data key H. unfold RSAProvider.encrypt. simpl.
  apply Nat.ltb_lt in H. rewrite H. reflexivity.
Qed.

(** X23.  The hybrid provider encrypts with RSA alone: on success its
    ciphertext is the one [RSAProvider.encrypt] gives, so the RSA provider
    decrypts it; and it has the limit of RSA, a text of more than 190 bytes
    being refused with a plain [Error] whose message advises hybrid
    encryption. *)
Theorem HybridCryptoProvider_encrypt_is_RSA :
  forall text publicKey,
    (forall ciphertext,
        HybridCryptoProvider.encrypt P (inl text) publicKey = inr ciphertext <->
        RSAProvider.encrypt P text (KeyObject publicKey) = inr ciphertext) /\
    ((190 < List.length (TextEncoder_encode P text))%nat ->
     HybridCryptoProvider.encrypt P (inl text) publicKey
     = inl (Error ("Hybrid encryption failed: " ++
                   "Message too large for RSA encryption. Consider using hybrid encryption."))).
Proof.
  intros text publicKey. split.
  - intros ciphertext. unfold HybridCryptoProvider.encrypt.
    destruct (RSAProvider.encrypt P text (KeyObject publicKey));
      split; intros H; try discriminate; exact H.
  - intros H. unfold HybridCryptoProvider.encrypt.
    rewrite (RSAProvider_encrypt_too_large text publicKey H). reflexivity.
Qed.

(** X30.  [MLKEMProvider.encrypt] with the engine's limit on the arguments
    of one call.  When the result - IV and AES-GCM output - has more bytes
    than the limit, [encrypt] throws the engine's [RangeError] although the
    encryption itself succeeded.  Within the limit it returns the base64 of
    IV and output, and with one [CryptoKey] object on both sides [decrypt]
    then returns the message, when AES-GCM decryption under that key and IV
    inverts the encryption, base64 decodes what it encoded and the text
    decoder inverts the encoder. *)
Theorem MLKEMProvider_encrypt_decrypt_within_argument_limit :
  forall (maxArguments : nat) (rangeError : JsError)
         (g1 g2 key : CryptoKey) (iv : bytes) (m : string) (enc : bytes),
    List.length iv = 12%nat ->
    encrypt_AES_GCM P key iv (TextEncoder_encode P m) = inr enc ->
    ((maxArguments < List.length (iv ++ enc)%list)%nat ->
     MLKEMProviderSpread.encrypt P maxArguments rangeError g1 iv m (KeyObject key)
     = inl rangeError) /\
    ((List.length (iv ++ enc)%list <= maxArguments)%nat ->
     atob P (btoa P (binary_string (iv ++ enc)%list))
       = inr (binary_string (iv ++ enc)%list) ->
     decrypt_AES_GCM P key iv enc = inr (TextEncoder_encode P m) ->
     TextDecoder_decode P (TextEncoder_encode P m) = m ->
     MLKEMProviderSpread.encrypt P maxArguments rangeError g1 iv m (KeyObject key)
       = inr (btoa P (binary_string (iv ++ enc)%list)) /\
     MLKEMProvider.decrypt P g2 (btoa P (binary_string (iv ++ enc)%list))
       (KeyObject key) = inr m).
Proof.
  intros maxArguments rangeError g1 g2 key iv m enc Hiv Henc. split.
  - intros Hlen. unfold MLKEMProviderSpread.encrypt. rewrite Henc.
    cbn [rbind]. unfold MLKEMProviderSpread.String_fromCharCode_spread.
    apply Nat.leb_gt in Hlen. rewrite Hlen. reflexivity.
  - intros Hlen Hb64 Hdec Htext. split.
    + unfold MLKEMProviderSpread.encrypt. rewrite Henc.
      cbn [rbind]. unfold MLKEMProviderSpread.String_fromCharCode_spread.
      apply Nat.leb_le in Hlen. rewrite Hlen. reflexivity.
    + destruct (@MLKEMProvider_round_trip_with_key_object P g1 g2 key iv m enc
                  Hiv Henc Hb64 Hdec Htext) as [ct [He Hd]].
      unfold MLKEMProvider.encrypt in He. rewrite Henc in He.
      cbn [rbind] in He. injection He as <-. exact Hd.
Qed.

End ProviderMore.

Section MLKEMMore.
Import MLKEMProvider MLKEMProviderKeys.
Variable P : Platform.
Variable variant : Variant.

Lemma inr_injective : forall (A B : Type) (x y : B),
  @inr A B x = inr y -> x = y.
Proof. intros A B x y H. congruence. Qed.

Lemma nth_map_seq : forall (f : nat -> byte) n j,
  (j < n)%nat -> nth j (map f (seq 0 n)) x00 = f j.
Proof.
  intros f n j H.
  rewrite (nth_indep _ x00 (f 0%nat)) by (rewrite length_map, length_seq; exact H).
  rewrite (map_nth f), seq_nth by exact H. reflexivity.
Qed.

Lemma array_store_length : forall a i v,
  List.length (array_store a i v) = List.length a.
Proof.
  intros a i v. unfold array_store.
  destruct (i <? List.length a)%nat eqn:E; [|reflexivity].
  apply Nat.ltb_lt in E.
  rewrite length_app, firstn_length_le by lia. cbn [List.length].
  rewrite length_skipn. lia.
Qed.

Lemma array_store_nth : forall a i v j,
  (i < List.length a)%nat ->
  nth j (array_store a i v) x00 = if Nat.eqb j i then v else nth j a x00.
Proof.
  intros a i v j Hi. unfold array_store.
  assert (E : (i <? List.length a)%nat = true) by (apply Nat.ltb_lt; exact Hi).
  rewrite E. clear E. revert i j Hi.
  induction a as [|x a IH]; intros i j Hi; simpl in Hi; [lia|].
  destruct i as [|i]; destruct j as [|j]; simpl; try reflexivity.
  apply IH. lia.
Qed.

Lemma fold_store : forall (f : nat -> byte) count start data,
  (start + count <= List.length data)%nat ->
  let out := fold_left (fun d i => array_store d i (f i)) (seq start count) data in
  List.length out = List.length data /\
  forall j, nth j out x00
            = if ((start <=? j) && (j <? start + count))%nat
              then f j else nth j data x00.
Proof.
  intros f count. induction count as [|n IH]; intros start data H;
    cbn [seq fold_left]; cbv zeta.
  - split; [reflexivity|]. intros j.
    assert (E : ((start <=? j) && (j <? start + 0))%nat = false).
    { apply andb_false_iff. rewrite Nat.leb_gt, Nat.ltb_ge. lia. }
    rewrite E. reflexivity.
  - destruct (IH (S start) (array_store data start (f start))) as [L N].
    { rewrite array_store_length. lia. }
    split; [rewrite L; apply array_store_length|].
    intros j. rewrite N. rewrite array_store_nth by lia.
    destruct (Nat.eqb j start) eqn:Ej.
    + apply Nat.eqb_eq in Ej. subst j.
      assert (E1 : ((S start <=? start) && (start <? S start + n))%nat = false).
      { apply andb_false_iff. left. apply Nat.leb_gt. lia. }
      assert (E2 : ((start <=? start) && (start <? start + S n))%nat = true).
      { apply andb_true_iff. rewrite Nat.leb_le, Nat.ltb_lt. lia. }
      rewrite E1, E2. reflexivity.
    + apply Nat.eqb_neq in Ej.
      assert (E : ((S start <=? j) && (j <? S start + n))%nat
                  = ((start <=? j) && (j <? start + S n))%nat).
      { apply Bool.eq_iff_eq_true.
        rewrite !andb_true_iff, !Nat.leb_le, !Nat.ltb_lt. lia. }
      rewrite E. reflexivity.
Qed.

Lemma byte_in_range : forall a : byte,
  In (Byte.to_N a) (map N.of_nat (seq 0 256)).
Proof.
  intros a. apply in_map_iff. exists (N.to_nat (Byte.to_N a)). split.
  - apply Nnat.N2Nat.id.
  - apply in_seq. pose proof (Byte.to_N_bounded a). lia.
Qed.

Lemma xor_byte_cancel : forall a b, xor_byte (xor_byte a b) b = a.
Proof.
  assert (H : forallb (fun n =>
                forallb (fun m =>
                  match Byte.of_N n, Byte.of_N m with
                  | Some a, Some b => Byte.eqb (xor_byte (xor_byte a b) b) a
                  | _, _ => false
                  end) (map N.of_nat (seq 0 256)))
                (map N.of_nat (seq 0 256)) = true)
    by (vm_compute; reflexivity).
  intros a b. rewrite forallb_forall in H.
  specialize (H (Byte.to_N a) (byte_in_range a)).
  rewrite forallb_forall in H.
  specialize (H (Byte.to_N b) (byte_in_range b)).
  rewrite !Byte.of_to_N in H. apply Byte.byte_dec_bl in H. exact H.
Qed.

Lemma typed_array_set_prefix_nth : forall target source j,
  (j < List.length source)%nat ->
  nth j (typed_array_set target source 0) x00 = nth j source x00.
Proof.
  intros target source j H. unfold typed_array_set. simpl.
  rewrite app_nth1 by exact H. reflexivity.
Qed.

Lemma typed_array_set_length : forall target source,
  (List.length source <= List.length target)%nat ->
  List.length (typed_array_set target source 0) = List.length target.
Proof.
  intros target source H. unfold typed_array_set. simpl.
  rewrite length_app, length_skipn. lia.
Qed.

Lemma keySize_at_least_64 : (64 <= keySize variant)%nat.
Proof. destruct variant; simpl; lia. Qed.

(** X24.  The sizes of the post-quantum provider: the ciphertext of
    [encapsulate] has [ciphertextSize] bytes whatever the key, and they are
    its first 32 bytes repeated; [decapsulate] returns 32 bytes for any
    ciphertext and any digest; the public key of [generateKeyPair] has
    [keySize] bytes. *)
Theorem MLKEMProvider_sizes :
  forall secret publicKey,
    List.length (ciphertext (encapsulate P variant secret publicKey))
      = ciphertextSize variant /\
    (forall i, (i < ciphertextSize variant)%nat ->
               nth i (ciphertext (encapsulate P variant secret publicKey)) x00
               = nth (i mod 32)
                   (ciphertext (encapsulate P variant secret publicKey)) x00) /\
    (forall privateKey ct,
        List.length (decapsulate P variant privateKey ct) = 32%nat) /\
    (forall privateKey pair,
        generateKeyPair P variant privateKey = inr pair ->
        List.length (pair_publicKey pair) = keySize variant).
Proof.
  intros secret publicKey. split; [|split; [|split]].
  - unfold encapsulate, expand_hash. simpl. rewrite length_map, length_seq.
    reflexivity.
  - intros i Hi. unfold encapsulate, expand_hash. cbn [ciphertext].
    assert (H32 : (i mod 32 < ciphertextSize variant)%nat).
    { pose proof (Nat.mod_upper_bound i 32). destruct variant; simpl in *; lia. }
    set (h := digest_SHA_256 P (secret ++ publicKey)%list).
    rewrite !nth_map_seq by assumption.
    rewrite Nat.Div0.mod_mod. reflexivity.
  - intros privateKey ct. unfold decapsulate, typed_array_set, slice, zero_bytes.
    simpl. rewrite length_app, length_skipn, repeat_length, Nat.sub_0_r.
    replace (sharedSecretSize variant) with 32%nat by (destruct variant; reflexivity).
    pose proof (firstn_le_length 32 (digest_SHA_256 P ct)). lia.
  - intros privateKey pair H. unfold generateKeyPair in H.
    destruct (_ <=? _)%nat eqn:E; [|discriminate].
    apply inr_injective in H. subst pair. cbn [pair_publicKey].
    apply Nat.leb_le in E. unfold zero_bytes in *. rewrite repeat_length in E.
    match goal with
    | |- List.length (fold_left (fun d i => array_store d i (@?f i)) _ ?data) = _ =>
        destruct (@fold_store f (keySize variant - 32) 32 data) as [L _]
    end.
    { rewrite typed_array_set_length by (rewrite repeat_length; exact E).
      rewrite repeat_length. pose proof keySize_at_least_64. lia. }
    rewrite L, typed_array_set_length by (rewrite repeat_length; exact E).
    apply repeat_length.
Qed.

(** X25.  The public key of [generateKeyPair] gives the private key away:
    with a 32-byte private key and a 32-byte digest, byte j of the private
    key is byte 32+j of the public key xor byte j of the public key. *)
Theorem generateKeyPair_public_key_reveals_private_key :
  forall privateKey pair,
    List.length privateKey = 32%nat ->
    List.length (digest_SHA_256 P privateKey) = 32%nat ->
    generateKeyPair P variant privateKey = inr pair ->
    pair_privateKey pair
    = map (fun j => xor_byte (nth (32 + j) (pair_publicKey pair) x00)
                             (nth j (pair_publicKey pair) x00))
          (seq 0 32).
Proof.
  intros privateKey pair Hp Hd H. unfold generateKeyPair in H.
  destruct (_ <=? _)%nat eqn:E; [|discriminate].
  apply inr_injective in H. subst pair. cbn [pair_publicKey pair_privateKey].
  apply Nat.leb_le in E. unfold zero_bytes in *. rewrite repeat_length in E.
  pose proof keySize_at_least_64 as K.
  match goal with
  | |- context [fold_left (fun d i => array_store d i (@?f i)) _ ?data] =>
      destruct (@fold_store f (keySize variant - 32) 32 data) as [_ N]
  end.
  { rewrite typed_array_set_length by (rewrite repeat_length; exact E).
    rewrite repeat_length. lia. }
  apply (nth_ext _ _ x00 x00).
  - rewrite length_map, length_seq. exact Hp.
  - intros j Hj. rewrite Hp in Hj.
    rewrite nth_map_seq by exact Hj.
    rewrite !N.
    assert (E1 : ((32 <=? 32 + j) && (32 + j <? 32 + (keySize variant - 32)))%nat = true).
    { apply andb_true_iff. split; [apply Nat.leb_le | apply Nat.ltb_lt]; lia. }
    assert (E2 : ((32 <=? j) && (j <? 32 + (keySize variant - 32)))%nat = false).
    { apply andb_false_iff. left. apply Nat.leb_gt. exact Hj. }
    rewrite E1, E2.
    rewrite typed_array_set_prefix_nth by lia.
    replace ((32 + j) mod 32)%nat with j
      by (rewrite Nat.add_comm, <- (Nat.mul_1_l 32) at 1;
          rewrite Nat.Div0.mod_add, Nat.mod_small by lia; lia).
    symmetry. apply xor_byte_cancel.
Qed.

(** X26.  [verify] accepts exactly one signature for given data, the digest
    that [sign] returns, and none of the two reads its key: anyone can
    produce the accepted signature. *)
Theorem MLKEMProvider_verify_accepts_exactly_the_digest :
  forall data signature privateKey publicKey,
    (verify P data signature publicKey = true <->
     signature = digest_SHA_256 P data) /\
    verify P data (sign P data privateKey) publicKey = true.
Proof.
  assert (Hiff : forall data signature publicKey,
             verify P data signature publicKey = true <->
             signature = digest_SHA_256 P data).
  { intros data signature publicKey. unfold verify.
    destruct (Nat.eqb _ _) eqn:El; simpl.
    - apply Nat.eqb_eq in El. rewrite forallb_forall. split.
      + intros H. symmetry. apply (nth_ext _ _ x00 x00); [exact El|].
        intros i Hi. apply Byte.byte_dec_bl. apply H. apply in_seq. lia.
      + intros -> i _. apply Byte.byte_dec_lb. reflexivity.
    - apply Nat.eqb_neq in El. split; [discriminate|].
      intros ->. contradiction El. reflexivity. }
  intros data signature privateKey publicKey. split; [apply Hiff|].
  apply Hiff. reflexivity.
Qed.

End MLKEMMore.

(** ** The security monitor's event log *)

Section MonitorEvents.
Import KeyManagementService SecurityMonitorEvents.

(** X27.  [recordKeyEvent] appends the event to the history of its key and
    to no other: [trackKeyLifecycle] of that key returns the earlier history
    followed by the event, and the history of every other key is as before;
    a key never recorded has the empty history. *)
Theorem recordKeyEvent_appends_to_its_key :
  forall event s id,
    trackKeyLifecycle id (recordKeyEvent event s)
    = if String.eqb (keyId event) id
      then (trackKeyLifecycle id s ++ [event])%list
      else trackKeyLifecycle id s.
Proof.
  intros event s id. unfold trackKeyLifecycle, recordKeyEvent.
  destruct (String.eqb (keyId event) id) eqn:E.
  - apply String.eqb_eq in E. subst id.
    rewrite (JsMap_get_set_eq String.eqb string_eqb_spec). reflexivity.
  - apply String.eqb_neq in E.
    rewrite (JsMap_get_set_neq String.eqb string_eqb_spec) by exact E.
    reflexivity.
Qed.

End MonitorEvents.

(** ** Concrete runs of the further properties *)

Section KeyManagementMoreRuns.
Import KeyManagementService KeyManagementProperties KeyTable.

(** X1 on a run: an id that the service with one key does not know. *)
Lemma unknown_key_is_rejected_without_effect_witness :
  JsMap.get String.eqb (keys Sample.one_key) "key_0_x" = None /\
  rotateKey Sample.env "key_0_x" Sample.one_key
    = (inl (Error "Key key_0_x not found"), Sample.one_key) /\
  revokeKey Sample.env "key_0_x" Sample.one_key
    = (inl (Error "Key key_0_x not found"), Sample.one_key).
Proof.
  assert (H : JsMap.get String.eqb (keys Sample.one_key) "key_0_x" = None)
    by (vm_compute; reflexivity).
  split; [exact H|].
  destruct (@unknown_key_is_rejected_without_effect Sample.env Sample.one_key
              "key_0_x" H) as [H1 [H2 _]].
  split; [exact H1 | exact H2].
Defined.

(** X2 on a run: with four keys generated, the sample platform rejects the
    next key generation, the one [rotateKey] asks for. *)
Lemma rotateKey_failed_generation_leaves_key_rotating_witness :
  exists md,
    JsMap.get String.eqb (keys Sample2.four_keys) Sample.first_id = Some md /\
    algorithm md = RSA_OAEP /\
    subtle_generateKey Sample.env (keygen_calls Sample2.four_keys)
      = inl (DOMException "OperationError" "The operation failed") /\
    exists s',
      rotateKey Sample.env Sample.first_id Sample2.four_keys
        = (inl (DOMException "OperationError" "The operation failed"), s') /\
      JsMap.get String.eqb (keys s') Sample.first_id =
        Some (with_rotatedAt (with_status md rotating)
                (Date_now Sample.env (clock_reads Sample2.four_keys))) /\
      keyStore s' = keyStore Sample2.four_keys /\
      emitted s' = emitted Sample2.four_keys.
Proof.
  assert (Hg : exists md,
             JsMap.get String.eqb (keys Sample2.four_keys) Sample.first_id = Some md /\
             algorithm md = RSA_OAEP)
    by (eexists; split; vm_compute; reflexivity).
  destruct Hg as [md [Hg Ha]].
  assert (Hk : subtle_generateKey Sample.env (keygen_calls Sample2.four_keys)
               = inl (DOMException "OperationError" "The operation failed"))
    by (vm_compute; reflexivity).
  exists md. split; [exact Hg|]. split; [exact Ha|]. split; [exact Hk|].
  destruct (@rotateKey_failed_generation_leaves_key_rotating Sample.env
              Sample2.four_keys Sample.first_id md _ Hg Ha Hk)
    as [s' [Hr [_ [Hget [_ [Hks Hem]]]]]].
  exists s'. repeat (split; [assumption|]). assumption.
Defined.

(** X4 on a run: the service after a key was generated and revoked. *)
Lemma reachable_key_table_is_well_formed_witness :
  reachable Sample.env Sample.one_revoked /\
  well_formed (keys Sample.one_revoked).
Proof.
  split; [apply sample_one_revoked_reachable|].
  exact (@reachable_key_table_is_well_formed Sample.env Sample.one_revoked
           sample_one_revoked_reachable).
Defined.

(** X5 on a run: the one key of [Sample.one_key] is rotated. *)
Lemma rotateKey_emits_created_then_rotated_witness :
  exists s' ev1 ev2,
    rotateKey Sample.env Sample.first_id Sample.one_key
      = (inr "key_1700000000005_i", s') /\
    emitted s' = (emitted Sample.one_key ++ [ev1; ev2])%list /\
    type ev1 = ev_created /\ keyId ev1 = "key_1700000000005_i" /\
    type ev2 = ev_rotated /\ previousKeyId ev2 = Some Sample.first_id.
Proof.
  assert (H : exists s',
             rotateKey Sample.env Sample.first_id Sample.one_key
             = (inr "key_1700000000005_i", s'))
    by (eexists; vm_compute; reflexivity).
  destruct H as [s' H].
  destruct (@rotateKey_emits_created_then_rotated Sample.env Sample.one_key
              Sample.first_id "key_1700000000005_i" s' H)
    as [md [ev1 [ev2 [_ [He [H1 [H2 [_ [H3 [_ [H4 _]]]]]]]]]]].
  exists s', ev1, ev2. repeat (split; [assumption|]). assumption.
Defined.

(** X6 on a run: the first key of a new service, whose RSA-OAEP policy has
    a [maxAge] of 90 days. *)
Lemma generateKey_result_can_be_looked_up_witness :
  fst (generateKey Sample.env RSA_OAEP initial) = inr Sample.first_id /\
  fst (getKey Sample.first_id (snd (generateKey Sample.env RSA_OAEP initial)))
    = inr (Some (Sample.rsa_key private 0)) /\
  fst (getPublicKey Sample.first_id (snd (generateKey Sample.env RSA_OAEP initial)))
    = inr (Some (Sample.rsa_key public 0)) /\
  exists md,
    fst (getKeyMetadata Sample.first_id
           (snd (generateKey Sample.env RSA_OAEP initial))) = inr (Some md) /\
    created md = 1700000000001%Z /\
    expiresAt md = Some (1700000000002 + 7776000000)%Z.
Proof.
  assert (H : fst (generateKey Sample.env RSA_OAEP initial) = inr Sample.first_id)
    by (vm_compute; reflexivity).
  assert (Hp : exists policy,
             fst (getRotationPolicy RSA_OAEP initial) = inr (Some policy) /\
             maxAge policy = 7776000000%Z)
    by (eexists; split; vm_compute; reflexivity).
  destruct Hp as [policy [Hp Hage]].
  assert (Hrange : forall policy',
             fst (getRotationPolicy RSA_OAEP initial) = inr (Some policy') ->
             (Z.abs (Date_now Sample.env (S (S (clock_reads initial)))
                     + maxAge policy') <= 8640000000000000)%Z).
  { intros policy' Hp'. rewrite Hp in Hp'. injection Hp' as <-. rewrite Hage.
    vm_compute. discriminate. }
  split; [exact H|].
  destruct (@generateKey_result_can_be_looked_up Sample.env RSA_OAEP initial
              Sample.first_id H Hrange)
    as [kp [md [Hk [Hpriv [Hpub [Hmd [_ [_ [_ [Hcr Hexp]]]]]]]]]].
  assert (E : kp = {| publicKey := Sample.rsa_key public 0;
                      privateKey := Sample.rsa_key private 0 |}).
  { assert (E0 : subtle_generateKey Sample.env (keygen_calls initial)
                 = inr {| publicKey := Sample.rsa_key public 0;
                          privateKey := Sample.rsa_key private 0 |})
      by (vm_compute; reflexivity).
    rewrite E0 in Hk. injection Hk as <-. reflexivity. }
  subst kp. split; [exact Hpriv|]. split; [exact Hpub|].
  exists md. split; [exact Hmd|]. split; [exact Hcr|].
  rewrite Hexp, Hp, Hage. reflexivity.
Defined.

(** X7 on a run: the revoked key of [Sample.one_revoked] is used. *)
Lemma recordKeyUsage_stamps_lastUsed_witness :
  exists md s',
    JsMap.get String.eqb (keys Sample.one_revoked) Sample.first_id = Some md /\
    status md = revoked /\
    recordKeyUsage Sample.env Sample.first_id Sample.one_revoked = (inr tt, s') /\
    JsMap.get String.eqb (keys s') Sample.first_id =
      Some (with_lastUsed md (Date_now Sample.env (clock_reads Sample.one_revoked))).
Proof.
  assert (Hg : exists md,
             JsMap.get String.eqb (keys Sample.one_revoked) Sample.first_id = Some md /\
             status md = revoked)
    by (eexists; split; vm_compute; reflexivity).
  destruct Hg as [md [Hg Hs]].
  destruct (@recordKeyUsage_stamps_lastUsed Sample.env Sample.one_revoked
              Sample.first_id md Hg) as [s' [ev [Hr [Hget _]]]].
  exists md, s'. repeat (split; [assumption|]). assumption.
Defined.

End KeyManagementMoreRuns.

Section KeyManagementQueriesRuns.
Import KeyManagementService KeyManagementProperties KeyManagementQueries.

(** X9 on a run: the three keys of [Sample.three_keys] are active RSA-OAEP
    keys, and all three are flagged. *)
Lemma checkKeyRotationNeeds_flags_active_keys_witness :
  exists s',
    checkKeyRotationNeeds Sample.env Sample.three_keys
      = (inr ["key_1700000000000_i"; "key_1700000000004_i"; "key_1700000000008_i"],
         s') /\
    forall id,
      In id ["key_1700000000000_i"; "key_1700000000004_i"; "key_1700000000008_i"] ->
      exists md, In (id, md) (JsMap.entries (keys Sample.three_keys)) /\
                 status md = active.
Proof.
  assert (H : exists s',
             checkKeyRotationNeeds Sample.env Sample.three_keys
             = (inr ["key_1700000000000_i"; "key_1700000000004_i";
                     "key_1700000000008_i"], s'))
    by (eexists; vm_compute; reflexivity).
  destruct H as [s' H]. exists s'. split; [exact H|].
  destruct (@checkKeyRotationNeeds_flags_active_keys Sample.env Sample.three_keys
              _ s' H) as [Hflag _].
  intros id Hin. destruct (Hflag id Hin) as [md [Hm [Hs _]]].
  exists md. split; assumption.
Defined.

End KeyManagementQueriesRuns.

Section ListenerRuns.
Import KeyEventListeners.

(** X13 on a run: three listeners, the second of which throws. *)
Lemma emitEvent_calls_every_listener_witness :
  exists s',
    emitEvent SampleListeners.throwing 4%nat SampleListeners.event
      (SampleListeners.registered [1; 2; 3]%nat) = Some s' /\
    eventListeners s' = [1; 2; 3]%nat /\
    calls s' = [(1%nat, SampleListeners.event); (2%nat, SampleListeners.event);
                (3%nat, SampleListeners.event)] /\
    console_error s' = [Error "listener failed"].
Proof.
  destruct (@emitEvent_calls_every_listener SampleListeners.throwing
              SampleListeners.event (SampleListeners.registered [1; 2; 3]%nat) 4%nat)
    as [s' [H1 [H2 [H3 H4]]]].
  - intros l n _. reflexivity.
  - simpl. lia.
  - exists s'. split; [exact H1|]. split; [exact H2|]. split; [exact H3 | exact H4].
Defined.

(** X14 on a run: listener 1 is registered first and third; one removal
    takes the first registration. *)
Lemma removeEventListener_removes_one_registration_witness :
  eventListeners
    (removeEventListener 1%nat (SampleListeners.registered [1; 2; 1; 3]%nat))
  = [2; 1; 3]%nat.
Proof.
  rewrite (proj2 (@removeEventListener_removes_one_registration 1%nat
                    (SampleListeners.registered [1; 2; 1; 3]%nat))
             [] [2; 1; 3]%nat eq_refl (fun H => H)).
  reflexivity.
Defined.

(** X31 on a run: four listeners, the second of which unregisters itself;
    the third is not called. *)
Lemma emitEvent_skips_the_listener_after_one_that_unregisters_itself_witness :
  exists s',
    emitEvent SampleListeners.once 4%nat SampleListeners.event
      (SampleListeners.registered [1; 2; 3; 4]%nat) = Some s' /\
    eventListeners s' = [1; 3; 4]%nat /\
    calls s' = [(1%nat, SampleListeners.event); (2%nat, SampleListeners.event);
                (4%nat, SampleListeners.event)].
Proof.
  apply (@emitEvent_skips_the_listener_after_one_that_unregisters_itself
           SampleListeners.once SampleListeners.event
           (SampleListeners.registered [1; 2; 3; 4]%nat)
           [1%nat] 2%nat 3%nat [4%nat] 4%nat).
  - reflexivity.
  - reflexivity.
  - intros l n [<-|[<-|[]]]; reflexivity.
  - simpl. lia.
Defined.

End ListenerRuns.

Section FactoryRuns.
Import CryptoProviderFactory CryptoProviderFactoryLookups.

(** X15 on a run: RSA-OAEP asked twice of a new factory. *)
Lemma createProvider_second_call_hits_cache_witness :
  JsMap.get algorithm_eqb (cache initial) (selectedAlgorithm (Some RSA_OAEP) initial)
    = None /\
  instantiateProvider Toy.loads_all (selectedAlgorithm (Some RSA_OAEP) initial)
    = inr RSAProvider_instance /\
  exists s1,
    createProvider Toy.loads_all (Some RSA_OAEP) initial
      = (inr RSAProvider_instance, s1) /\
    instantiations s1 = [RSA_OAEP] /\
    createProvider Toy.loads_all (Some RSA_OAEP) s1 = (inr RSAProvider_instance, s1).
Proof.
  split; [reflexivity|]. split; [reflexivity|].
  destruct (@createProvider_second_call_hits_cache Toy.loads_all (Some RSA_OAEP)
              initial RSAProvider_instance eq_refl eq_refl) as [s1 [H1 [H2 H3]]].
  exists s1. split; [exact H1|]. split; [exact H2 | exact H3].
Defined.

(** X16 on a run: preferred ECDH with the fallbacks SPHINCS+ and RSA-OAEP,
    asked twice. *)
Lemma createProvider_fallback_is_not_cached_for_the_request_witness :
  JsMap.get algorithm_eqb (cache Toy.factory) (selectedAlgorithm None Toy.factory)
    = None /\
  instantiateProvider Toy.loads_all (selectedAlgorithm None Toy.factory)
    = inl (CryptoError "Unsupported algorithm: ECDH" ALGORITHM_NOT_SUPPORTED
             (Some ECDH)) /\
  fallbacks_of Toy.factory = [SPHINCS_plus; RSA_OAEP] /\
  instantiateProvider Toy.loads_all RSA_OAEP = inr RSAProvider_instance /\
  exists s1 s2,
    createProvider Toy.loads_all None Toy.factory = (inr RSAProvider_instance, s1) /\
    createProvider Toy.loads_all None s1 = (inr RSAProvider_instance, s2) /\
    instantiations s2
      = (instantiations s1 ++ [ECDH; SPHINCS_plus; RSA_OAEP])%list.
Proof.
  split; [reflexivity|]. split; [reflexivity|]. split; [reflexivity|].
  split; [reflexivity|].
  destruct (@createProvider_fallback_is_not_cached_for_the_request
              Toy.loads_all None Toy.factory
              (CryptoError "Unsupported algorithm: ECDH" ALGORITHM_NOT_SUPPORTED
                 (Some ECDH))
              [SPHINCS_plus] RSA_OAEP [] RSAProvider_instance
              eq_refl eq_refl eq_refl)
    as [s1 [s2 [H1 [_ [H2 [_ H3]]]]]].
  - intros y [<-|[]]. eexists. reflexivity.
  - reflexivity.
  - exists s1, s2. split; [exact H1|]. split; [exact H2 | exact H3].
Defined.

(** X18 on a run: [Math.random] gives 1/2 and the configuration is the
    default one, with threshold 75 and hybrid mode on. *)
Lemma getRecommendedAlgorithm_is_never_classical_witness :
  (0 <= 1 # 2)%Q /\
  (getRecommendedAlgorithm (1 # 2) initial = ML_KEM_768 \/
   getRecommendedAlgorithm (1 # 2) initial = Hybrid_RSA_ML_KEM).
Proof.
  assert (H : (0 <= 1 # 2)%Q) by (unfold Qle; simpl; lia).
  split; [exact H|].
  destruct (@getRecommendedAlgorithm_is_never_classical (1 # 2) initial H)
    as [E|[E _]]; [left | right]; exact E.
Defined.

(** X19 on a run: from RSA-OAEP to ML-KEM-768 in a new factory. *)
Lemma migrateFromAlgorithm_plan_witness :
  exists m s',
    migrateFromAlgorithm Toy.loads_all RSA_OAEP ML_KEM_768 initial = (inr m, s') /\
    skipn 4 (migrationPlan m)
      = ["⚠️  Critical: Old messages remain quantum-vulnerable until re-encrypted"].
Proof.
  assert (H : exists m s',
             migrateFromAlgorithm Toy.loads_all RSA_OAEP ML_KEM_768 initial
             = (inr m, s'))
    by (eexists; eexists; vm_compute; reflexivity).
  destruct H as [m [s' H]]. exists m, s'. split; [exact H|].
  exact (proj2 (@migrateFromAlgorithm_plan Toy.loads_all RSA_OAEP ML_KEM_768
                  initial m s' H)).
Defined.

End FactoryRuns.

Section ProviderMoreRuns.
Import MLKEMProvider MLKEMProviderKeys.

(** X21 on a run: a raw key that is neither a public nor a private key. *)
Lemma RSAProvider_encrypt_error_codes_witness :
  RSAProvider.encrypt Toy.platform "hello" (RawBytes [x03])
    = inl (CryptoError
             "RSA key import failed: DataError: not a private key"
             KEY_GENERATION_FAILED (Some RSA_OAEP)) /\
  exists message code,
    CryptoError "RSA key import failed: DataError: not a private key"
      KEY_GENERATION_FAILED (Some RSA_OAEP)
    = CryptoError message code (Some RSA_OAEP) /\
    (code = ENCRYPTION_FAILED \/ code = KEY_GENERATION_FAILED).
Proof.
  assert (H : RSAProvider.encrypt Toy.platform "hello" (RawBytes [x03])
              = inl (CryptoError
                       "RSA key import failed: DataError: not a private key"
                       KEY_GENERATION_FAILED (Some RSA_OAEP)))
    by (vm_compute; reflexivity).
  split; [exact H|].
  destruct (@RSAProvider_encrypt_error_codes Toy.platform "hello" (RawBytes [x03])
              _ H) as [message [code [E Hc]]].
  exists message, code. split; [exact E|].
  destruct Hc as [Hc|[Hc _]]; [left | right]; exact Hc.
Defined.

(** X22 on a run: a ciphertext that was not made for the key. *)
Lemma RSAProvider_decrypt_error_code_witness :
  RSAProvider.decrypt Toy.platform "hello" (KeyObject (privateKey (Toy.rsa_pair x03)))
    = inl (CryptoError
             "RSA decryption failed: OperationError: The operation failed"
             DECRYPTION_FAILED (Some RSA_OAEP)) /\
  exists cause,
    CryptoError "RSA decryption failed: OperationError: The operation failed"
      DECRYPTION_FAILED (Some RSA_OAEP)
    = CryptoError ("RSA decryption failed: " ++ error_toString cause)
        DECRYPTION_FAILED (Some RSA_OAEP).
Proof.
  assert (H : RSAProvider.decrypt Toy.platform "hello"
                (KeyObject (privateKey (Toy.rsa_pair x03)))
              = inl (CryptoError
                       "RSA decryption failed: OperationError: The operation failed"
                       DECRYPTION_FAILED (Some RSA_OAEP)))
    by (vm_compute; reflexivity).
  split; [exact H|].
  exact (@RSAProvider_decrypt_error_code Toy.platform "hello"
           (KeyObject (privateKey (Toy.rsa_pair x03))) _ H).
Defined.

(** X25 on a run: an ML-KEM-512 key pair from the private key 05 ... 05. *)
Lemma generateKeyPair_public_key_reveals_private_key_witness :
  exists pair,
    generateKeyPair Toy.platform ML_KEM_512_variant (repeat x05 32) = inr pair /\
    List.length (repeat x05 32) = 32%nat /\
    List.length (digest_SHA_256 Toy.platform (repeat x05 32)) = 32%nat /\
    pair_privateKey pair
    = map (fun j => xor_byte (nth (32 + j) (pair_publicKey pair) x00)
                             (nth j (pair_publicKey pair) x00))
          (seq 0 32).
Proof.
  assert (H : exists pair,
             generateKeyPair Toy.platform ML_KEM_512_variant (repeat x05 32)
             = inr pair)
    by (eexists; vm_compute; reflexivity).
  destruct H as [pair H].
  assert (Hp : List.length (repeat x05 32) = 32%nat) by reflexivity.
  assert (Hd : List.length (digest_SHA_256 Toy.platform (repeat x05 32)) = 32%nat)
    by (vm_compute; reflexivity).
  exists pair. split; [exact H|]. split; [exact Hp|]. split; [exact Hd|].
  exact (@generateKeyPair_public_key_reveals_private_key Toy.platform
           ML_KEM_512_variant (repeat x05 32) pair Hp Hd H).
Defined.

(** X28 on a run: the toy platform's RSA keys given as raw bytes. *)
Lemma RSAProvider_round_trip_witness :
  exists ct,
    RSAProvider.encrypt Toy.platform "hello" (RawBytes (x01 :: repeat x03 8))
      = inr ct /\
    RSAProvider.decrypt Toy.platform ct (RawBytes (x02 :: repeat x03 8))
      = inr "hello".
Proof.
  apply (@RSAProvider_round_trip Toy.platform "hello"
           (RawBytes (x01 :: repeat x03 8)) (RawBytes (x02 :: repeat x03 8))
           (Toy.rsa_key public (repeat x03 8)) (Toy.rsa_key private (repeat x03 8)));
    vm_compute; try reflexivity; lia.
Defined.

(** X29 on a run: an envelope for the key pair 09 with the ephemeral key
    pair 05. *)
Lemma encryptMessage_decryptMessage_round_trip_witness :
  exists envelope,
    CryptoUtils.encryptMessage Toy.platform (Toy.ec_pair x05) Toy.nonce "hello"
      (publicKey (Toy.ec_pair x09)) = inr envelope /\
    CryptoUtils.decryptMessage Toy.platform envelope (privateKey (Toy.ec_pair x09))
      = inr "hello".
Proof.
  apply (@encryptMessage_decryptMessage_round_trip Toy.platform
           (Toy.ec_pair x05) Toy.nonce "hello"
           (publicKey (Toy.ec_pair x09)) (privateKey (Toy.ec_pair x09))
           (Toy.aes_key (Toy.xor_bytes (repeat x09 91) (repeat x05 91))
              [encrypt_usage])
           (Toy.aes_key (Toy.xor_bytes (repeat x05 91) (repeat x09 91))
              [decrypt_usage])
           (Toy.ec_key public (repeat x05 91))
           (repeat x05 91)
           (list_byte_of_string "hello"
            ++ Toy.tag (Toy.aes_key (Toy.xor_bytes (repeat x09 91) (repeat x05 91))
                          [encrypt_usage]) Toy.nonce)%list);
    vm_compute; reflexivity.
Defined.

(** X30 on a run: one AES key object on both sides; the result has 33
    bytes, within a limit of 1000 arguments and beyond one of 32. *)
Lemma MLKEMProvider_encrypt_decrypt_within_argument_limit_witness :
  MLKEMProviderSpread.encrypt Toy.platform 32%nat (Error "Maximum call stack size exceeded")
    Toy.generated_2 Toy.nonce "hello" (KeyObject Toy.generated_1)
  = inl (Error "Maximum call stack size exceeded") /\
  exists ct,
    MLKEMProviderSpread.encrypt Toy.platform 1000%nat
      (Error "Maximum call stack size exceeded")
      Toy.generated_2 Toy.nonce "hello" (KeyObject Toy.generated_1) = inr ct /\
    MLKEMProvider.decrypt Toy.platform Toy.generated_2 ct
      (KeyObject Toy.generated_1) = inr "hello".
Proof.
  assert (Hiv : List.length Toy.nonce = 12%nat) by reflexivity.
  assert (Henc : encrypt_AES_GCM Toy.platform Toy.generated_1 Toy.nonce
                   (TextEncoder_encode Toy.platform "hello")
                 = inr (list_byte_of_string "hello"
                        ++ Toy.tag Toy.generated_1 Toy.nonce)%list)
    by (vm_compute; reflexivity).
  split.
  - apply (proj1 (@MLKEMProvider_encrypt_decrypt_within_argument_limit
                    Toy.platform 32%nat (Error "Maximum call stack size exceeded")
                    Toy.generated_2 Toy.generated_2 Toy.generated_1 Toy.nonce
                    "hello" _ Hiv Henc)).
    vm_compute. lia.
  - eexists.
    apply (proj2 (@MLKEMProvider_encrypt_decrypt_within_argument_limit
                    Toy.platform 1000%nat (Error "Maximum call stack size exceeded")
                    Toy.generated_2 Toy.generated_2 Toy.generated_1 Toy.nonce
                    "hello" _ Hiv Henc)).
    + vm_compute. lia.
    + vm_compute. reflexivity.
    + vm_compute. reflexivity.
    + vm_compute. reflexivity.
Defined.

End ProviderMoreRuns.
